(** * Ankify: the card parser and the note field mapping of [src/main.ts]

    A shallow embedding of [parseAnkiCards] and of the per-card callback of
    [addNotesToAnki], together with the fragment of the JavaScript string
    and regular-expression semantics that these two functions rely on. *)

From Stdlib Require Import String Ascii.
From Stdlib Require Import List NArith Bool Arith Lia.
Import ListNotations.

(* ================================================================== *)
(** ** JavaScript strings *)

(** A JavaScript string is a sequence of UTF-16 code units. *)
Definition char := N.
Definition jsstring := list char.

(** ASCII literals of the source, written as Rocq strings. *)
Definition str (s : string) : jsstring :=
  map N_of_ascii (list_ascii_of_string s).
Arguments str s%_string.

Definition LF : char := 10%N.
Definition TAB : char := 9%N.

(** [LineTerminator] of ECMAScript: LF, CR, LS, PS. *)
Definition isLineTerminator (c : char) : bool :=
  (c =? 10)%N || (c =? 13)%N || (c =? 8232)%N || (c =? 8233)%N.

(** [WhiteSpace] of ECMAScript: TAB, VT, FF, ZWNBSP and the category Zs. *)
Definition isWhiteSpace (c : char) : bool :=
  (c =? 9)%N || (c =? 11)%N || (c =? 12)%N || (c =? 32)%N || (c =? 160)%N
  || (c =? 5760)%N || ((8192 <=? c)%N && (c <=? 8202)%N)
  || (c =? 8239)%N || (c =? 8287)%N || (c =? 12288)%N || (c =? 65279)%N.

(** What [String.prototype.trim] strips and what [\s] matches. *)
Definition isSpace (c : char) : bool := isWhiteSpace c || isLineTerminator c.

Fixpoint dropWhile (p : char -> bool) (s : jsstring) : jsstring :=
  match s with
  | [] => []
  | c :: tl => if p c then dropWhile p tl else s
  end.

Definition trimStart (s : jsstring) : jsstring := dropWhile isSpace s.
Definition trimEnd (s : jsstring) : jsstring := rev (dropWhile isSpace (rev s)).
Definition trim (s : jsstring) : jsstring := trimEnd (trimStart s).

Fixpoint streq (a b : jsstring) : bool :=
  match a, b with
  | [], [] => true
  | x :: a', y :: b' => (x =? y)%N && streq a' b'
  | _, _ => false
  end.

(** Truthiness of a string: the empty string is the only falsy one. *)
Definition truthy (s : jsstring) : bool :=
  match s with [] => false | _ => true end.

Fixpoint startsWith (p s : jsstring) : bool :=
  match p, s with
  | [], _ => true
  | x :: p', y :: s' => (x =? y)%N && startsWith p' s'
  | _ :: _, [] => false
  end.

(** [s.substring(n)] for [n] a non-negative literal. *)
Definition substring (n : nat) (s : jsstring) : jsstring := skipn n s.

Fixpoint includes (needle s : jsstring) : bool :=
  startsWith needle s ||
  match s with
  | [] => false
  | _ :: tl => includes needle tl
  end.

(* ================================================================== *)
(** ** String.prototype.split

    The loop of the ECMAScript specification: [q] scans the string, [p] is where the
    current piece starts. The matcher is asked at [q] and answers with the
    number of code units the separator takes there. [piece] holds
    [S[p..q)] reversed; [skip] counts the code units of a separator just
    matched that remain to be stepped over (so that the recursion is on
    the tail of the string). A match that ends at [p] is ignored
    ([e = p]: [q] advances); a match that ends at [q] with [p < q] closes
    the piece and is then ignored at the next turn, where [p = q]. *)

Section Split.
Variable matcher : nat -> jsstring -> option nat.

Fixpoint split_loop (skip : nat) (piece : jsstring) (q : nat)
         (rest : jsstring) : list jsstring :=
  match rest with
  | [] => [rev piece]
  | c :: tl =>
      match skip with
      | S k => split_loop k piece (S q) tl
      | O =>
          match matcher q rest with
          | None => split_loop 0 (c :: piece) (S q) tl
          | Some O =>
              match piece with
              | [] => split_loop 0 [c] (S q) tl
              | _ :: _ => rev piece :: split_loop 0 [c] (S q) tl
              end
          | Some (S k) => rev piece :: split_loop k [] (S q) tl
          end
      end
  end.

Definition split_with (s : jsstring) : list jsstring :=
  match s with
  | [] => match matcher 0 [] with Some _ => [] | None => [[]] end
  | _ :: _ => split_loop 0 [] 0 s
  end.
End Split.

(** [s.split(sep)] for a non-empty string separator. *)
Definition sep_matcher (sep : jsstring) (_ : nat) (rest : jsstring) : option nat :=
  if startsWith sep rest then Some (length sep) else None.

Definition split_str (sep s : jsstring) : list jsstring :=
  split_with (sep_matcher sep) s.

(* ================================================================== *)
(** ** Regular expressions

    The patterns of [parseAnkiCards] use literals, character classes,
    quantifiers on one-character atoms ([.*], [\s*], [\n+], [\s{2,}],
    [.*?]), optional groups, capturing groups, alternatives and the
    assertions [^] and [$] (no [m] flag). The matcher is the backtracking
    matcher of ECMAScript written with lists of successes: the
    results come in the order in which backtracking tries them, so the
    head of the list is the match that JavaScript reports. *)

Module RegExp.

Inductive regex : Type :=
| Eps
| Chr (c : char)
| Cls (cs : char -> bool)
| Seq (r1 r2 : regex)
| Alt (r1 r2 : regex)
| Rep (greedy : bool) (min : nat) (cs : char -> bool)
| Opt (r : regex)
| Grp (n : nat) (r : regex)
| Bol
| Eol.

(** Matcher state: index in the input, rest of the input, captures. *)
Record mstate : Type := MState {
  idx : nat;
  rest : jsstring;
  caps : list (nat * jsstring)
}.

(** [Canonicalize] without the [u] flag, on the code units that the
    literals of the patterns can be equal to: every literal of the
    patterns is ASCII, and a code unit above 127 is never canonicalized
    to an ASCII one, so only the ASCII letters are folded. *)
Definition canonicalize (c : char) : char :=
  if ((97 <=? c) && (c <=? 122))%N then (c - 32)%N else c.

Definition chr_eq (icase : bool) (c d : char) : bool :=
  if icase then (canonicalize c =? canonicalize d)%N else (c =? d)%N.

(** The rests after 0, 1, 2, ... code units of the class, with how many
    were taken. *)
Fixpoint runs (cs : char -> bool) (k : nat) (s : jsstring) : list (nat * jsstring) :=
  (k, s) ::
  match s with
  | c :: tl => if cs c then runs cs (S k) tl else []
  | [] => []
  end.

Definition ordered (greedy : bool) (l : list (nat * jsstring)) :=
  if greedy then rev l else l.

Definition setCap (n : nat) (v : jsstring) (st : mstate) : mstate :=
  MState (idx st) (rest st) ((n, v) :: caps st).

Fixpoint exec (icase : bool) (r : regex) (st : mstate) : list mstate :=
  match r with
  | Eps => [st]
  | Chr c =>
      match rest st with
      | d :: tl => if chr_eq icase c d then [MState (S (idx st)) tl (caps st)] else []
      | [] => []
      end
  | Cls cs =>
      match rest st with
      | d :: tl => if cs d then [MState (S (idx st)) tl (caps st)] else []
      | [] => []
      end
  | Seq r1 r2 => flat_map (exec icase r2) (exec icase r1 st)
  | Alt r1 r2 => exec icase r1 st ++ exec icase r2 st
  | Rep greedy min cs =>
      map (fun kt => MState (idx st + fst kt) (snd kt) (caps st))
          (ordered greedy (skipn min (runs cs 0 (rest st))))
  | Opt r =>
      (* one greedy iteration; an iteration that takes nothing is refused *)
      filter (fun st' => negb (idx st' =? idx st)) (exec icase r st) ++ [st]
  | Grp n r =>
      map (fun st' => setCap n (firstn (idx st' - idx st) (rest st)) st')
          (exec icase r st)
  | Bol => if idx st =? 0 then [st] else []
  | Eol => match rest st with [] => [st] | _ :: _ => [] end
  end.

(** The match at one position: the first success. *)
Definition match_at (icase : bool) (r : regex) (q : nat) (s : jsstring) : option mstate :=
  hd_error (exec icase r (MState q s [])).

(** The search of a pattern without the [g] flag: positions from left to
    right. *)
Fixpoint search (icase : bool) (r : regex) (q : nat) (s : jsstring) : option mstate :=
  match match_at icase r q s with
  | Some st => Some st
  | None =>
      match s with
      | [] => None
      | _ :: tl => search icase r (S q) tl
      end
  end.

(** [re.test(s)] *)
Definition test (icase : bool) (r : regex) (s : jsstring) : bool :=
  match search icase r 0 s with Some _ => true | None => false end.

(** [s.match(re)]: the captures of the first match, or [null]. *)
Definition exec_match (icase : bool) (r : regex) (s : jsstring) : option (list (nat * jsstring)) :=
  option_map caps (search icase r 0 s).

(** [m[n]]: the text of group [n], [undefined] when it took no part. *)
Fixpoint group (n : nat) (m : list (nat * jsstring)) : option jsstring :=
  match m with
  | [] => None
  | (k, v) :: tl => if k =? n then Some v else group n tl
  end.

(** The matcher [s.split(re)] asks at [q]: the patterns split on have no
    capturing group, so nothing but the pieces enters the result. *)
Definition split_matcher (icase : bool) (r : regex) (q : nat) (s : jsstring) : option nat :=
  match match_at icase r q s with
  | Some st => Some (idx st - q)
  | None => None
  end.

(** A literal, code unit by code unit. *)
Fixpoint lit (s : jsstring) : regex :=
  match s with
  | [] => Eps
  | [c] => Chr c
  | c :: tl => Seq (Chr c) (lit tl)
  end.

Fixpoint seqs (rs : list regex) : regex :=
  match rs with
  | [] => Eps
  | [r] => r
  | r :: tl => Seq r (seqs tl)
  end.

(** [.] : any code unit but a line terminator. *)
Definition dot (c : char) : bool := negb (isLineTerminator c).

End RegExp.

Definition split_re (r : RegExp.regex) (s : jsstring) : list jsstring :=
  split_with (RegExp.split_matcher false r) s.

(* ================================================================== *)
(** ** Exceptions

    The only operation of [parseAnkiCards] that can throw is a method call
    on an array element ([lines[0].trim()], [parts[1].trim()], ...): an
    index past the end reads [undefined], and the call on it throws a
    [TypeError]. [addNotesToAnki] throws [Error] objects with three
    messages, kept here as three constructors with the values that the
    message interpolates. *)

Inductive exn : Type :=
| TypeError
| CardIncomplete (question answer : jsstring)  (* the card is incomplete: question, answer *)
| NoFieldMapping (noteType : jsstring)         (* no field mapping for the note type *)
| FieldEmpty (key : jsstring).                 (* the field named key must not be empty *)

Inductive result (A : Type) : Type :=
| Ok (a : A)
| Throw (e : exn).
Arguments Ok {A} a.
Arguments Throw {A} e.

Definition bind {A B : Type} (c : result A) (k : A -> result B) : result B :=
  match c with
  | Ok a => k a
  | Throw e => Throw e
  end.

Notation "x <- c ;; k" := (bind c (fun x => k))
  (at level 61, c at next level, right associativity).

(** [arr[i]] used as the receiver of a method call. *)
Definition elem {A : Type} (arr : list A) (i : nat) : result A :=
  match nth_error arr i with
  | Some x => Ok x
  | None => Throw TypeError
  end.

Fixpoint foldM {A B : Type} (f : B -> A -> result B) (l : list A) (b : B) : result B :=
  match l with
  | [] => Ok b
  | x :: tl => b' <- f b x ;; foldM f tl b'
  end.

(* ================================================================== *)
(** ** The card parser: [parseAnkiCards] *)

Record AnkiCard : Type := mkCard {
  question : jsstring;
  answer : jsstring;
  annotation : option jsstring;
  tags : option (list jsstring)
}.

Definition setQuestion (v : jsstring) (c : AnkiCard) : AnkiCard :=
  mkCard v (answer c) (annotation c) (tags c).
Definition setAnswer (v : jsstring) (c : AnkiCard) : AnkiCard :=
  mkCard (question c) v (annotation c) (tags c).
Definition setAnnotation (v : option jsstring) (c : AnkiCard) : AnkiCard :=
  mkCard (question c) (answer c) v (tags c).
Definition setTags (v : list jsstring) (c : AnkiCard) : AnkiCard :=
  mkCard (question c) (answer c) (annotation c) (Some v).

Module Patterns.
Import RegExp.

Definition spaceOrComma (c : char) : bool := isSpace c || (c =? 44)%N.
Definition tabOrSpace (c : char) : bool := (c =? TAB)%N || isSpace c.
Definition isLF (c : char) : bool := (c =? LF)%N.

(** [/Q:.*\nA:.*( \nannotation:.* )?( \ntags:.* )?/i], the blanks inside the
    parentheses being added here *)
Definition multiLine : regex :=
  seqs [lit (str "Q:"); Rep true 0 dot; Chr LF; lit (str "A:"); Rep true 0 dot;
        Opt (Grp 1 (seqs [Chr LF; lit (str "annotation:"); Rep true 0 dot]));
        Opt (Grp 2 (seqs [Chr LF; lit (str "tags:"); Rep true 0 dot]))].

(** [/\n\s*\n+/] *)
Definition blankLines : regex :=
  seqs [Chr LF; Rep true 0 isSpace; Rep true 1 isLF].

(** [/[\s,]+/] *)
Definition tagSeparator : regex := Rep true 1 spaceOrComma.

(** [/^Q[\t\s]+A[\t\s]+annotation[\t\s]+tags$/i] *)
Definition tableHeader : regex :=
  seqs [Bol; lit (str "Q"); Rep true 1 tabOrSpace; lit (str "A"); Rep true 1 tabOrSpace;
        lit (str "annotation"); Rep true 1 tabOrSpace; lit (str "tags"); Eol].

(** [/\s{2,}/] *)
Definition columnGap : regex := Rep true 2 isSpace.

(** [/Q:\s*(.*?)\s*A:\s*(.*?)(?:\s*annotation:|$|\s*tags:)/i] *)
Definition qa : regex :=
  seqs [lit (str "Q:"); Rep true 0 isSpace; Grp 1 (Rep false 0 dot);
        Rep true 0 isSpace; lit (str "A:"); Rep true 0 isSpace;
        Grp 2 (Rep false 0 dot);
        Alt (Seq (Rep true 0 isSpace) (lit (str "annotation:")))
            (Alt Eol (Seq (Rep true 0 isSpace) (lit (str "tags:"))))].

(** [/annotation:\s*(.*?)(?:\s*tags:|$)/i] *)
Definition annotationField : regex :=
  seqs [lit (str "annotation:"); Rep true 0 isSpace; Grp 1 (Rep false 0 dot);
        Alt (Seq (Rep true 0 isSpace) (lit (str "tags:"))) Eol].

(** [/tags:\s*(.*?)$/i] *)
Definition tagsField : regex :=
  seqs [lit (str "tags:"); Rep true 0 isSpace; Grp 1 (Rep false 0 dot); Eol].

End Patterns.

(** [.split("#").map((tag) => tag.trim()).filter((tag) => tag.length > 0)] *)
Definition hashTags (tagsText : jsstring) : list jsstring :=
  filter truthy (map trim (split_str (str "#") tagsText)).

(** [.split(/[\s,]+/).map((tag) => tag.trim()).filter((tag) => tag.length > 0)] *)
Definition plainTags (tagsText : jsstring) : list jsstring :=
  filter truthy (map trim (split_re Patterns.tagSeparator tagsText)).

(** The two tag styles of the block and table branches. *)
Definition parseTags (tagsText : jsstring) : list jsstring :=
  if includes (str "#") tagsText then hashTags tagsText else plainTags tagsText.

Definition isMultiLineFormat (text : jsstring) : bool :=
  RegExp.test true Patterns.multiLine text.

(** *** Multi-line blocks *)

Definition cardBlocks (text : jsstring) : list jsstring :=
  filter (fun block => truthy (trim block)) (split_re Patterns.blankLines text).

Definition blockLines (block : jsstring) : list jsstring :=
  filter truthy (map trim (split_str [LF] block)).

(** The body of [for (const line of lines)]. *)
Definition scanLine (card : AnkiCard) (line : jsstring) : AnkiCard :=
  if startsWith (str "Q:") line then setQuestion (trim (substring 2 line)) card
  else if startsWith (str "A:") line then setAnswer (trim (substring 2 line)) card
  else if startsWith (str "annotation:") line then
    setAnnotation (Some (trim (substring 11 line))) card
  else if startsWith (str "tags:") line then
    setTags (parseTags (trim (substring 5 line))) card
  else card.

Definition emptyCard : AnkiCard := mkCard [] [] None None.

Definition blockCard (block : jsstring) : AnkiCard :=
  fold_left scanLine (blockLines block) emptyCard.

(** The body of [for (const block of cardBlocks)]. *)
Definition pushBlock (cards : list AnkiCard) (block : jsstring) : list AnkiCard :=
  let card := blockCard block in
  if truthy (question card) && truthy (answer card) then cards ++ [card] else cards.

Definition parseMultiLine (text : jsstring) : list AnkiCard :=
  fold_left pushBlock (cardBlocks text) [].

(** *** Table rows *)

Definition orEmpty (v : option jsstring) : jsstring :=
  match v with Some s => s | None => [] end.

(** The body of [for (let i = 1; i < lines.length; i++)]. *)
Definition tableRow (lines : list jsstring) (cards : list AnkiCard) (i : nat)
  : result (list AnkiCard) :=
  l <- elem lines i ;;
  let line := trim l in
  if negb (truthy line) then Ok cards else
  let parts :=
    if includes [TAB] line then split_str [TAB] line
    else split_re Patterns.columnGap line in
  if 2 <=? length parts then
    p0 <- elem parts 0 ;;
    p1 <- elem parts 1 ;;
    let card := mkCard (trim p0) (trim p1) None None in
    card <- (if 3 <=? length parts then
               p2 <- elem parts 2 ;;
               if truthy (trim p2) then Ok (setAnnotation (Some (trim p2)) card)
               else Ok card
             else Ok card) ;;
    card <- (if 4 <=? length parts then
               p3 <- elem parts 3 ;;
               if truthy (trim p3) then
                 let tagsText := trim p3 in
                 if truthy tagsText then Ok (setTags (parseTags tagsText) card)
                 else Ok card
               else Ok card
             else Ok card) ;;
    Ok (cards ++ [card])
  else Ok cards.

(** *** Fallback: one card per line *)

(** The body of [for (const line of lines)] of the last branch. *)
Definition fallbackLine (cards : list AnkiCard) (line : jsstring)
  : result (list AnkiCard) :=
  match RegExp.exec_match true Patterns.qa line with
  | Some qaMatch =>
      let card :=
        mkCard (orEmpty (option_map trim (RegExp.group 1 qaMatch)))
               (orEmpty (option_map trim (RegExp.group 2 qaMatch))) None None in
      let card :=
        match RegExp.exec_match true Patterns.annotationField line with
        | Some annotationMatch =>
            setAnnotation (option_map trim (RegExp.group 1 annotationMatch)) card
        | None => card
        end in
      let card :=
        match RegExp.exec_match true Patterns.tagsField line with
        | Some tagsMatch =>
            if truthy (orEmpty (RegExp.group 1 tagsMatch))
            then setTags (hashTags (orEmpty (RegExp.group 1 tagsMatch))) card
            else card
        | None => card
        end in
      Ok (cards ++ [card])
  | None =>
      let splitLine := split_str (str ":::") line in
      if 2 <=? length splitLine then
        s0 <- elem splitLine 0 ;;
        s1 <- elem splitLine 1 ;;
        Ok (cards ++ [mkCard (trim s0) (trim s1) None None])
      else Ok cards
  end.

Definition nonBlankLines (text : jsstring) : list jsstring :=
  filter (fun line => truthy (trim line)) (split_str [LF] text).

Definition isTableFormat (headerLine : jsstring) : bool :=
  RegExp.test true Patterns.tableHeader headerLine.

Definition parseAnkiCards (text : jsstring) : result (list AnkiCard) :=
  if isMultiLineFormat text then Ok (parseMultiLine text)
  else
    let lines := nonBlankLines text in
    if length lines =? 0 then Ok []
    else
      l0 <- elem lines 0 ;;
      let headerLine := trim l0 in
      if isTableFormat headerLine
      then foldM (tableRow lines) (seq 1 (length lines - 1)) []
      else foldM fallbackLine lines [].

(* ================================================================== *)
(** ** The field mapping: the per-card callback of [addNotesToAnki] *)

(** An object with string keys: its own properties in creation order. *)
Definition object := list (jsstring * jsstring).

(** [o[k] = v]: an existing property keeps its place. *)
Fixpoint obj_set (k v : jsstring) (o : object) : object :=
  match o with
  | [] => [(k, v)]
  | (k', v') :: tl => if streq k k' then (k', v) :: tl else (k', v') :: obj_set k v tl
  end.

Definition isDigit (c : char) : bool := ((48 <=? c) && (c <=? 57))%N.

Fixpoint digitsValue (acc : N) (s : jsstring) : option N :=
  match s with
  | [] => Some acc
  | c :: tl => if isDigit c then digitsValue (acc * 10 + (c - 48))%N tl else None
  end.

(** An array index: the canonical decimal form of an integer below
    [2^32 - 1]. [Object.entries] lists such keys first, in numeric order. *)
Definition arrayIndex (k : jsstring) : option N :=
  match k with
  | [] => None
  | c :: tl =>
      if (c =? 48)%N && truthy tl then None
      else match digitsValue 0 k with
           | Some n => if (n <? 4294967295)%N then Some n else None
           | None => None
           end
  end.

Fixpoint insertIndexed (n : N) (e : jsstring * jsstring)
         (l : list (N * (jsstring * jsstring))) : list (N * (jsstring * jsstring)) :=
  match l with
  | [] => [(n, e)]
  | (m, e') :: tl =>
      if (n <=? m)%N then (n, e) :: l else (m, e') :: insertIndexed n e tl
  end.

Fixpoint indexedEntries (o : object) : list (N * (jsstring * jsstring)) :=
  match o with
  | [] => []
  | e :: tl =>
      match arrayIndex (fst e) with
      | Some n => insertIndexed n e (indexedEntries tl)
      | None => indexedEntries tl
      end
  end.

Definition namedEntries (o : object) : list (jsstring * jsstring) :=
  filter (fun e => match arrayIndex (fst e) with Some _ => false | None => true end) o.

(** [Object.entries(o)] *)
Definition entries (o : object) : list (jsstring * jsstring) :=
  map snd (indexedEntries o) ++ namedEntries o.

(** [arr.includes(s)] on an array of strings. *)
Definition arr_includes (arr : list jsstring) (s : jsstring) : bool :=
  existsb (streq s) arr.

Definition DQUOTE : char := 34%N.

(** The thematic break and the opening of the styled span. *)
Definition annotationOpen : jsstring :=
  [LF] ++ str "<hr>" ++ [LF] ++ str "<span style=" ++ [DQUOTE]
  ++ str "color: rgb(143, 53, 8);" ++ [DQUOTE] ++ str ">".

Definition annotationClose : jsstring := str "</span>".

(** [card.answer] followed, when [card.annotation] is truthy, by the
    thematic break and the annotation in its span. *)
Definition answerWithAnnotation (card : AnkiCard) : jsstring :=
  answer card ++
  match annotation card with
  | Some a => if truthy a then annotationOpen ++ a ++ annotationClose else []
  | None => []
  end.

(** The localized labels of the second template: front side, back side. *)
Definition zhFront : jsstring := [27491%N; 38754%N].
Definition zhBack : jsstring := [32972%N; 38754%N].

Definition twoFields (k1 k2 : jsstring) (card : AnkiCard) : object :=
  obj_set k2 (answerWithAnnotation card) (obj_set k1 (question card) []).

(** The ladder of templates; the last rung reads [modelFieldNames[0]] and
    [modelFieldNames[1]] under the guard [modelFieldNames.length >= 2]. *)
Definition buildFields (noteType : jsstring) (card : AnkiCard)
           (modelFieldNames : list jsstring) : result object :=
  if arr_includes modelFieldNames (str "Front") && arr_includes modelFieldNames (str "Back")
  then Ok (twoFields (str "Front") (str "Back") card)
  else if arr_includes modelFieldNames zhFront && arr_includes modelFieldNames zhBack
  then Ok (twoFields zhFront zhBack card)
  else if arr_includes modelFieldNames (str "Text") && arr_includes modelFieldNames (str "Extra")
  then Ok (twoFields (str "Text") (str "Extra") card)
  else
    match modelFieldNames with
    | f0 :: f1 :: _ => Ok (twoFields f0 f1 card)
    | _ => Throw (NoFieldMapping noteType)
    end.

(** [for (const [key, value] of Object.entries(fields))] *)
Fixpoint validateEntries (es : list (jsstring * jsstring)) : result unit :=
  match es with
  | [] => Ok tt
  | (key, value) :: tl =>
      if negb (truthy value) || streq (trim value) []
      then Throw (FieldEmpty key)
      else validateEntries tl
  end.

(** The callback of [cards.map] up to the mapping it has built and
    validated: the card is checked first, before the field names are
    asked for; then the mapping is built and its values are validated. *)
Definition mapFields (noteType : jsstring) (card : AnkiCard)
           (modelFieldNames : list jsstring) : result object :=
  if negb (truthy (question card)) || negb (truthy (answer card))
  then Throw (CardIncomplete (question card) (answer card))
  else
    fields <- buildFields noteType card modelFieldNames ;;
    _ <- validateEntries (entries fields) ;;
    Ok fields.

Record Note : Type := mkNote {
  deckName : jsstring;
  modelName : jsstring;
  fields : object;
  noteTags : list jsstring;
  allowDuplicate : bool
}.

(** The callback of [cards.map]: the mapping of the card, wrapped in the
    note with the tags of the card. *)
Definition noteOfCard (deck noteType : jsstring) (modelFieldNames : list jsstring)
           (card : AnkiCard) : result Note :=
  fields <- mapFields noteType card modelFieldNames ;;
  Ok (mkNote deck noteType fields
             (match tags card with Some t => t | None => [] end) false).

(* ================================================================== *)
(** ** Vocabulary of the statements *)

(** Pieces joined by a separator, as [Array.prototype.join] does. *)
Fixpoint join (sep : jsstring) (ls : list jsstring) : jsstring :=
  match ls with
  | [] => []
  | [l] => l
  | l :: tl => l ++ sep ++ join sep tl
  end.

(** The lines of a block, one per line. *)
Definition joinLines (ls : list jsstring) : jsstring := join [LF] ls.

(** Blocks separated by one empty line. *)
Definition joinBlocks (bs : list (list jsstring)) : jsstring :=
  join [LF; LF] (map joinLines bs).

(** A string that [trim] leaves alone. *)
Definition trimmed (s : jsstring) : Prop := trim s = s.

(** A string without line terminator: what [.*] can run over. *)
Definition singleLine (s : jsstring) : Prop := forallb RegExp.dot s = true.

(** A line of a well-formed block: not empty, trimmed, without line feed. *)
Definition cleanLine (l : jsstring) : Prop :=
  l <> [] /\ trimmed l /\ ~ In LF l.

Definition wellFormedBlocks (bs : list (list jsstring)) : Prop :=
  Forall (fun b => b <> [] /\ Forall cleanLine b) bs.

(** What the block loop does with the lines of one block. *)
Definition pushLines (cards : list AnkiCard) (ls : list jsstring) : list AnkiCard :=
  let card := fold_left scanLine ls emptyCard in
  if truthy (question card) && truthy (answer card) then cards ++ [card] else cards.

(** A card with both sides filled. *)
Definition complete (c : AnkiCard) : Prop := question c <> [] /\ answer c <> [].

(** A card with a question. *)
Definition asked (c : AnkiCard) : Prop := question c <> [].

(** [pat] occurs in [s]. *)
Definition occurs (pat s : jsstring) : Prop :=
  exists pre post, s = pre ++ pat ++ post.

(** Equality of two strings up to the case of ASCII letters. *)
Definition ciEqual (a b : jsstring) : Prop :=
  Forall2 (fun c d => RegExp.canonicalize c = RegExp.canonicalize d) a b.

(** A non-empty run of white space. *)
Definition gap (w : jsstring) : Prop := w <> [] /\ forallb isSpace w = true.

(** The header of a table: the four column titles in any case, white space
    between them. *)
Definition tableHeaderLine (h : jsstring) : Prop :=
  exists q w1 a w2 an w3 tg,
    h = q ++ w1 ++ a ++ w2 ++ an ++ w3 ++ tg /\
    ciEqual q (str "Q") /\ gap w1 /\ ciEqual a (str "A") /\ gap w2 /\
    ciEqual an (str "annotation") /\ gap w3 /\ ciEqual tg (str "tags").

(** The structure that the detection pattern looks for: a marker [Q:],
    then on the same line anything, then a line feed directly followed by
    a marker [A:]. *)
Definition questionThenAnswer (text : jsstring) : Prop :=
  exists pre q mid a post,
    text = pre ++ q :: 58%N :: mid ++ LF :: a :: 58%N :: post /\
    RegExp.canonicalize q = 81%N /\ RegExp.canonicalize a = 65%N /\
    singleLine mid.

(** The two cards of the statements. *)
Definition qaCard (x y : jsstring) : AnkiCard := mkCard x y None None.
Definition qaBlock (x y : jsstring) : list jsstring :=
  [str "Q: " ++ x; str "A: " ++ y].

(** The first code unit of a string is kept by [trimStart]. *)
Definition headKept (s : jsstring) : Prop :=
  match s with
  | c :: _ => isSpace c = false
  | [] => False
  end.

(** A marker [Q:] followed, anywhere later, by a marker [A:]. *)
Definition markerPair (text : jsstring) : Prop :=
  exists pre q mid a post,
    text = pre ++ q :: 58%N :: mid ++ a :: 58%N :: post /\
    RegExp.canonicalize q = 81%N /\ RegExp.canonicalize a = 65%N.

(** The same, as a check that runs. *)
Fixpoint hasMarker (x : char) (s : jsstring) : bool :=
  match s with
  | d :: tl =>
      ((RegExp.canonicalize d =? x)%N
       && match tl with c :: _ => (c =? 58)%N | [] => false end)
      || hasMarker x tl
  | [] => false
  end.

Fixpoint hasMarkerPair (s : jsstring) : bool :=
  match s with
  | d :: tl =>
      ((RegExp.canonicalize d =? 81)%N
       && match tl with c :: tl2 => (c =? 58)%N && hasMarker 65%N tl2 | [] => false end)
      || hasMarkerPair tl
  | [] => false
  end.

(* ================================================================== *)
(** ** The card selection dialog: [SelectableCardsModal]

    The data that the dialog keeps and what its handlers do with it. A
    handler exists for the controls that [loadContent] created: one check
    box, one question input and one answer input per card, an annotation
    input for a card whose annotation was truthy when the dialog opened,
    and a tags input for a card that had at least one tag then. *)

Module Modal.

Record state : Type := mkState {
  cards : list AnkiCard;
  selectedCards : list bool;
  deckName : jsstring;
  noteType : jsstring;
  opened : list AnkiCard          (* the cards as [loadContent] saw them *)
}.

(** The constructor: every card selected, the default deck and note type. *)
Definition open (parsed : list AnkiCard) (defaultDeck defaultNoteType : jsstring) : state :=
  mkState parsed (map (fun _ => true) parsed) defaultDeck defaultNoteType parsed.

(** [card.tags && card.tags.length > 0] *)
Definition hasTags (card : AnkiCard) : bool :=
  match tags card with
  | Some ts => negb (length ts =? 0)
  | None => false
  end.

(** [card.annotation] as a condition *)
Definition hasAnnotation (card : AnkiCard) : bool :=
  match annotation card with
  | Some a => truthy a
  | None => false
  end.

(** The value shown in the tags input: [card.tags.join(" ")]. *)
Definition tagsInputValue (ts : list jsstring) : jsstring := join (str " ") ts.

(** [/\s+/] *)
Definition whitespaceRun : RegExp.regex := RegExp.Rep true 1 isSpace.

(** [value.split(/\s+/).map((tag) => tag.trim()).filter((tag) => tag.length > 0)] *)
Definition editedTags (value : jsstring) : list jsstring :=
  filter truthy (map trim (split_re whitespaceRun value)).

(** [arr[index] = v] for an index inside the array. *)
Fixpoint assign {A : Type} (arr : list A) (index : nat) (v : A) : option (list A) :=
  match arr, index with
  | [], _ => None
  | _ :: tl, O => Some (v :: tl)
  | x :: tl, S i => option_map (cons x) (assign tl i v)
  end.

(** [this.cards[index].field = v] *)
Definition update (cs : list AnkiCard) (index : nat) (f : AnkiCard -> AnkiCard)
  : option (list AnkiCard) :=
  match nth_error cs index with
  | Some c => assign cs index (f c)
  | None => None
  end.

Inductive event : Type :=
| SelectAll (checked : bool)
| CheckCard (index : nat) (checked : bool)
| EditQuestion (index : nat) (value : jsstring)
| EditAnswer (index : nat) (value : jsstring)
| EditAnnotation (index : nat) (value : jsstring)
| EditTags (index : nat) (value : jsstring)
| ChooseDeck (value : jsstring)
| ChooseNoteType (value : jsstring).

Definition withCards (st : state) (cs : list AnkiCard) : state :=
  mkState cs (selectedCards st) (deckName st) (noteType st) (opened st).

(** [loadContent] returns before it creates any control when there is no
    card: [this.cards.length === 0]. *)
Definition loaded (st : state) : bool := negb (length (opened st) =? 0).

(** The change handlers; [None] when the dialog has no such control. *)
Definition handle (e : event) (st : state) : option state :=
  match e with
  | SelectAll checked =>
      if loaded st
      then Some (mkState (cards st) (map (fun _ => checked) (selectedCards st))
                         (deckName st) (noteType st) (opened st))
      else None
  | CheckCard index checked =>
      match nth_error (opened st) index with
      | Some _ =>
          option_map (fun sel => mkState (cards st) sel (deckName st) (noteType st) (opened st))
                     (assign (selectedCards st) index checked)
      | None => None
      end
  | EditQuestion index value =>
      match nth_error (opened st) index with
      | Some _ => option_map (withCards st) (update (cards st) index (setQuestion value))
      | None => None
      end
  | EditAnswer index value =>
      match nth_error (opened st) index with
      | Some _ => option_map (withCards st) (update (cards st) index (setAnswer value))
      | None => None
      end
  | EditAnnotation index value =>
      match nth_error (opened st) index with
      | Some c =>
          if hasAnnotation c
          then option_map (withCards st)
                          (update (cards st) index (setAnnotation (Some value)))
          else None
      | None => None
      end
  | EditTags index value =>
      match nth_error (opened st) index with
      | Some c =>
          if hasTags c
          then option_map (withCards st)
                          (update (cards st) index (setTags (editedTags value)))
          else None
      | None => None
      end
  | ChooseDeck value =>
      if loaded st
      then Some (mkState (cards st) (selectedCards st) value (noteType st) (opened st))
      else None
  | ChooseNoteType value =>
      if loaded st
      then Some (mkState (cards st) (selectedCards st) (deckName st) value (opened st))
      else None
  end.

(** [this.cards.filter((_, index) => this.selectedCards[index])]: a flag
    that is missing reads [undefined], which is falsy. *)
Definition selectedCardsList (st : state) : list AnkiCard :=
  map snd (filter (fun ic => nth (fst ic) (selectedCards st) false)
                  (combine (seq 0 (length (cards st))) (cards st))).

(** What the click on the add button does first. *)
Inductive click : Type :=
| NoticeSelectCard                      (* nothing selected: a notice, and no call *)
| AddNotes (selected : list AnkiCard) (deck note : jsstring).

Definition clickAdd (st : state) : option click :=
  if loaded st then
    let selectedCardsList := selectedCardsList st in
    Some (if length selectedCardsList =? 0 then NoticeSelectCard
          else AddNotes selectedCardsList (deckName st) (noteType st))
  else None.

(** The events one after the other. *)
Fixpoint run (es : list event) (st : state) : option state :=
  match es with
  | [] => Some st
  | e :: tl => match handle e st with Some st' => run tl st' | None => None end
  end.

End Modal.

(* ================================================================== *)
(** ** The request to the model: [processContent] and [callModelAPI] *)

Module Api.

Record AnkifySettings : Type := mkSettings {
  apiModel : jsstring;
  deepseekApiKey : jsstring;
  openaiApiKey : jsstring;
  claudeApiKey : jsstring;
  customPrompt : jsstring;
  insertToDocument : bool;
  ankiConnectUrl : jsstring;
  defaultDeck : jsstring;
  defaultNoteType : jsstring
}.

Record message : Type := mkMessage { role : jsstring; content : jsstring }.

(** The body of the request; [temperature] holds the number literal as it
    is written and as [JSON.stringify] prints it. *)
Record body : Type := mkBody {
  model : jsstring;
  messages : list message;
  max_tokens : option N;
  temperature : jsstring
}.

Record request : Type := mkRequest {
  apiUrl : jsstring;
  headers : object;
  requestBody : body
}.

(** The one error of the construction: the model is none of the three. *)
Inductive apiError : Type := UnsupportedModel.

Definition jsonHeaders : object := [(str "Content-Type", str "application/json")].

(** [callModelAPI] up to the call of [fetch]. *)
Definition buildRequest (settings : AnkifySettings) (text : jsstring)
  : apiError + request :=
  let prompt := customPrompt settings ++ text in
  let model := apiModel settings in
  if streq model (str "deepseek") then
    inr (mkRequest (str "https://api.deepseek.com/v1/chat/completions")
           (obj_set (str "Authorization") (str "Bearer " ++ deepseekApiKey settings) jsonHeaders)
           (mkBody (str "deepseek-chat") [mkMessage (str "user") prompt] None (str "0.7")))
  else if streq model (str "openai") then
    inr (mkRequest (str "https://api.openai.com/v1/chat/completions")
           (obj_set (str "Authorization") (str "Bearer " ++ openaiApiKey settings) jsonHeaders)
           (mkBody (str "gpt-3.5-turbo") [mkMessage (str "user") prompt] None (str "0.7")))
  else if streq model (str "claude") then
    inr (mkRequest (str "https://api.anthropic.com/v1/messages")
           (obj_set (str "anthropic-version") (str "2023-06-01")
              (obj_set (str "x-api-key") (claudeApiKey settings) jsonHeaders))
           (mkBody (str "claude-3-haiku-20240307") [mkMessage (str "user") prompt]
                   (Some 1000%N) (str "0.7")))
  else inl UnsupportedModel.

(** The key of the selected model, [""] for any other model. *)
Definition selectedApiKey (settings : AnkifySettings) : jsstring :=
  let model := apiModel settings in
  if streq model (str "deepseek") then deepseekApiKey settings
  else if streq model (str "openai") then openaiApiKey settings
  else if streq model (str "claude") then claudeApiKey settings
  else [].

(** The name of the provider in the notice about the missing key. *)
Definition providerName (model : jsstring) : jsstring :=
  if streq model (str "deepseek") then str "DeepSeek"
  else if streq model (str "openai") then str "OpenAI"
  else str "Claude".

(** What [processContent] does with the selection, up to the call of
    [fetch]: a notice and nothing else, or the request, or the notice of
    the [catch] with the error of [callModelAPI]. *)
Inductive step : Type :=
| NoticeSelectText
| NoticeSetApiKey (provider : jsstring)
| Fetch (req : request)
| NoticeFailed (e : apiError).

Definition processContent (settings : AnkifySettings) (selectedText : jsstring) : step :=
  if negb (truthy selectedText) then NoticeSelectText
  else
    let apiKey := selectedApiKey settings in
    if negb (truthy apiKey) then NoticeSetApiKey (providerName (apiModel settings))
    else
      match buildRequest settings selectedText with
      | inr req => Fetch req
      | inl e => NoticeFailed e
      end.

(** [obj[k]] *)
Fixpoint obj_get (k : jsstring) (o : object) : option jsstring :=
  match o with
  | [] => None
  | (k', v) :: tl => if streq k k' then Some v else obj_get k tl
  end.

End Api.

(* ================================================================== *)
(** ** More vocabulary *)

Definition CR : char := 13%N.

(** A tag as the parser leaves it: not empty, nothing to trim. *)
Definition cleanTag (t : jsstring) : Prop := t <> [] /\ trimmed t.

(** A card in the form the parser gives to every card: nothing to trim on
    either side, in the annotation, or in a tag, and no empty tag. *)
Definition normalCard (c : AnkiCard) : Prop :=
  trimmed (question c) /\ trimmed (answer c) /\
  (forall n, annotation c = Some n -> trimmed n) /\
  (forall ts, tags c = Some ts -> Forall cleanTag ts).

(** The cards of the blocks, block by block. *)
Definition blockCards (block : jsstring) : list AnkiCard :=
  let card := blockCard block in
  if truthy (question card) && truthy (answer card) then [card] else [].

Definition colons (s : jsstring) : nat := count_occ N.eq_dec s 58%N.

(** A cell of a table row: not empty, nothing to trim, no tab, no line feed. *)
Definition cleanCell (c : jsstring) : Prop :=
  c <> [] /\ trimmed c /\ ~ In TAB c /\ ~ In LF c.

(** A string that opens with a marker [A:], in either case. *)
Definition startsAnswer (s : jsstring) : Prop :=
  exists a t, s = a :: 58%N :: t /\ RegExp.canonicalize a = 65%N.

(** A row of at least two clean cells whose first cell does not open with
    a marker [A:]. *)
Definition validRow (cells : list jsstring) : Prop :=
  2 <= length cells /\ Forall cleanCell cells /\ ~ startsAnswer (hd [] cells).

(** The cells of a row, tab after tab. *)
Definition rowLine (cells : list jsstring) : jsstring := join [TAB] cells.

(** The card that a row of clean cells stands for: question, answer, then
    the annotation and the tags when there are such cells. *)
Definition rowCard (cells : list jsstring) : AnkiCard :=
  match cells with
  | q :: a :: more => mkCard q a (nth_error more 0) (option_map parseTags (nth_error more 1))
  | _ => emptyCard
  end.

(** A string without the code units of a class. *)
Definition free (p : char -> bool) (s : jsstring) : Prop :=
  forallb (fun c => negb (p c)) s = true.

Definition isHash (c : char) : bool := (c =? 35)%N.

Definition spaceFree (t : jsstring) : Prop := t <> [] /\ free isSpace t.

(** The schema has both names of a template. *)
Definition hasTemplate (names : list jsstring) (k1 k2 : jsstring) : Prop :=
  In k1 names /\ In k2 names.

(** The schema has none of the three templates. *)
Definition noTemplate (names : list jsstring) : Prop :=
  ~ hasTemplate names (str "Front") (str "Back") /\
  ~ hasTemplate names zhFront zhBack /\
  ~ hasTemplate names (str "Text") (str "Extra").

(** The cards whose flag is set, flag by flag. *)
Fixpoint masked (cs : list AnkiCard) (sel : list bool) : list AnkiCard :=
  match cs, sel with
  | c :: cs', b :: sel' => (if b then [c] else []) ++ masked cs' sel'
  | _, _ => []
  end.

(** The dialog has one flag per card, and as many cards as when it opened. *)
Definition wellSized (st : Modal.state) : Prop :=
  length (Modal.selectedCards st) = length (Modal.cards st) /\
  length (Modal.cards st) = length (Modal.opened st).

(** One of the three models that [callModelAPI] knows. *)
Definition knownModel (m : jsstring) : Prop :=
  m = str "deepseek" \/ m = str "openai" \/ m = str "claude".

(** The request carries the key: as a bearer token or as [x-api-key]. *)
Definition carriesKey (req : Api.request) (key : jsstring) : Prop :=
  Api.obj_get (str "Authorization") (Api.headers req) = Some (str "Bearer " ++ key) \/
  Api.obj_get (str "x-api-key") (Api.headers req) = Some key.

(** A line with one marker and then another: [pre], a letter and a colon,
    [x], a letter and a colon, [y]. *)
Definition markedLine (pre : jsstring) (q : char) (x : jsstring) (a : char) (y : jsstring)
  : jsstring :=
  pre ++ q :: 58%N :: x ++ a :: 58%N :: y.

(** A line with one marker [Q:] and one marker [A:], in either case, and
    no other colon: [x] stands between the markers and [y] after them,
    both without line terminator. *)
Definition answered (line x y : jsstring) : Prop :=
  exists pre q a,
    line = markedLine pre q x a y /\
    RegExp.canonicalize q = 81%N /\ RegExp.canonicalize a = 65%N /\
    ~ In 58%N pre /\ ~ In 58%N x /\ ~ In 58%N y /\
    ~ In LF pre /\ singleLine x /\ singleLine y.

(** The card of such a line. *)
Definition lineCard (xy : jsstring * jsstring) : AnkiCard :=
  qaCard (trim (fst xy)) (trim (snd xy)).

(** Blocks behind gaps of white space. *)

(** A side of a card as a well-formed block has it: not empty, nothing to
    trim, no line terminator. *)
Definition plainSide (x : jsstring) : Prop := x <> [] /\ trimmed x /\ singleLine x.

(** A block behind its gap: a line feed, white space, a line feed. *)
Definition gapBlock (wb : jsstring * list jsstring) : jsstring :=
  LF :: fst wb ++ LF :: joinLines (snd wb).

(** A first block, then blocks behind their gaps. *)
Definition spacedBlocks (b : list jsstring) (more : list (jsstring * list jsstring))
  : jsstring :=
  joinLines b ++ flat_map gapBlock more.

(** A gap, then the question and the answer of the block behind it. *)
Definition laterBlock (m : jsstring * (jsstring * jsstring)) : jsstring * list jsstring :=
  (fst m, qaBlock (fst (snd m)) (snd (snd m))).

(** The card of that block. *)
Definition laterCard (m : jsstring * (jsstring * jsstring)) : AnkiCard :=
  qaCard (fst (snd m)) (snd (snd m)).

(** The gap is white space only and the block behind it is well formed. *)
Definition gapOk (wb : jsstring * list jsstring) : Prop :=
  forallb isSpace (fst wb) = true /\ snd wb <> [] /\ Forall cleanLine (snd wb).

(** The gap is white space only and both sides of the block are plain. *)
Definition laterOk (m : jsstring * (jsstring * jsstring)) : Prop :=
  forallb isSpace (fst m) = true /\ plainSide (fst (snd m)) /\ plainSide (snd (snd m)).

(* ================================================================== *)
(** * Properties *)

Import RegExp.

(** ** Strings *)

Lemma streq_eq (a b : jsstring) : streq a b = true <-> a = b.
Proof.
  revert b; induction a as [|x a IH]; intros [|y b]; simpl; split; intro H;
    try reflexivity; try discriminate.
  - apply andb_true_iff in H as [Hx Hs]. apply N.eqb_eq in Hx.
    apply IH in Hs. now subst.
  - injection H as -> ->. rewrite N.eqb_refl. simpl. now apply IH.
Qed.

Lemma streq_refl (a : jsstring) : streq a a = true.
Proof. now apply streq_eq. Qed.

Lemma startsWith_app (p s : jsstring) : startsWith p (p ++ s) = true.
Proof. induction p as [|x p IH]; simpl; [reflexivity|]. now rewrite N.eqb_refl. Qed.

Lemma startsWith_inv (p s : jsstring) :
  startsWith p s = true -> exists t, s = p ++ t.
Proof.
  revert s; induction p as [|x p IH]; intros s H; simpl in *.
  - now exists s.
  - destruct s as [|y s]; [discriminate|].
    apply andb_true_iff in H as [Hx Hs]. apply N.eqb_eq in Hx. subst y.
    destruct (IH _ Hs) as [t ->]. now exists t.
Qed.

Lemma truthy_true (s : jsstring) : truthy s = true <-> s <> [].
Proof. destruct s; simpl; split; congruence. Qed.

Lemma truthy_false (s : jsstring) : truthy s = false <-> s = [].
Proof. destruct s; simpl; split; congruence. Qed.

Lemma dropWhile_suffix (p : char -> bool) (s : jsstring) :
  exists a, s = a ++ dropWhile p s /\ forallb p a = true.
Proof.
  induction s as [|c s [a [IH Ha]]]; simpl.
  - now exists [].
  - destruct (p c) eqn:E.
    + exists (c :: a). simpl. rewrite E, Ha. split; [now f_equal | reflexivity].
    + now exists [].
Qed.

Lemma dropWhile_length (p : char -> bool) (s : jsstring) :
  length (dropWhile p s) <= length s.
Proof.
  destruct (dropWhile_suffix p s) as [a [E _]].
  rewrite E at 2. rewrite length_app. lia.
Qed.

Lemma dropWhile_fixed (p : char -> bool) (s : jsstring) :
  length (dropWhile p s) = length s -> dropWhile p s = s.
Proof.
  destruct (dropWhile_suffix p s) as [a [E _]]. intro L.
  rewrite E in L at 2. rewrite length_app in L.
  destruct a; [exact (eq_sym E) | simpl in L; lia].
Qed.

Lemma dropWhile_headKept (s : jsstring) : headKept s -> dropWhile isSpace s = s.
Proof. destruct s as [|c s]; simpl; [tauto|]. now intros ->. Qed.

Lemma headKept_of_fixed (s : jsstring) :
  s <> [] -> dropWhile isSpace s = s -> headKept s.
Proof.
  destruct s as [|c s]; [congruence|]. simpl. intros _.
  destruct (isSpace c) eqn:E; [|reflexivity]. intro H.
  pose proof (dropWhile_length isSpace s) as L. rewrite H in L. simpl in L. lia.
Qed.

Lemma headKept_app (a b : jsstring) : headKept a -> headKept (a ++ b).
Proof. destruct a; simpl; tauto. Qed.

Lemma trim_kept (s : jsstring) : headKept s -> headKept (rev s) -> trim s = s.
Proof.
  intros H1 H2. unfold trim, trimEnd, trimStart.
  rewrite (dropWhile_headKept _ H1), (dropWhile_headKept _ H2). apply rev_involutive.
Qed.

Lemma trimmed_kept (s : jsstring) :
  s <> [] -> trimmed s -> headKept s /\ headKept (rev s).
Proof.
  intros Hne Ht. unfold trimmed, trim, trimEnd, trimStart in Ht.
  assert (L : length (dropWhile isSpace s) = length s).
  { apply Nat.le_antisymm; [apply dropWhile_length|].
    rewrite <- Ht at 1. rewrite length_rev.
    etransitivity; [apply dropWhile_length|]. now rewrite length_rev. }
  apply dropWhile_fixed in L. rewrite L in Ht.
  split; [now apply headKept_of_fixed|].
  apply headKept_of_fixed.
  - intro E. apply (f_equal (@rev char)) in E. rewrite rev_involutive in E. now subst.
  - rewrite <- Ht at 2. now rewrite rev_involutive.
Qed.

Lemma trim_nonempty (s : jsstring) : headKept s -> trim s <> [].
Proof.
  intros H. unfold trim, trimEnd, trimStart. rewrite (dropWhile_headKept _ H).
  destruct s as [|c s]; [destruct H|]. unfold headKept in H.
  intro E. apply (f_equal (@rev char)) in E. rewrite rev_involutive in E.
  destruct (dropWhile_suffix isSpace (rev (c :: s))) as [a [Ea Fa]].
  rewrite E in Ea. change (rev (@nil char)) with (@nil char) in Ea.
  rewrite app_nil_r in Ea. rewrite <- Ea in Fa.
  rewrite forallb_forall in Fa. specialize (Fa c).
  rewrite Fa in H; [discriminate|]. apply in_rev. rewrite rev_involutive. now left.
Qed.

Lemma trim_space_cons (c : char) (s : jsstring) :
  isSpace c = true -> trim (c :: s) = trim s.
Proof. intros H. unfold trim, trimStart. simpl. now rewrite H. Qed.

Lemma trim_nil_iff (v : jsstring) :
  negb (truthy v) || streq (trim v) [] = true <-> trim v = [].
Proof.
  rewrite orb_true_iff, streq_eq, negb_true_iff, truthy_false.
  split; [intros [->|H]; [reflexivity|exact H] | now right].
Qed.

(** ** Objects and their entries *)

Lemma in_insertIndexed n e l x :
  In x (insertIndexed n e l) <-> x = (n, e) \/ In x l.
Proof.
  induction l as [|[m e'] l IH]; simpl.
  - intuition congruence.
  - destruct (n <=? m)%N; simpl; [intuition congruence|].
    rewrite IH. intuition congruence.
Qed.

Lemma in_indexedEntries (o : object) n e :
  In (n, e) (indexedEntries o) <-> In e o /\ arrayIndex (fst e) = Some n.
Proof.
  induction o as [|e' o IH]; simpl; [tauto|].
  destruct (arrayIndex (fst e')) eqn:E.
  - rewrite in_insertIndexed, IH. split.
    + intros [H|[H1 H2]]; [injection H as -> ->; auto | auto].
    + intros [[->|H1] H2]; [left; congruence | auto].
  - rewrite IH. split; [tauto|]. intros [[->|H1] H2]; [congruence | auto].
Qed.

(** [Object.entries] lists every property, and nothing else. *)
Lemma in_entries (o : object) e : In e (entries o) <-> In e o.
Proof.
  unfold entries, namedEntries. rewrite in_app_iff, in_map_iff, filter_In. split.
  - intros [[[n e'] [E H]]|[H _]]; [|exact H].
    simpl in E. subst e'. now apply in_indexedEntries in H.
  - intro H. destruct (arrayIndex (fst e)) as [n|] eqn:E.
    + left. exists (n, e). split; [reflexivity|]. now apply in_indexedEntries.
    + now right.
Qed.

Lemma validateEntries_cases (es : list (jsstring * jsstring)) :
  (validateEntries es = Ok tt /\ forall k v, In (k, v) es -> trim v <> []) \/
  (exists k v, validateEntries es = Throw (FieldEmpty k) /\ In (k, v) es /\ trim v = []).
Proof.
  induction es as [|[k v] es IH]; simpl.
  - left. split; [reflexivity | tauto].
  - destruct (negb (truthy v) || streq (trim v) []) eqn:E.
    + right. exists k, v. apply trim_nil_iff in E. auto.
    + assert (Hv : trim v <> []).
      { intro H. apply trim_nil_iff in H. congruence. }
      destruct IH as [[-> IH]|[k' [v' [-> [Hin Hv']]]]].
      * left. split; [reflexivity|]. intros k' v' [H|H]; [congruence | eauto].
      * right. exists k', v'. auto.
Qed.

(** ** The ladder of templates *)

Lemma arr_includes_In (arr : list jsstring) (s : jsstring) :
  arr_includes arr s = true <-> In s arr.
Proof.
  unfold arr_includes. rewrite existsb_exists. split.
  - intros [x [Hin E]]. apply streq_eq in E. now subst.
  - intro H. exists s. split; [exact H | apply streq_refl].
Qed.

Lemma two_names (arr : list jsstring) (a b : jsstring) :
  a <> b -> arr_includes arr a && arr_includes arr b = true -> 2 <= length arr.
Proof.
  intros Hab H. apply andb_true_iff in H as [Ha Hb].
  apply arr_includes_In in Ha, Hb.
  destruct arr as [|x [|y arr]]; simpl in *; [tauto | | lia].
  destruct Ha as [<-|[]], Hb as [<-|[]]. congruence.
Qed.

(** A schema with fewer than two names matches no template and has no
    positional mapping either. *)
Lemma buildFields_short noteType card names :
  length names < 2 -> buildFields noteType card names = Throw (NoFieldMapping noteType).
Proof.
  intro L. unfold buildFields.
  destruct (arr_includes names (str "Front") && arr_includes names (str "Back")) eqn:E1.
  { apply two_names in E1; [lia | discriminate]. }
  destruct (arr_includes names zhFront && arr_includes names zhBack) eqn:E2.
  { apply two_names in E2; [lia | discriminate]. }
  destruct (arr_includes names (str "Text") && arr_includes names (str "Extra")) eqn:E3.
  { apply two_names in E3; [lia | discriminate]. }
  destruct names as [|f0 [|f1 names]]; simpl in L; try reflexivity. lia.
Qed.

Lemma buildFields_long noteType card names :
  2 <= length names -> exists fields, buildFields noteType card names = Ok fields.
Proof.
  intro L. unfold buildFields.
  repeat match goal with
         | |- context [if ?b then _ else _] => destruct b; [eexists; reflexivity|]
         end.
  destruct names as [|f0 [|f1 names]]; simpl in L; try lia. eexists; reflexivity.
Qed.

(** The check that opens the callback. *)
Lemma mapFields_guard noteType card names :
  question card = [] \/ answer card = [] ->
  mapFields noteType card names = Throw (CardIncomplete (question card) (answer card)).
Proof.
  unfold mapFields. intros [->| ->]; [reflexivity|].
  now rewrite orb_true_r.
Qed.

Lemma mapFields_checked noteType card names :
  question card <> [] -> answer card <> [] ->
  mapFields noteType card names
  = (fields <- buildFields noteType card names ;;
     _ <- validateEntries (entries fields) ;;
     Ok fields).
Proof.
  intros Hq Ha. unfold mapFields.
  apply truthy_true in Hq, Ha. now rewrite Hq, Ha.
Qed.

Lemma mapFields_complete noteType card names fields :
  mapFields noteType card names = Ok fields -> question card <> [] /\ answer card <> [].
Proof.
  intro H. split; intro E.
  - rewrite mapFields_guard in H by now left. discriminate H.
  - rewrite mapFields_guard in H by now right. discriminate H.
Qed.

Lemma mapFields_cases noteType card names :
  question card <> [] -> answer card <> [] ->
  match buildFields noteType card names with
  | Throw e => mapFields noteType card names = Throw e
  | Ok fields =>
      (mapFields noteType card names = Ok fields /\
       forall k v, In (k, v) fields -> trim v <> []) \/
      (exists k v, mapFields noteType card names = Throw (FieldEmpty k) /\
                   In (k, v) fields /\ trim v = [])
  end.
Proof.
  intros Hq Ha. rewrite (mapFields_checked noteType card names Hq Ha).
  destruct (buildFields noteType card names) as [fields|e]; simpl; [|reflexivity].
  destruct (validateEntries_cases (entries fields)) as [[-> H]|[k [v [-> [Hin Hv]]]]]; simpl.
  - left. split; [reflexivity|]. intros k v Hin. apply (H k v). now apply in_entries.
  - right. exists k, v. rewrite in_entries in Hin. auto.
Qed.

Lemma side_dec (s : jsstring) : s = [] \/ s <> [].
Proof. destruct s; [now left | right; discriminate]. Qed.

(** C4, amended. [mapFields] throws exactly when the question or the
    answer of the card is empty, or the schema has fewer than two field
    names (it then matches no template either), or some value of the
    mapping that is built is empty once trimmed. With an empty question
    or answer the error is the one about the incomplete card, which names
    no field, whatever the schema. For a card with a question and an
    answer, the error is the one about the note type when the schema has
    fewer than two names, and otherwise it names a field whose value is
    empty once trimmed. An error is the whole result: no mapping comes
    with it. *)
Theorem mapFields_throws_exactly (noteType : jsstring) (card : AnkiCard)
        (names : list jsstring) :
  ((exists e, mapFields noteType card names = Throw e) <->
   (question card = [] \/ answer card = [] \/ length names < 2 \/
    exists fields key value,
      buildFields noteType card names = Ok fields /\
      In (key, value) fields /\ trim value = []))
  /\ (question card = [] \/ answer card = [] ->
      mapFields noteType card names
      = Throw (CardIncomplete (question card) (answer card)))
  /\ (question card <> [] -> answer card <> [] -> length names < 2 ->
      buildFields noteType card names = Throw (NoFieldMapping noteType) /\
      mapFields noteType card names = Throw (NoFieldMapping noteType))
  /\ (question card <> [] -> answer card <> [] ->
      forall fields,
        buildFields noteType card names = Ok fields ->
        (exists key value, In (key, value) fields /\ trim value = []) ->
        exists key value,
          In (key, value) fields /\ trim value = [] /\
          mapFields noteType card names = Throw (FieldEmpty key))
  /\ (forall e, mapFields noteType card names = Throw e ->
                forall fields, mapFields noteType card names <> Ok fields).
Proof.
  split; [|split; [|split; [|split]]].
  - destruct (side_dec (question card)) as [Eq|Hq].
    { split; [auto|]. intros _. rewrite mapFields_guard by now left. eauto. }
    destruct (side_dec (answer card)) as [Ea|Ha].
    { split; [auto|]. intros _. rewrite mapFields_guard by now right. eauto. }
    pose proof (mapFields_cases noteType card names Hq Ha) as C. split.
    + intros [e He]. right. right.
      destruct (Nat.lt_ge_cases (length names) 2) as [L|L]; [now left|right].
      destruct (buildFields_long noteType card names L) as [fields Hf]. rewrite Hf in C.
      destruct C as [[C _]|[k [v [_ [Hin Hv]]]]]; [congruence|].
      exists fields, k, v. auto.
    + intros [E|[E|[L|[fields [k [v [Hf [Hin Hv]]]]]]]]; try contradiction.
      * rewrite (buildFields_short noteType card names L) in C. eauto.
      * rewrite Hf in C. destruct C as [[_ C]|[k' [v' [C _]]]]; [|eauto].
        exfalso. exact (C k v Hin Hv).
  - apply mapFields_guard.
  - intros Hq Ha L. pose proof (mapFields_cases noteType card names Hq Ha) as C.
    rewrite (buildFields_short noteType card names L) in C |- *. auto.
  - intros Hq Ha fields Hf [k [v [Hin Hv]]].
    pose proof (mapFields_cases noteType card names Hq Ha) as C. rewrite Hf in C.
    destruct C as [[_ C]|[k' [v' [C [Hin' Hv']]]]].
    + exfalso. exact (C k v Hin Hv).
    + exists k', v'. auto.
  - intros e He fields Hf. congruence.
Qed.

(** The three ways to fail: a schema of one name, the spec's card with an
    empty answer, and a question of one space. *)
Lemma mapFields_throws_exactly_witness :
  mapFields (str "Basic") (qaCard (str "Q") (str "A")) [str "f1"]
    = Throw (NoFieldMapping (str "Basic"))
  /\ mapFields (str "Basic") (qaCard (str "Q") []) [str "Front"; str "Back"]
     = Throw (CardIncomplete (str "Q") [])
  /\ exists key value,
       In (key, value) [(str "Front", str " "); (str "Back", str "A")] /\
       trim value = [] /\
       mapFields (str "Basic") (qaCard (str " ") (str "A")) [str "Front"; str "Back"]
         = Throw (FieldEmpty key).
Proof.
  split; [|split].
  - apply (mapFields_throws_exactly (str "Basic") (qaCard (str "Q") (str "A")) [str "f1"]).
    + discriminate.
    + discriminate.
    + simpl. lia.
  - apply (mapFields_throws_exactly (str "Basic") (qaCard (str "Q") [])
             [str "Front"; str "Back"]).
    right. reflexivity.
  - apply (mapFields_throws_exactly (str "Basic") (qaCard (str " ") (str "A"))
             [str "Front"; str "Back"]).
    + discriminate.
    + discriminate.
    + reflexivity.
    + exists (str "Front"), (str " "). split; [left; reflexivity | reflexivity].
Defined.

(** C4 as written fails: the card with question [Q], an empty answer and
    the annotation [n] has, on a schema with [Front] and [Back], two names
    and a mapping without empty value, and the callback throws all the
    same; and for the spec's card with an empty answer the error names no
    field. *)
Lemma incomplete_card_throws_first :
  mapFields (str "Basic") (mkCard (str "Q") [] (Some (str "n")) None)
            [str "Front"; str "Back"]
    = Throw (CardIncomplete (str "Q") [])
  /\ ~ length [str "Front"; str "Back"] < 2
  /\ (exists fields,
        buildFields (str "Basic") (mkCard (str "Q") [] (Some (str "n")) None)
                    [str "Front"; str "Back"] = Ok fields /\
        forall key value, In (key, value) fields -> trim value <> [])
  /\ mapFields (str "Basic") (qaCard (str "Q") []) [str "Front"; str "Back"]
     = Throw (CardIncomplete (str "Q") [])
  /\ ~ (forall noteType card names,
          (exists e, mapFields noteType card names = Throw e) <->
          (length names < 2 \/
           exists fields key value,
             buildFields noteType card names = Ok fields /\
             In (key, value) fields /\ trim value = [])).
Proof.
  assert (V : forall key value : jsstring,
             In (key, value)
                [(str "Front", str "Q");
                 (str "Back", answerWithAnnotation
                                (mkCard (str "Q") [] (Some (str "n")) None))] ->
             trim value <> []).
  { intros key value [E|[E|[]]]; injection E as _ <-; vm_compute; discriminate. }
  split; [reflexivity|]. split; [simpl; lia|]. split; [|split; [reflexivity|]].
  - eexists. split; [reflexivity | exact V].
  - intro H.
    destruct (proj1 (H (str "Basic") (mkCard (str "Q") [] (Some (str "n")) None)
                       [str "Front"; str "Back"])) as [L|[fields [k [v [Hf [Hin Hv]]]]]].
    + eexists. reflexivity.
    + simpl in L. lia.
    + injection Hf as <-. exact (V k v Hin Hv).
Qed.

(** ** The first template *)

Lemma answerWithAnnotation_plain (card : AnkiCard) :
  annotation card = None \/ annotation card = Some [] ->
  answerWithAnnotation card = answer card.
Proof.
  unfold answerWithAnnotation. intros [->| ->]; simpl; apply app_nil_r.
Qed.

Lemma answerWithAnnotation_styled (card : AnkiCard) (a : jsstring) :
  annotation card = Some a -> a <> [] ->
  answerWithAnnotation card = answer card ++ annotationOpen ++ a ++ annotationClose.
Proof.
  unfold answerWithAnnotation. intros -> Ha. apply truthy_true in Ha. now rewrite Ha.
Qed.

Lemma not_blank (v : jsstring) :
  trim v <> [] -> negb (truthy v) || streq (trim v) [] = false.
Proof.
  intro H. destruct (negb (truthy v) || streq (trim v) []) eqn:E; [|reflexivity].
  apply trim_nil_iff in E. contradiction.
Qed.

Lemma is_blank (v : jsstring) :
  trim v = [] -> negb (truthy v) || streq (trim v) [] = true.
Proof. intro H. now apply trim_nil_iff. Qed.

(** With [Front] and [Back] in the schema, a checked card goes through
    the first template and the validation of its two values, the
    question first. *)
Lemma mapFields_first_template noteType card names :
  In (str "Front") names -> In (str "Back") names ->
  question card <> [] -> answer card <> [] ->
  mapFields noteType card names
  = (_ <- validateEntries [(str "Front", question card);
                           (str "Back", answerWithAnnotation card)] ;;
     Ok [(str "Front", question card); (str "Back", answerWithAnnotation card)]).
Proof.
  intros HF HB Hq Ha. rewrite (mapFields_checked noteType card names Hq Ha).
  unfold buildFields. apply arr_includes_In in HF, HB. rewrite HF, HB. reflexivity.
Qed.

(** C5, amended. On a schema that has both [Front] and [Back], for every
    card whose answer is not empty and whose question and whose answer
    with its annotation are not empty once trimmed, [mapFields] returns
    the object with [Front] set to the question and [Back] set to the
    answer with its annotation; the latter is the answer alone when there
    is no annotation or an empty one, and otherwise the answer, the
    thematic break and the annotation in its span. For every other card
    [mapFields] throws: the error about the incomplete card, which names
    no field, when the question or the answer is empty; otherwise the
    error that names [Front] when the question is empty once trimmed,
    and the error that names [Back] when only the answer with its
    annotation is. *)
Theorem mapFields_front_back (noteType : jsstring) (card : AnkiCard)
        (names : list jsstring) :
  In (str "Front") names -> In (str "Back") names ->
  (answer card <> [] ->
   trim (question card) <> [] -> trim (answerWithAnnotation card) <> [] ->
   mapFields noteType card names
   = Ok [(str "Front", question card); (str "Back", answerWithAnnotation card)])
  /\ (annotation card = None \/ annotation card = Some [] ->
      answerWithAnnotation card = answer card)
  /\ (forall a, annotation card = Some a -> a <> [] ->
      answerWithAnnotation card = answer card ++ annotationOpen ++ a ++ annotationClose)
  /\ (question card = [] \/ answer card = [] ->
      mapFields noteType card names
      = Throw (CardIncomplete (question card) (answer card)))
  /\ (question card <> [] -> answer card <> [] -> trim (question card) = [] ->
      mapFields noteType card names = Throw (FieldEmpty (str "Front")))
  /\ (answer card <> [] ->
      trim (question card) <> [] -> trim (answerWithAnnotation card) = [] ->
      mapFields noteType card names = Throw (FieldEmpty (str "Back"))).
Proof.
  intros HF HB.
  assert (Q : trim (question card) <> [] -> question card <> []).
  { intros H E. apply H. now rewrite E. }
  split; [|split; [|split; [|split; [|split]]]].
  - intros Ha Tq Ta. rewrite mapFields_first_template by auto.
    cbn [validateEntries]. rewrite (not_blank _ Tq), (not_blank _ Ta). reflexivity.
  - apply answerWithAnnotation_plain.
  - apply answerWithAnnotation_styled.
  - apply mapFields_guard.
  - intros Hq Ha Tq. rewrite mapFields_first_template by auto.
    cbn [validateEntries]. rewrite (is_blank _ Tq). reflexivity.
  - intros Ha Tq Ta. rewrite mapFields_first_template by auto.
    cbn [validateEntries]. rewrite (not_blank _ Tq), (is_blank _ Ta). reflexivity.
Qed.

(** The spec's example: [{question: Q, answer: A}] on [[Front, Back]]. *)
Lemma mapFields_front_back_witness :
  mapFields (str "Basic") (qaCard (str "Q") (str "A")) [str "Front"; str "Back"]
    = Ok [(str "Front", str "Q"); (str "Back", str "A")].
Proof.
  apply (mapFields_front_back (str "Basic") (qaCard (str "Q") (str "A"))
           [str "Front"; str "Back"]).
  - left; reflexivity.
  - right; left; reflexivity.
  - discriminate.
  - vm_compute; discriminate.
  - vm_compute; discriminate.
Defined.

(** C5 as written fails: on a schema with [Front] and [Back], a card
    with an empty answer has no mapping, with or without an annotation,
    and the error is the one about the incomplete card; a card with a
    question of one space has none either, and the error names [Front]. *)
Lemma blank_side_has_no_mapping :
  ~ (forall (card : AnkiCard) (names : list jsstring),
        In (str "Front") names -> In (str "Back") names ->
        mapFields (str "Basic") card names
          = Ok [(str "Front", question card); (str "Back", answerWithAnnotation card)])
  /\ mapFields (str "Basic") (qaCard (str "Q") []) [str "Front"; str "Back"]
       = Throw (CardIncomplete (str "Q") [])
  /\ mapFields (str "Basic") (mkCard (str "Q") [] (Some (str "n")) None)
               [str "Front"; str "Back"]
       = Throw (CardIncomplete (str "Q") [])
  /\ trim (answerWithAnnotation (mkCard (str "Q") [] (Some (str "n")) None)) <> []
  /\ mapFields (str "Basic") (qaCard (str " ") (str "A")) [str "Front"; str "Back"]
       = Throw (FieldEmpty (str "Front")).
Proof.
  split; [|split; [reflexivity|split; [reflexivity|split; [|reflexivity]]]].
  - intro H. specialize (H (qaCard (str "Q") []) [str "Front"; str "Back"]).
    discriminate H; [left; reflexivity | right; left; reflexivity].
  - vm_compute. discriminate.
Qed.

(** ** Splitting *)

Lemma occurs_refl (s : jsstring) : occurs s s.
Proof. exists [], []. now rewrite app_nil_r. Qed.

Lemma occurs_trans (a b c : jsstring) : occurs a b -> occurs b c -> occurs a c.
Proof.
  intros [p1 [q1 ->]] [p2 [q2 ->]]. exists (p2 ++ p1), (q1 ++ q2).
  now rewrite <- !app_assoc.
Qed.

Lemma occurs_app_r (p a b : jsstring) : occurs p b -> occurs p (a ++ b).
Proof. intros [x [y ->]]. exists (a ++ x), y. now rewrite <- app_assoc. Qed.

Lemma occurs_app_l (p a b : jsstring) : occurs p a -> occurs p (a ++ b).
Proof. intros [x [y ->]]. exists x, (y ++ b). now rewrite <- !app_assoc. Qed.

Section SplitFacts.
Variable matcher : nat -> jsstring -> option nat.

(** Every piece is a part of the string that was split. *)
Lemma split_loop_occurs (rest : jsstring) :
  forall skip piece q p,
    skip = 0 \/ piece = [] ->
    In p (split_loop matcher skip piece q rest) ->
    occurs p (rev piece ++ rest).
Proof.
  induction rest as [|c tl IH]; intros skip piece q p Hinv Hin; simpl in Hin.
  - destruct Hin as [<-|[]]. rewrite app_nil_r. apply occurs_refl.
  - destruct skip as [|k].
    + destruct (matcher q (c :: tl)) as [[|k]|].
      * destruct piece as [|d piece].
        -- apply (IH 0 [c] (S q) p); auto.
        -- destruct Hin as [<-|Hin]; [apply occurs_app_l, occurs_refl|].
           apply occurs_app_r. apply (IH 0 [c] (S q) p); auto.
      * destruct Hin as [<-|Hin]; [apply occurs_app_l, occurs_refl|].
        apply occurs_app_r. apply (occurs_app_r p [c] tl).
        apply (IH k [] (S q) p); auto.
      * specialize (IH 0 (c :: piece) (S q) p (or_introl eq_refl) Hin).
        simpl in IH. now rewrite <- app_assoc in IH.
    + destruct Hinv as [Hk| ->]; [discriminate|]. simpl.
      apply (occurs_app_r p [c] tl). apply (IH k [] (S q) p); auto.
Qed.

Lemma split_with_occurs (s p : jsstring) :
  In p (split_with matcher s) -> occurs p s.
Proof.
  unfold split_with. destruct s as [|c s].
  - destruct (matcher 0 []); simpl; [tauto|]. intros [<-|[]]. apply occurs_refl.
  - intro H. apply (split_loop_occurs (c :: s) 0 [] 0 p); auto.
Qed.

(** Over code units at which the separator cannot start, the piece grows. *)
Lemma split_loop_run (l : jsstring) :
  (forall c, In c l -> forall q s, matcher q (c :: s) = None) ->
  forall piece q rest,
    split_loop matcher 0 piece q (l ++ rest)
    = split_loop matcher 0 (rev l ++ piece) (q + length l) rest.
Proof.
  induction l as [|c l IH]; intros H piece q rest; simpl.
  - now rewrite Nat.add_0_r.
  - rewrite (H c (or_introl eq_refl)).
    rewrite IH by (intros d Hd; apply H; now right).
    rewrite <- app_assoc. simpl. f_equal. lia.
Qed.

(** Where the separator matches nowhere the string is the only piece. *)
Lemma split_loop_nomatch (rest : jsstring) :
  (forall q pre c suf, rest = pre ++ c :: suf -> matcher q (c :: suf) = None) ->
  forall piece q, split_loop matcher 0 piece q rest = [rev piece ++ rest].
Proof.
  induction rest as [|c tl IH]; intros H piece q; simpl.
  - now rewrite app_nil_r.
  - rewrite (H q [] c tl eq_refl). rewrite IH.
    + simpl. now rewrite <- app_assoc.
    + intros q' pre d suf E. apply (H q' (c :: pre)). simpl. now f_equal.
Qed.

Lemma split_with_loop (s : jsstring) :
  matcher 0 [] = None -> split_with matcher s = split_loop matcher 0 [] 0 s.
Proof. intro H. unfold split_with. destruct s; [now rewrite H | reflexivity]. Qed.
End SplitFacts.

(** *** Splitting into lines *)

Lemma lf_matcher_other (c : char) (q : nat) (s : jsstring) :
  c <> LF -> sep_matcher [LF] q (c :: s) = None.
Proof.
  intro H. unfold sep_matcher. cbn [startsWith].
  destruct (N.eqb_spec LF c) as [E|_]; [congruence | reflexivity].
Qed.

Lemma lf_matcher_lf (q : nat) (s : jsstring) : sep_matcher [LF] q (LF :: s) = Some 1.
Proof. reflexivity. Qed.

Lemma split_loop_lines (b : list jsstring) :
  Forall (fun l => ~ In LF l) b -> b <> [] ->
  forall piece q,
    split_loop (sep_matcher [LF]) 0 piece q (joinLines b)
    = (rev piece ++ hd [] b) :: tl b.
Proof.
  induction b as [|l b IH]; intros Hb Hne piece q; [congruence|].
  inversion Hb as [|? ? Hl Hb']; subst.
  assert (Hrun : forall c, In c l -> forall q s, sep_matcher [LF] q (c :: s) = None).
  { intros c Hc q' s. apply lf_matcher_other. intros ->. contradiction. }
  destruct b as [|l2 b].
  - cbn [joinLines join hd tl].
    rewrite <- (app_nil_r l) at 1. rewrite split_loop_run by exact Hrun.
    cbn [split_loop]. rewrite rev_app_distr, rev_involutive. reflexivity.
  - change (joinLines (l :: l2 :: b)) with (l ++ LF :: joinLines (l2 :: b)).
    rewrite split_loop_run by exact Hrun.
    cbn [split_loop]. rewrite lf_matcher_lf.
    rewrite IH by (auto; discriminate).
    cbn [rev app hd tl]. rewrite rev_app_distr, rev_involutive. reflexivity.
Qed.

Lemma split_lines (b : list jsstring) :
  Forall (fun l => ~ In LF l) b -> b <> [] -> split_str [LF] (joinLines b) = b.
Proof.
  intros Hb Hne. unfold split_str. rewrite split_with_loop by reflexivity.
  rewrite split_loop_lines by assumption. destruct b; [congruence | reflexivity].
Qed.

(** *** Regular expressions: how the lists of successes unfold *)

Lemma runs_stop cs k c s : cs c = false -> runs cs k (c :: s) = [(k, c :: s)].
Proof. intro H. simpl. now rewrite H. Qed.

Lemma runs_step cs k c s :
  cs c = true -> runs cs k (c :: s) = (k, c :: s) :: runs cs (S k) s.
Proof. intro H. simpl. now rewrite H. Qed.

Lemma isSpace_isLF c : isSpace c = false -> Patterns.isLF c = false.
Proof.
  unfold Patterns.isLF. intro H. destruct (N.eqb_spec c LF) as [->|_]; [discriminate H | reflexivity].
Qed.

(** *** Splitting into blocks *)

Lemma blank_matcher_other (c : char) (q : nat) (s : jsstring) :
  c <> LF -> split_matcher false Patterns.blankLines q (c :: s) = None.
Proof.
  intro H. unfold split_matcher, match_at. cbn [exec Patterns.blankLines seqs rest chr_eq].
  destruct (N.eqb_spec LF c) as [E|_]; [congruence | reflexivity].
Qed.

Lemma blank_matcher_line (c : char) (q : nat) (s : jsstring) :
  isSpace c = false -> split_matcher false Patterns.blankLines q (LF :: c :: s) = None.
Proof.
  intro H. unfold split_matcher, match_at.
  cbn [exec Patterns.blankLines seqs rest chr_eq idx caps flat_map app].
  change (LF =? LF)%N with true. cbn [flat_map app exec rest idx caps].
  rewrite (runs_stop isSpace 0 c s H).
  cbn [skipn ordered rev app map fst snd flat_map exec rest].
  rewrite (runs_stop Patterns.isLF 0 c s (isSpace_isLF c H)). reflexivity.
Qed.

Lemma blank_matcher_blank (c : char) (q : nat) (s : jsstring) :
  isSpace c = false ->
  split_matcher false Patterns.blankLines q (LF :: LF :: c :: s) = Some 2.
Proof.
  intro H. unfold split_matcher, match_at.
  cbn [exec Patterns.blankLines seqs rest chr_eq idx caps flat_map app].
  change (LF =? LF)%N with true. cbn [flat_map app exec rest idx caps].
  rewrite (runs_step isSpace 0 LF (c :: s) eq_refl).
  rewrite (runs_stop isSpace 1 c s H).
  cbn [skipn ordered rev app map fst snd flat_map exec rest idx caps].
  rewrite (runs_stop Patterns.isLF 0 c s (isSpace_isLF c H)).
  rewrite (runs_step Patterns.isLF 0 LF (c :: s) eq_refl).
  rewrite (runs_stop Patterns.isLF 1 c s (isSpace_isLF c H)).
  cbn [skipn ordered rev app map fst snd flat_map exec rest idx caps hd_error].
  f_equal. lia.
Qed.

(** ** Well-formed blocks *)

Lemma cleanLine_kept (l : jsstring) : cleanLine l -> headKept l /\ headKept (rev l).
Proof. intros [Hne [Ht _]]. now apply trimmed_kept. Qed.

Lemma headKept_not_LF (s : jsstring) : headKept s -> exists c t, s = c :: t /\ isSpace c = false.
Proof. destruct s as [|c t]; simpl; [tauto|]. intro H. now exists c, t. Qed.

Lemma headKept_joinLines (b : list jsstring) :
  b <> [] -> Forall cleanLine b -> headKept (joinLines b).
Proof.
  destruct b as [|l b]; [congruence|]. intros _ H.
  inversion H as [|? ? Hl _]; subst. apply cleanLine_kept in Hl as [Hl _].
  destruct b; [exact Hl | now apply headKept_app].
Qed.

Lemma headKept_joinBlocks (bs : list (list jsstring)) :
  bs <> [] -> wellFormedBlocks bs -> headKept (joinBlocks bs).
Proof.
  destruct bs as [|b bs]; [congruence|]. intros _ H.
  inversion H as [|? ? [Hne Hb] _]; subst.
  pose proof (headKept_joinLines b Hne Hb) as K.
  unfold joinBlocks. simpl. destruct (map joinLines bs); [exact K | now apply headKept_app].
Qed.

Lemma blank_run (l : jsstring) :
  ~ In LF l ->
  forall c, In c l -> forall q s, split_matcher false Patterns.blankLines q (c :: s) = None.
Proof. intros Hl c Hc q s. apply blank_matcher_other. intros ->. contradiction. Qed.

Lemma blank_step_line (piece : jsstring) (q : nat) (rest : jsstring) :
  headKept rest ->
  split_loop (split_matcher false Patterns.blankLines) 0 piece q (LF :: rest)
  = split_loop (split_matcher false Patterns.blankLines) 0 (LF :: piece) (S q) rest.
Proof.
  intro K. destruct (headKept_not_LF _ K) as [c [t [-> Hc]]].
  cbn [split_loop]. now rewrite (blank_matcher_line c _ _ Hc).
Qed.

Lemma blank_step_blank (piece : jsstring) (q : nat) (rest : jsstring) :
  headKept rest ->
  split_loop (split_matcher false Patterns.blankLines) 0 piece q (LF :: LF :: rest)
  = rev piece :: split_loop (split_matcher false Patterns.blankLines) 0 [] (S (S q)) rest.
Proof.
  intro K. destruct (headKept_not_LF _ K) as [c [t [-> Hc]]].
  cbn [split_loop]. now rewrite (blank_matcher_blank c _ _ Hc).
Qed.

(** Inside a block no separator is found: every line feed is followed by
    the first code unit of a line, which is not white space. *)
Lemma split_loop_block (b : list jsstring) :
  Forall cleanLine b -> b <> [] ->
  forall piece q rest,
    split_loop (split_matcher false Patterns.blankLines) 0 piece q (joinLines b ++ rest)
    = split_loop (split_matcher false Patterns.blankLines) 0
        (rev (joinLines b) ++ piece) (q + length (joinLines b)) rest.
Proof.
  induction b as [|l b IH]; intros Hb Hne piece q rest; [congruence|].
  inversion Hb as [|? ? Hl Hb']; subst.
  destruct b as [|l2 b].
  - cbn [joinLines join]. apply split_loop_run, blank_run, Hl.
  - change (joinLines (l :: l2 :: b)) with (l ++ LF :: joinLines (l2 :: b)).
    assert (Hne2 : l2 :: b <> []) by discriminate.
    pose proof (headKept_joinLines (l2 :: b) Hne2 Hb') as K.
    rewrite <- app_assoc. rewrite split_loop_run by (apply blank_run, Hl).
    cbn [app]. rewrite blank_step_line by (now apply headKept_app).
    rewrite (IH Hb' Hne2). f_equal.
    + rewrite rev_app_distr. cbn [rev]. rewrite <- !app_assoc. reflexivity.
    + rewrite length_app. cbn [length]. lia.
Qed.

Lemma split_loop_blocks (bs : list (list jsstring)) :
  wellFormedBlocks bs -> bs <> [] ->
  forall piece q,
    split_loop (split_matcher false Patterns.blankLines) 0 piece q (joinBlocks bs)
    = (rev piece ++ joinLines (hd [] bs)) :: map joinLines (tl bs).
Proof.
  induction bs as [|b bs IH]; intros Hbs Hne piece q; [congruence|].
  inversion Hbs as [|? ? [Hb1 Hb] Hbs']; subst.
  destruct bs as [|b2 bs].
  - unfold joinBlocks. cbn [map join hd tl].
    rewrite <- (app_nil_r (joinLines b)) at 1.
    rewrite split_loop_block by assumption. cbn [split_loop].
    rewrite rev_app_distr, rev_involutive. reflexivity.
  - change (joinBlocks (b :: b2 :: bs))
      with (joinLines b ++ LF :: LF :: joinBlocks (b2 :: bs)).
    assert (Hne2 : b2 :: bs <> []) by discriminate.
    pose proof (headKept_joinBlocks (b2 :: bs) Hne2 Hbs') as K.
    rewrite split_loop_block by assumption.
    rewrite blank_step_blank by exact K. rewrite (IH Hbs' Hne2).
    cbn [hd tl map rev app]. rewrite rev_app_distr, rev_involutive. reflexivity.
Qed.

Lemma cardBlocks_wellformed (bs : list (list jsstring)) :
  wellFormedBlocks bs -> cardBlocks (joinBlocks bs) = map joinLines bs.
Proof.
  intro Hbs. unfold cardBlocks, split_re. rewrite split_with_loop by reflexivity.
  destruct bs as [|b bs]; [reflexivity|].
  rewrite split_loop_blocks by (auto; discriminate).
  cbn [rev app hd tl].
  change (joinLines b :: map joinLines bs) with (map joinLines (b :: bs)).
  apply forallb_filter_id. apply forallb_forall. intros s Hs.
  apply in_map_iff in Hs as [b' [<- Hb']].
  unfold wellFormedBlocks in Hbs. rewrite Forall_forall in Hbs.
  destruct (Hbs b' Hb') as [Hne Hcl].
  apply truthy_true, trim_nonempty, headKept_joinLines; assumption.
Qed.

Lemma blockLines_clean (b : list jsstring) :
  b <> [] -> Forall cleanLine b -> blockLines (joinLines b) = b.
Proof.
  intros Hne Hb. unfold blockLines. rewrite split_lines.
  - assert (E : map trim b = b).
    { rewrite <- (map_id b) at 2. apply map_ext_in. intros l Hl.
      rewrite Forall_forall in Hb. now destruct (Hb l Hl) as [_ [Ht _]]. }
    rewrite E. apply forallb_filter_id. apply forallb_forall. intros l Hl.
    rewrite Forall_forall in Hb. destruct (Hb l Hl) as [Hl1 _]. now apply truthy_true.
  - eapply Forall_impl; [|exact Hb]. now intros l [_ [_ H]].
  - exact Hne.
Qed.

Lemma pushBlock_clean (b : list jsstring) (cards : list AnkiCard) :
  b <> [] -> Forall cleanLine b -> pushBlock cards (joinLines b) = pushLines cards b.
Proof.
  intros Hne Hb. unfold pushBlock, pushLines, blockCard.
  now rewrite blockLines_clean.
Qed.

Lemma parseMultiLine_wellformed (bs : list (list jsstring)) :
  wellFormedBlocks bs -> parseMultiLine (joinBlocks bs) = fold_left pushLines bs [].
Proof.
  intro Hbs. unfold parseMultiLine. rewrite cardBlocks_wellformed by exact Hbs.
  generalize (@nil AnkiCard) as cards.
  induction bs as [|b bs IH]; intro cards; [reflexivity|].
  inversion Hbs as [|? ? [Hne Hb] Hbs']; subst. cbn [map fold_left].
  rewrite pushBlock_clean by assumption. now apply IH.
Qed.

(** Text made of well-formed blocks, once detected as multi-line, is
    parsed block by block. *)
Lemma parse_wellformed (bs : list (list jsstring)) :
  wellFormedBlocks bs -> isMultiLineFormat (joinBlocks bs) = true ->
  parseAnkiCards (joinBlocks bs) = Ok (fold_left pushLines bs []).
Proof.
  intros Hbs Hm. unfold parseAnkiCards. rewrite Hm.
  now rewrite parseMultiLine_wellformed.
Qed.

(** ** The matcher: what a success tells, and what gives one *)

Lemma in_skipn_runs (cs : char -> bool) (s : jsstring) :
  forall n k0 k r,
    In (k, r) (skipn n (runs cs k0 s)) <->
    exists a, s = a ++ r /\ forallb cs a = true /\ k = k0 + length a /\ n <= length a.
Proof.
  induction s as [|c tl IH]; intros n k0 k r.
  - cbn [runs]. destruct n as [|n]; cbn [skipn In].
    + split.
      * intros [H|[]]. injection H as <- <-. exists []. simpl. repeat split; lia.
      * intros [a [E [_ [-> _]]]]. symmetry in E. apply app_eq_nil in E as [-> ->].
        left. simpl. f_equal. lia.
    + rewrite skipn_nil. split; [intros []|].
      intros [a [E [_ [_ L]]]]. symmetry in E. apply app_eq_nil in E as [-> _].
      simpl in L. lia.
  - cbn [runs]. destruct n as [|n]; cbn [skipn In].
    + split.
      * intros [H|H].
        -- injection H as <- <-. exists []. simpl. repeat split; lia.
        -- destruct (cs c) eqn:E; [|destruct H].
           apply (IH 0) in H as [a [-> [Fa [-> _]]]].
           exists (c :: a). simpl. rewrite E, Fa. repeat split; lia.
      * intros [[|d a] [E [Fa [-> _]]]].
        -- left. simpl in *. subst r. f_equal. lia.
        -- right. simpl in E, Fa. injection E as <- ->.
           apply andb_true_iff in Fa as [Fc Fa]. rewrite Fc.
           apply (IH 0). exists a. simpl. repeat split; auto; lia.
    + split.
      * intro H. destruct (cs c) eqn:E; [|rewrite skipn_nil in H; destruct H].
        apply IH in H as [a [-> [Fa [-> L]]]].
        exists (c :: a). simpl. rewrite E, Fa. repeat split; lia.
      * intros [[|d a] [E [Fa [-> L]]]]; [simpl in L; lia|].
        simpl in E, Fa, L. injection E as <- ->.
        apply andb_true_iff in Fa as [Fc Fa]. rewrite Fc.
        apply IH. exists a. simpl. repeat split; auto; lia.
Qed.

Lemma in_ordered (g : bool) (l : list (nat * jsstring)) x : In x (ordered g l) <-> In x l.
Proof. destruct g; simpl; [symmetry; apply in_rev | tauto]. Qed.

Lemma exec_rep_iff ic g n cs st st' :
  In st' (exec ic (Rep g n cs) st) <->
  exists a, rest st = a ++ rest st' /\ forallb cs a = true /\ n <= length a /\
            idx st' = idx st + length a /\ caps st' = caps st.
Proof.
  cbn [exec]. rewrite in_map_iff. split.
  - intros [[k r] [<- H]]. apply in_ordered, in_skipn_runs in H as [a [E [Fa [-> L]]]].
    exists a. simpl. repeat split; auto.
  - intros [a [E [Fa [L [Ei Ec]]]]]. exists (length a, rest st'). split.
    + destruct st' as [i r c]. simpl in *. now subst.
    + apply in_ordered, in_skipn_runs. exists a. simpl. repeat split; auto.
Qed.

Lemma exec_seq_iff ic r1 r2 st st' :
  In st' (exec ic (Seq r1 r2) st) <->
  exists m, In m (exec ic r1 st) /\ In st' (exec ic r2 m).
Proof. cbn [exec]. apply in_flat_map. Qed.

Lemma exec_chr_iff ic c st st' :
  In st' (exec ic (Chr c) st) <->
  exists d tl, rest st = d :: tl /\ chr_eq ic c d = true /\
               st' = MState (S (idx st)) tl (caps st).
Proof.
  cbn [exec]. destruct (rest st) as [|d tl].
  - split; [intros [] | intros [d [tl [E _]]]; discriminate].
  - destruct (chr_eq ic c d) eqn:E.
    + split.
      * intros [<-|[]]. now exists d, tl.
      * intros [d' [tl' [E' [_ ->]]]]. injection E' as <- <-. now left.
    + split; [intros [] | intros [d' [tl' [E' [H _]]]]; injection E' as <- <-; congruence].
Qed.

Lemma exec_opt_skip ic r st : In st (exec ic (Opt r) st).
Proof. cbn [exec]. apply in_or_app. right. now left. Qed.

Lemma exec_rep_zero ic g cs st : In st (exec ic (Rep g 0 cs) st).
Proof. apply exec_rep_iff. exists []. simpl. repeat split; lia. Qed.

(** The search reports a match exactly when some position has one. *)
Lemma search_some ic r (s : jsstring) :
  forall q st', search ic r q s = Some st' ->
  exists pre suf, s = pre ++ suf /\ In st' (exec ic r (MState (q + length pre) suf [])).
Proof.
  induction s as [|c tl IH]; intros q st' H; cbn [search] in H; unfold match_at in H.
  - exists [], []. split; [reflexivity|]. simpl. rewrite Nat.add_0_r.
    destruct (exec ic r (MState q [] [])) as [|x l]; simpl in H; [discriminate|].
    injection H as ->. now left.
  - destruct (exec ic r (MState q (c :: tl) [])) as [|x l] eqn:E; simpl in H.
    + apply IH in H as [pre [suf [-> H]]]. exists (c :: pre), suf.
      split; [reflexivity|]. simpl. now rewrite Nat.add_succ_r.
    + injection H as ->. exists [], (c :: tl). split; [reflexivity|].
      simpl. rewrite Nat.add_0_r, E. now left.
Qed.

Lemma search_found ic r (pre : jsstring) :
  forall q suf st',
    In st' (exec ic r (MState (q + length pre) suf [])) ->
    exists st'', search ic r q (pre ++ suf) = Some st''.
Proof.
  induction pre as [|c pre IH]; intros q suf st' H.
  - simpl in H. rewrite Nat.add_0_r in H. simpl.
    destruct suf as [|d suf]; cbn [search]; unfold match_at;
      destruct (exec ic r _) as [|x l]; simpl; try (destruct H; fail); eauto.
  - cbn [app search]. unfold match_at.
    destruct (exec ic r (MState q (c :: pre ++ suf) [])) as [|x l]; simpl; [|eauto].
    apply (IH (S q) suf st'). simpl in H. now rewrite Nat.add_succ_r in H.
Qed.

Lemma test_true_iff ic r (s : jsstring) :
  test ic r s = true <->
  exists pre suf st', s = pre ++ suf /\ In st' (exec ic r (MState (length pre) suf [])).
Proof.
  unfold test. split.
  - destruct (search ic r 0 s) as [st'|] eqn:E; [|discriminate]. intros _.
    apply search_some in E as [pre [suf [-> H]]]. now exists pre, suf, st'.
  - intros [pre [suf [st' [-> H]]]].
    destruct (search_found ic r pre 0 suf st' H) as [st'' ->]. reflexivity.
Qed.

(** *** Case folding of the literals *)

Lemma canonicalize_fixed (c d : char) :
  (c < 65 \/ 90 < c)%N -> canonicalize d = c -> d = c.
Proof.
  unfold canonicalize. intros Hc.
  destruct (N.leb_spec 97 d); destruct (N.leb_spec d 122); simpl; lia.
Qed.

Lemma chr_eq_colon (d : char) : chr_eq true 58%N d = true <-> d = 58%N.
Proof.
  unfold chr_eq. change (canonicalize 58%N) with 58%N. rewrite N.eqb_eq. split.
  - intro H. symmetry in H. apply canonicalize_fixed in H; [exact H | lia].
  - now intros ->.
Qed.

Lemma chr_eq_LF (d : char) : chr_eq true LF d = true <-> d = LF.
Proof.
  unfold chr_eq. change (canonicalize LF) with LF. rewrite N.eqb_eq. split.
  - intro H. symmetry in H. apply canonicalize_fixed in H; [exact H | unfold LF; lia].
  - now intros ->.
Qed.

Lemma chr_eq_letter (c d : char) :
  canonicalize c = c -> (chr_eq true c d = true <-> canonicalize d = c).
Proof. intro H. unfold chr_eq. rewrite H, N.eqb_eq. split; congruence. Qed.

(** *** The detection pattern *)

(** A success of the two-letter marker [X:] at the head of the rest. *)
Lemma exec_marker_iff (x : char) st st' :
  canonicalize x = x ->
  (In st' (exec true (Seq (Chr x) (Chr 58%N)) st) <->
   exists d tl, rest st = d :: 58%N :: tl /\ canonicalize d = x /\
                st' = MState (S (S (idx st))) tl (caps st)).
Proof.
  intro Hx. rewrite exec_seq_iff. split.
  - intros [m [H1 H2]].
    apply exec_chr_iff in H1 as [d [tl [E1 [C1 ->]]]].
    apply exec_chr_iff in H2 as [d2 [tl2 [E2 [C2 ->]]]]. simpl in E2. subst tl.
    apply chr_eq_colon in C2. subst d2. apply (chr_eq_letter x d Hx) in C1.
    now exists d, tl2.
  - intros [d [tl [E [C ->]]]]. exists (MState (S (idx st)) (58%N :: tl) (caps st)). split.
    + apply exec_chr_iff. exists d, (58%N :: tl). repeat split; auto.
      now apply (chr_eq_letter x d Hx).
    + apply exec_chr_iff. exists 58%N, tl. simpl. repeat split; auto.
Qed.

Lemma multiLine_unfold :
  Patterns.multiLine =
  Seq (Seq (Chr 81%N) (Chr 58%N))
      (Seq (Rep true 0 dot)
           (Seq (Chr LF)
                (Seq (Seq (Chr 65%N) (Chr 58%N))
                     (Seq (Rep true 0 dot)
                          (Seq (Opt (Grp 1 (seqs [Chr LF; lit (str "annotation:"); Rep true 0 dot])))
                               (Opt (Grp 2 (seqs [Chr LF; lit (str "tags:"); Rep true 0 dot])))))))).
Proof. reflexivity. Qed.

Lemma multiLine_success st :
  (exists st', In st' (exec true Patterns.multiLine st)) <->
  exists q mid a post,
    rest st = q :: 58%N :: mid ++ LF :: a :: 58%N :: post /\
    canonicalize q = 81%N /\ canonicalize a = 65%N /\ singleLine mid.
Proof.
  rewrite multiLine_unfold. split.
  - intros [st' H].
    apply exec_seq_iff in H as [m1 [H1 H]].
    apply exec_marker_iff in H1 as [q [t1 [E1 [Cq ->]]]]; [|reflexivity].
    apply exec_seq_iff in H as [m2 [H2 H]].
    apply exec_rep_iff in H2 as [mid [E2 [Fmid _]]]. simpl in E2.
    apply exec_seq_iff in H as [m3 [H3 H]].
    apply exec_chr_iff in H3 as [d [t3 [E3 [C3 ->]]]]. apply chr_eq_LF in C3. subst d.
    apply exec_seq_iff in H as [m4 [H4 _]].
    apply exec_marker_iff in H4 as [a [t4 [E4 [Ca _]]]]; [|reflexivity]. simpl in E4.
    exists q, mid, a, t4. rewrite E1, E2, E3, E4. auto.
  - intros [q [mid [a [post [E [Cq [Ca Fmid]]]]]]].
    set (m1 := MState (S (S (idx st))) (mid ++ LF :: a :: 58%N :: post) (caps st)).
    set (m2 := MState (idx m1 + length mid) (LF :: a :: 58%N :: post) (caps st)).
    set (m3 := MState (S (idx m2)) (a :: 58%N :: post) (caps st)).
    set (m4 := MState (S (S (idx m3))) post (caps st)).
    exists m4.
    apply exec_seq_iff. exists m1. split.
    { apply exec_marker_iff; [reflexivity|]. now exists q, (mid ++ LF :: a :: 58%N :: post). }
    apply exec_seq_iff. exists m2. split.
    { apply exec_rep_iff. exists mid. simpl. repeat split; auto; lia. }
    apply exec_seq_iff. exists m3. split.
    { apply exec_chr_iff. exists LF, (a :: 58%N :: post). simpl. repeat split; auto. }
    apply exec_seq_iff. exists m4. split.
    { apply exec_marker_iff; [reflexivity|]. now exists a, post. }
    apply exec_seq_iff. exists m4. split; [apply exec_rep_zero|].
    apply exec_seq_iff. exists m4. split; apply exec_opt_skip.
Qed.

(** The multi-line branch is taken exactly on the texts that have a marker
    [Q:], then no line terminator up to a line feed that a marker [A:]
    follows at once. *)
Lemma isMultiLineFormat_iff (text : jsstring) :
  isMultiLineFormat text = true <-> questionThenAnswer text.
Proof.
  unfold isMultiLineFormat, questionThenAnswer. rewrite test_true_iff. split.
  - intros [pre [suf [st' [-> H]]]].
    destruct (proj1 (multiLine_success _) (ex_intro _ st' H))
      as [q [mid [a [post [E H']]]]]. simpl in E. subst suf.
    now exists pre, q, mid, a, post.
  - intros [pre [q [mid [a [post [-> H]]]]]].
    destruct (proj2 (multiLine_success (MState (length pre)
                (q :: 58%N :: mid ++ LF :: a :: 58%N :: post) [])))
      as [st' H'].
    { now exists q, mid, a, post. }
    now exists pre, (q :: 58%N :: mid ++ LF :: a :: 58%N :: post), st'.
Qed.

(** ** The block loop *)

Lemma scanLine_Q (card : AnkiCard) (t : jsstring) :
  scanLine card (str "Q:" ++ t) = setQuestion (trim t) card.
Proof. reflexivity. Qed.

Lemma scanLine_A (card : AnkiCard) (t : jsstring) :
  scanLine card (str "A:" ++ t) = setAnswer (trim t) card.
Proof. reflexivity. Qed.

Lemma scanLine_question (card : AnkiCard) (line : jsstring) :
  startsWith (str "Q:") line = false -> question (scanLine card line) = question card.
Proof.
  intro H. unfold scanLine. rewrite H.
  repeat match goal with |- context [if ?b then _ else _] => destruct b end; reflexivity.
Qed.

Lemma scanLine_answer (card : AnkiCard) (line : jsstring) :
  startsWith (str "A:") line = false -> answer (scanLine card line) = answer card.
Proof.
  intro H. unfold scanLine. rewrite H.
  repeat match goal with |- context [if ?b then _ else _] => destruct b end; reflexivity.
Qed.

Lemma fold_scan_question (post : list jsstring) :
  Forall (fun l => startsWith (str "Q:") l = false) post ->
  forall card, question (fold_left scanLine post card) = question card.
Proof.
  induction 1 as [|l post Hl _ IH]; intro card; [reflexivity|].
  cbn [fold_left]. rewrite IH. now apply scanLine_question.
Qed.

Lemma fold_scan_answer (post : list jsstring) :
  Forall (fun l => startsWith (str "A:") l = false) post ->
  forall card, answer (fold_left scanLine post card) = answer card.
Proof.
  induction 1 as [|l post Hl _ IH]; intro card; [reflexivity|].
  cbn [fold_left]. rewrite IH. now apply scanLine_answer.
Qed.

(** The last line with a marker is the one that counts. *)
Lemma last_question_wins (pre post : list jsstring) (x : jsstring) (card : AnkiCard) :
  Forall (fun l => startsWith (str "Q:") l = false) post ->
  question (fold_left scanLine (pre ++ (str "Q:" ++ x) :: post) card) = trim x.
Proof.
  intro H. rewrite fold_left_app. cbn [fold_left].
  rewrite (fold_scan_question post H). now rewrite scanLine_Q.
Qed.

Lemma last_answer_wins (pre post : list jsstring) (y : jsstring) (card : AnkiCard) :
  Forall (fun l => startsWith (str "A:") l = false) post ->
  answer (fold_left scanLine (pre ++ (str "A:" ++ y) :: post) card) = trim y.
Proof.
  intro H. rewrite fold_left_app. cbn [fold_left].
  rewrite (fold_scan_answer post H). now rewrite scanLine_A.
Qed.

Lemma scanLine_annotation (card : AnkiCard) (t : jsstring) :
  scanLine card (str "annotation:" ++ t) = setAnnotation (Some (trim t)) card.
Proof. reflexivity. Qed.

Lemma scanLine_tags (card : AnkiCard) (t : jsstring) :
  scanLine card (str "tags:" ++ t) = setTags (parseTags (trim t)) card.
Proof. reflexivity. Qed.

Lemma scanLine_keeps_annotation (card : AnkiCard) (line : jsstring) :
  startsWith (str "annotation:") line = false ->
  annotation (scanLine card line) = annotation card.
Proof.
  intro H. unfold scanLine. rewrite H.
  repeat match goal with |- context [if ?b then _ else _] => destruct b end; reflexivity.
Qed.

Lemma scanLine_keeps_tags (card : AnkiCard) (line : jsstring) :
  startsWith (str "tags:") line = false -> tags (scanLine card line) = tags card.
Proof.
  intro H. unfold scanLine. rewrite H.
  repeat match goal with |- context [if ?b then _ else _] => destruct b end; reflexivity.
Qed.

Lemma fold_scan_annotation (post : list jsstring) :
  Forall (fun l => startsWith (str "annotation:") l = false) post ->
  forall card, annotation (fold_left scanLine post card) = annotation card.
Proof.
  induction 1 as [|l post Hl _ IH]; intro card; [reflexivity|].
  cbn [fold_left]. rewrite IH. now apply scanLine_keeps_annotation.
Qed.

Lemma fold_scan_tags (post : list jsstring) :
  Forall (fun l => startsWith (str "tags:") l = false) post ->
  forall card, tags (fold_left scanLine post card) = tags card.
Proof.
  induction 1 as [|l post Hl _ IH]; intro card; [reflexivity|].
  cbn [fold_left]. rewrite IH. now apply scanLine_keeps_tags.
Qed.

Lemma last_annotation_wins (pre post : list jsstring) (n : jsstring) (card : AnkiCard) :
  Forall (fun l => startsWith (str "annotation:") l = false) post ->
  annotation (fold_left scanLine (pre ++ (str "annotation:" ++ n) :: post) card)
  = Some (trim n).
Proof.
  intro H. rewrite fold_left_app. cbn [fold_left].
  rewrite (fold_scan_annotation post H). now rewrite scanLine_annotation.
Qed.

Lemma last_tags_win (pre post : list jsstring) (t : jsstring) (card : AnkiCard) :
  Forall (fun l => startsWith (str "tags:") l = false) post ->
  tags (fold_left scanLine (pre ++ (str "tags:" ++ t) :: post) card)
  = Some (parseTags (trim t)).
Proof.
  intro H. rewrite fold_left_app. cbn [fold_left].
  rewrite (fold_scan_tags post H). now rewrite scanLine_tags.
Qed.

Lemma pushBlock_cases (cards : list AnkiCard) (block : jsstring) :
  (pushBlock cards block = cards ++ [blockCard block] /\ complete (blockCard block))
  \/ pushBlock cards block = cards.
Proof.
  unfold pushBlock, complete.
  destruct (truthy (question (blockCard block))) eqn:Eq;
    destruct (truthy (answer (blockCard block))) eqn:Ea; simpl; auto.
  left. apply truthy_true in Eq, Ea. auto.
Qed.

Lemma fold_pushBlock (blocks : list jsstring) :
  forall cards,
    Forall complete cards ->
    Forall complete (fold_left pushBlock blocks cards) /\
    length (fold_left pushBlock blocks cards) <= length cards + length blocks.
Proof.
  induction blocks as [|b blocks IH]; intros cards Hc; cbn [fold_left].
  - split; [exact Hc | simpl; lia].
  - destruct (pushBlock_cases cards b) as [[-> Hb]| ->].
    + destruct (IH (cards ++ [blockCard b])) as [H1 H2].
      * apply Forall_app. split; [exact Hc | now constructor].
      * split; [exact H1|]. rewrite length_app in H2. simpl in *. lia.
    + destruct (IH cards Hc) as [H1 H2]. split; [exact H1 | simpl; lia].
Qed.

Lemma parseMultiLine_complete (text : jsstring) :
  Forall complete (parseMultiLine text) /\
  length (parseMultiLine text) <= length (cardBlocks text).
Proof.
  unfold parseMultiLine.
  destruct (fold_pushBlock (cardBlocks text) [] (Forall_nil _)) as [H1 H2]. auto.
Qed.

(** ** Lines that are clean *)

Lemma singleLine_no_LF (s : jsstring) : singleLine s -> ~ In LF s.
Proof.
  unfold singleLine. rewrite forallb_forall. intros H Hin.
  specialize (H LF Hin). discriminate H.
Qed.

Lemma singleLine_cons (c : char) (s : jsstring) :
  dot c = true -> singleLine s -> singleLine (c :: s).
Proof. unfold singleLine. simpl. now intros -> ->. Qed.

(** A literal head, then a trimmed non-empty single-line tail. *)
Lemma cleanLine_field (marker x : jsstring) :
  headKept marker -> ~ In LF marker ->
  x <> [] -> trimmed x -> singleLine x -> cleanLine (marker ++ x).
Proof.
  intros Hm Hlf Hne Ht Hs. destruct (trimmed_kept x Hne Ht) as [_ Hr].
  split; [|split].
  - destruct marker; [destruct Hm | discriminate].
  - apply trim_kept; [now apply headKept_app|].
    rewrite rev_app_distr. now apply headKept_app.
  - intro H. apply in_app_or in H as [H|H]; [contradiction|].
    exact (singleLine_no_LF x Hs H).
Qed.

Lemma cleanLine_Q (x : jsstring) :
  x <> [] -> trimmed x -> singleLine x -> cleanLine (str "Q: " ++ x).
Proof.
  apply cleanLine_field; [reflexivity|]. simpl. unfold LF. intuition discriminate.
Qed.

Lemma cleanLine_A (y : jsstring) :
  y <> [] -> trimmed y -> singleLine y -> cleanLine (str "A: " ++ y).
Proof.
  apply cleanLine_field; [reflexivity|]. simpl. unfold LF. intuition discriminate.
Qed.

(** A block that opens with a question line and an answer line is
    detected, whatever follows. *)
Lemma detect_question_answer (x rest : jsstring) :
  singleLine x -> isMultiLineFormat (str "Q: " ++ x ++ LF :: str "A:" ++ rest) = true.
Proof.
  intro Hx. apply isMultiLineFormat_iff.
  exists [], 81%N, (32%N :: x), 65%N, rest. repeat split.
  now apply singleLine_cons.
Qed.

Lemma scan_qaBlock (x y : jsstring) (more : list jsstring) :
  trimmed x -> trimmed y ->
  fold_left scanLine (qaBlock x y ++ more) emptyCard
  = fold_left scanLine more (qaCard x y).
Proof.
  intros Hx Hy. unfold qaBlock. cbn [app fold_left].
  change (str "Q: " ++ x) with (str "Q:" ++ 32%N :: x).
  change (str "A: " ++ y) with (str "A:" ++ 32%N :: y).
  rewrite scanLine_Q, scanLine_A.
  rewrite !trim_space_cons by reflexivity. rewrite Hx, Hy. reflexivity.
Qed.

Lemma pushLines_qaBlock (cards : list AnkiCard) (x y : jsstring) :
  x <> [] -> y <> [] -> trimmed x -> trimmed y ->
  pushLines cards (qaBlock x y) = cards ++ [qaCard x y].
Proof.
  intros Hx Hy Tx Ty. unfold pushLines.
  rewrite <- (app_nil_r (qaBlock x y)). rewrite scan_qaBlock by assumption.
  cbn [fold_left qaCard question answer].
  apply truthy_true in Hx, Hy. now rewrite Hx, Hy.
Qed.

Lemma wellFormed_qaBlock (x y : jsstring) (more : list jsstring) :
  x <> [] -> y <> [] -> trimmed x -> trimmed y -> singleLine x -> singleLine y ->
  Forall cleanLine more ->
  qaBlock x y ++ more <> [] /\ Forall cleanLine (qaBlock x y ++ more).
Proof.
  intros. split; [discriminate|]. unfold qaBlock. cbn [app].
  constructor; [now apply cleanLine_Q|]. constructor; [now apply cleanLine_A | assumption].
Qed.

(** One block, then two. *)
Lemma parse_one_block (x y : jsstring) :
  x <> [] -> y <> [] -> trimmed x -> trimmed y -> singleLine x -> singleLine y ->
  parseAnkiCards (str "Q: " ++ x ++ [LF] ++ str "A: " ++ y) = Ok [qaCard x y].
Proof.
  intros Hx Hy Tx Ty Sx Sy.
  change (str "Q: " ++ x ++ [LF] ++ str "A: " ++ y) with (joinBlocks [qaBlock x y]).
  rewrite parse_wellformed.
  - cbn [fold_left]. now rewrite pushLines_qaBlock.
  - constructor; [|constructor].
    rewrite <- (app_nil_r (qaBlock x y)). now apply wellFormed_qaBlock.
  - exact (detect_question_answer x (32%N :: y) Sx).
Qed.

Lemma parse_two_blocks (x1 y1 x2 y2 : jsstring) :
  x1 <> [] -> y1 <> [] -> trimmed x1 -> trimmed y1 -> singleLine x1 -> singleLine y1 ->
  x2 <> [] -> y2 <> [] -> trimmed x2 -> trimmed y2 -> singleLine x2 -> singleLine y2 ->
  parseAnkiCards ((str "Q: " ++ x1 ++ [LF] ++ str "A: " ++ y1) ++ [LF; LF]
                  ++ (str "Q: " ++ x2 ++ [LF] ++ str "A: " ++ y2))
  = Ok [qaCard x1 y1; qaCard x2 y2].
Proof.
  intros Hx1 Hy1 Tx1 Ty1 Sx1 Sy1 Hx2 Hy2 Tx2 Ty2 Sx2 Sy2.
  change ((str "Q: " ++ x1 ++ [LF] ++ str "A: " ++ y1) ++ [LF; LF]
          ++ (str "Q: " ++ x2 ++ [LF] ++ str "A: " ++ y2))
    with (joinBlocks [qaBlock x1 y1; qaBlock x2 y2]).
  rewrite parse_wellformed.
  - cbn [fold_left]. now rewrite !pushLines_qaBlock.
  - constructor; [|constructor; [|constructor]];
      rewrite <- (app_nil_r (qaBlock _ _)); now apply wellFormed_qaBlock.
  - unfold joinBlocks, joinLines, qaBlock. cbn [map join].
    rewrite <- !app_assoc.
    exact (detect_question_answer x1 _ Sx1).
Qed.

(** ** No exception *)

Lemma elem_lt {A : Type} (arr : list A) (i : nat) :
  i < length arr -> exists x, elem arr i = Ok x.
Proof.
  intro H. unfold elem. destruct (nth_error arr i) as [x|] eqn:E; [eauto|].
  apply nth_error_None in E. lia.
Qed.

Lemma foldM_total {A B : Type} (f : B -> A -> result B) (l : list A) :
  (forall x, In x l -> forall b, exists b', f b x = Ok b') ->
  forall b, exists b', foldM f l b = Ok b'.
Proof.
  induction l as [|x l IH]; intros H b; cbn [foldM]; [eauto|].
  destruct (H x (or_introl eq_refl) b) as [b' ->]. cbn [bind].
  apply IH. intros y Hy. apply H. now right.
Qed.

Ltac elem_ok parts k :=
  let x := fresh "p" in
  let E := fresh "E" in
  destruct (elem_lt parts k) as [x E]; [lia | rewrite E; cbn [bind]].

Lemma tableRow_total (lines : list jsstring) (cards : list AnkiCard) (i : nat) :
  i < length lines -> exists cards', tableRow lines cards i = Ok cards'.
Proof.
  intro Hi. unfold tableRow. elem_ok lines i.
  destruct (negb (truthy (trim p))); [(eexists; reflexivity)|].
  match goal with |- context [2 <=? length ?ps] => generalize ps end. intro parts.
  destruct (Nat.leb_spec 2 (length parts)) as [L2|_]; [|(eexists; reflexivity)].
  elem_ok parts 0. elem_ok parts 1.
  destruct (Nat.leb_spec 3 (length parts)) as [L3|L3].
  - elem_ok parts 2.
    destruct (Nat.leb_spec 4 (length parts)) as [L4|_].
    + elem_ok parts 3.
      repeat match goal with
             | |- context [if ?b then _ else _] => destruct b; cbn [bind]
             end; (eexists; reflexivity).
    + repeat match goal with
             | |- context [if ?b then _ else _] => destruct b; cbn [bind]
             end; (eexists; reflexivity).
  - cbn [bind]. destruct (Nat.leb_spec 4 (length parts)) as [L4|_]; [lia|].
    cbn [bind]. (eexists; reflexivity).
Qed.

Lemma fallbackLine_total (cards : list AnkiCard) (line : jsstring) :
  exists cards', fallbackLine cards line = Ok cards'.
Proof.
  unfold fallbackLine. destruct (exec_match true Patterns.qa line); [(eexists; reflexivity)|].
  destruct (Nat.leb_spec 2 (length (split_str (str ":::") line))) as [L|_]; [|(eexists; reflexivity)].
  elem_ok (split_str (str ":::") line) 0. elem_ok (split_str (str ":::") line) 1. (eexists; reflexivity).
Qed.

(** [parseAnkiCards] returns on every text. *)
Lemma parseAnkiCards_total (text : jsstring) :
  exists cards, parseAnkiCards text = Ok cards.
Proof.
  unfold parseAnkiCards. destruct (isMultiLineFormat text); [(eexists; reflexivity)|].
  destruct (Nat.eqb_spec (length (nonBlankLines text)) 0) as [_|Hn]; [(eexists; reflexivity)|].
  elem_ok (nonBlankLines text) 0.
  destruct (isTableFormat (trim p)).
  - apply foldM_total. intros i Hi b. apply tableRow_total.
    apply in_seq in Hi. lia.
  - apply foldM_total. intros l _ b. apply fallbackLine_total.
Qed.

(** ** Texts without structure *)

Lemma includes_iff (pat s : jsstring) : includes pat s = true <-> occurs pat s.
Proof.
  split.
  - induction s as [|c s IH]; cbn [includes]; rewrite orb_true_iff.
    + intros [H|H]; [|discriminate]. apply startsWith_inv in H as [t ->]. now exists [], t.
    + intros [H|H].
      * apply startsWith_inv in H as [t ->]. now exists [], t.
      * apply (occurs_app_r pat [c] s). now apply IH.
  - intros [pre [post ->]]. induction pre as [|c pre IH].
    + cbn [app]. destruct (pat ++ post) eqn:E; cbn [includes]; rewrite <- E;
        now rewrite startsWith_app.
    + cbn [app includes]. rewrite IH. apply orb_true_r.
Qed.

Lemma hasMarker_found (x a : char) (mid post : jsstring) :
  canonicalize a = x -> hasMarker x (mid ++ a :: 58%N :: post) = true.
Proof.
  intro H. induction mid as [|c mid IH].
  - change (hasMarker x ([] ++ a :: 58%N :: post))
      with (((canonicalize a =? x)%N && (58 =? 58)%N) || hasMarker x (58%N :: post)).
    rewrite H, N.eqb_refl. reflexivity.
  - change (hasMarker x ((c :: mid) ++ a :: 58%N :: post))
      with (((canonicalize c =? x)%N
             && match mid ++ a :: 58%N :: post with
                | c0 :: _ => (c0 =? 58)%N
                | [] => false
                end)
            || hasMarker x (mid ++ a :: 58%N :: post)).
    rewrite IH. apply orb_true_r.
Qed.

Lemma hasMarkerPair_complete (s : jsstring) : markerPair s -> hasMarkerPair s = true.
Proof.
  intros [pre [q [mid [a [post [-> [Hq Ha]]]]]]].
  induction pre as [|c pre IH].
  - change (hasMarkerPair ([] ++ q :: 58%N :: mid ++ a :: 58%N :: post))
      with (((canonicalize q =? 81)%N
             && ((58 =? 58)%N && hasMarker 65%N (mid ++ a :: 58%N :: post)))
            || hasMarkerPair (58%N :: mid ++ a :: 58%N :: post)).
    rewrite Hq. apply orb_true_iff. left. exact (hasMarker_found 65%N a mid post Ha).
  - change (hasMarkerPair ((c :: pre) ++ q :: 58%N :: mid ++ a :: 58%N :: post))
      with (((canonicalize c =? 81)%N
             && match pre ++ q :: 58%N :: mid ++ a :: 58%N :: post with
                | c0 :: tl2 => (c0 =? 58)%N && hasMarker 65%N tl2
                | [] => false
                end)
            || hasMarkerPair (pre ++ q :: 58%N :: mid ++ a :: 58%N :: post)).
    rewrite IH. apply orb_true_r.
Qed.

Lemma markerPair_occurs (l text : jsstring) :
  occurs l text -> markerPair l -> markerPair text.
Proof.
  intros [p [s ->]] [pre [q [mid [a [post [-> H]]]]]].
  exists (p ++ pre), q, mid, a, (post ++ s). split; [|exact H].
  rewrite <- !app_assoc. cbn [app]. rewrite <- !app_assoc. reflexivity.
Qed.

Lemma questionThenAnswer_markerPair (text : jsstring) :
  questionThenAnswer text -> markerPair text.
Proof.
  intros [pre [q [mid [a [post [-> [Hq [Ha _]]]]]]]].
  exists pre, q, (mid ++ [LF]), a, post. split; [|auto].
  now rewrite <- app_assoc.
Qed.

Lemma exec_grp_inv ic n r st st' :
  In st' (exec ic (Grp n r) st) ->
  exists m, In m (exec ic r st) /\ rest st' = rest m /\ idx st' = idx m.
Proof.
  cbn [exec]. rewrite in_map_iff. intros [m [<- H]]. now exists m.
Qed.

Lemma qa_unfold :
  exists r,
    Patterns.qa =
    Seq (Seq (Chr 81%N) (Chr 58%N))
        (Seq (Rep true 0 isSpace)
             (Seq (Grp 1 (Rep false 0 dot))
                  (Seq (Rep true 0 isSpace)
                       (Seq (Seq (Chr 65%N) (Chr 58%N)) r)))).
Proof. eexists. reflexivity. Qed.

(** A line that the single-line pattern matches has a marker [Q:] and,
    later, a marker [A:]. *)
Lemma qa_success st st' :
  In st' (exec true Patterns.qa st) -> markerPair (rest st).
Proof.
  destruct qa_unfold as [r ->]. intro H.
  apply exec_seq_iff in H as [m1 [H1 H]].
  apply exec_marker_iff in H1 as [q [t1 [E1 [Cq ->]]]]; [|reflexivity].
  apply exec_seq_iff in H as [m2 [H2 H]].
  apply exec_rep_iff in H2 as [w1 [E2 _]]. simpl in E2.
  apply exec_seq_iff in H as [m3 [H3 H]].
  apply exec_grp_inv in H3 as [m3' [H3 [E3 _]]].
  apply exec_rep_iff in H3 as [g1 [E3' _]]. rewrite <- E3 in E3'.
  apply exec_seq_iff in H as [m4 [H4 H]].
  apply exec_rep_iff in H4 as [w2 [E4 _]].
  apply exec_seq_iff in H as [m5 [H5 _]].
  apply exec_marker_iff in H5 as [a [t5 [E5 [Ca _]]]]; [|reflexivity].
  exists [], q, (w1 ++ g1 ++ w2), a, t5. split; [|auto].
  rewrite E1, E2, E3', E4, E5. cbn [app]. now rewrite <- !app_assoc.
Qed.

Lemma markerPair_app_r (pre suf : jsstring) : markerPair suf -> markerPair (pre ++ suf).
Proof. apply markerPair_occurs. exists pre, []. now rewrite app_nil_r. Qed.

Lemma qa_no_match (line : jsstring) :
  ~ markerPair line -> exec_match true Patterns.qa line = None.
Proof.
  intro H. unfold exec_match.
  destruct (search true Patterns.qa 0 line) as [st'|] eqn:E; [|reflexivity].
  exfalso. apply H. apply search_some in E as [pre [suf [-> E]]].
  apply markerPair_app_r. exact (qa_success _ _ E).
Qed.

Lemma split_str_absent (sep s : jsstring) :
  sep <> [] -> ~ occurs sep s -> split_str sep s = [s].
Proof.
  intros Hsep H. unfold split_str.
  assert (M : sep_matcher sep 0 [] = None).
  { unfold sep_matcher. destruct sep; [congruence | reflexivity]. }
  rewrite split_with_loop by exact M.
  rewrite split_loop_nomatch; [reflexivity|].
  intros q pre c suf ->. unfold sep_matcher.
  destruct (startsWith sep (c :: suf)) eqn:E; [|reflexivity].
  exfalso. apply H. apply startsWith_inv in E as [t ->]. now exists pre, t.
Qed.

Lemma fallbackLine_nothing (cards : list AnkiCard) (line : jsstring) :
  ~ markerPair line -> ~ occurs (str ":::") line -> fallbackLine cards line = Ok cards.
Proof.
  intros Hm Hc. unfold fallbackLine. rewrite (qa_no_match line Hm).
  rewrite split_str_absent by (auto; discriminate). reflexivity.
Qed.

Lemma foldM_unchanged {A B : Type} (f : B -> A -> result B) (l : list A) (b : B) :
  (forall x, In x l -> f b x = Ok b) -> foldM f l b = Ok b.
Proof.
  induction l as [|x l IH]; intro H; cbn [foldM]; [reflexivity|].
  rewrite (H x (or_introl eq_refl)). cbn [bind]. apply IH. intros y Hy. apply H. now right.
Qed.

Lemma nonBlankLines_occurs (text l : jsstring) :
  In l (nonBlankLines text) -> occurs l text.
Proof.
  unfold nonBlankLines. rewrite filter_In. intros [H _].
  exact (split_with_occurs _ _ _ H).
Qed.

(** *** The table header *)

Lemma exec_lit_inv (s : jsstring) :
  s <> [] ->
  forall st st',
    In st' (exec true (lit s) st) ->
    exists m, rest st = m ++ rest st' /\ ciEqual m s.
Proof.
  induction s as [|c s IH]; [congruence|]. intros _ st st' H.
  destruct s as [|c2 s].
  - cbn [lit] in H. apply exec_chr_iff in H as [d [tl [E [C ->]]]].
    exists [d]. split; [exact E|]. constructor; [|constructor].
    unfold chr_eq in C. apply N.eqb_eq in C. congruence.
  - change (lit (c :: c2 :: s)) with (Seq (Chr c) (lit (c2 :: s))) in H.
    apply exec_seq_iff in H as [m1 [H1 H2]].
    apply exec_chr_iff in H1 as [d [tl [E [C ->]]]].
    apply IH in H2 as [m [E2 Hm]]; [|discriminate]. simpl in E2.
    exists (d :: m). split; [rewrite E, E2; reflexivity|].
    constructor; [|exact Hm]. unfold chr_eq in C. apply N.eqb_eq in C. congruence.
Qed.

Lemma exec_gap_inv g st st' :
  In st' (exec true (Rep g 1 Patterns.tabOrSpace) st) ->
  exists w, rest st = w ++ rest st' /\ gap w.
Proof.
  intro H. apply exec_rep_iff in H as [w [E [F [L _]]]].
  exists w. split; [exact E|]. split.
  - destruct w; [simpl in L; lia | discriminate].
  - rewrite forallb_forall in *. intros c Hc. specialize (F c Hc).
    unfold Patterns.tabOrSpace in F. apply orb_true_iff in F as [F|F]; [|exact F].
    apply N.eqb_eq in F. now subst c.
Qed.

Lemma tableHeader_unfold :
  Patterns.tableHeader =
  Seq Bol
      (Seq (lit (str "Q"))
           (Seq (Rep true 1 Patterns.tabOrSpace)
                (Seq (lit (str "A"))
                     (Seq (Rep true 1 Patterns.tabOrSpace)
                          (Seq (lit (str "annotation"))
                               (Seq (Rep true 1 Patterns.tabOrSpace)
                                    (Seq (lit (str "tags")) Eol))))))).
Proof. reflexivity. Qed.

(** What the header pattern accepts is a header line. *)
Lemma isTableFormat_sound (h : jsstring) :
  isTableFormat h = true -> tableHeaderLine h.
Proof.
  unfold isTableFormat. rewrite test_true_iff, tableHeader_unfold.
  intros [pre [suf [st' [-> H]]]].
  apply exec_seq_iff in H as [m0 [H0 H]].
  cbn [exec idx] in H0. destruct pre as [|c pre]; [|destruct H0].
  destruct H0 as [<-|[]]. cbn [app].
  apply exec_seq_iff in H as [m1 [H1 H]].
  apply exec_lit_inv in H1 as [q [E1 Cq]]; [|discriminate]. simpl in E1.
  apply exec_seq_iff in H as [m2 [H2 H]].
  apply exec_gap_inv in H2 as [w1 [E2 G1]].
  apply exec_seq_iff in H as [m3 [H3 H]].
  apply exec_lit_inv in H3 as [a [E3 Ca]]; [|discriminate].
  apply exec_seq_iff in H as [m4 [H4 H]].
  apply exec_gap_inv in H4 as [w2 [E4 G2]].
  apply exec_seq_iff in H as [m5 [H5 H]].
  apply exec_lit_inv in H5 as [an [E5 Can]]; [|discriminate].
  apply exec_seq_iff in H as [m6 [H6 H]].
  apply exec_gap_inv in H6 as [w3 [E6 G3]].
  apply exec_seq_iff in H as [m7 [H7 H]].
  apply exec_lit_inv in H7 as [tg [E7 Ctg]]; [|discriminate].
  cbn [exec] in H. destruct (rest m7) as [|x xs] eqn:E8; [|destruct H].
  exists q, w1, a, w2, an, w3, tg. repeat split; try assumption; try tauto.
  - rewrite E1, E2, E3, E4, E5, E6, E7. now rewrite app_nil_r.
  - apply G1.
  - apply G1.
  - apply G2.
  - apply G2.
  - apply G3.
  - apply G3.
Qed.

Lemma tableHeaderLine_length (h : jsstring) : tableHeaderLine h -> 19 <= length h.
Proof.
  intros [q [w1 [a [w2 [an [w3 [tg [-> [Cq [[G1 _] [Ca [[G2 _] [Can [[G3 _] Ctg]]]]]]]]]]]]]].
  apply Forall2_length in Cq, Ca, Can, Ctg. rewrite !length_app.
  destruct w1; [congruence|]. destruct w2; [congruence|]. destruct w3; [congruence|].
  simpl in *. lia.
Qed.

Lemma exec_lit_intro (s : jsstring) :
  s <> [] ->
  forall m i tl cs,
    ciEqual m s ->
    In (MState (i + length m) tl cs) (exec true (lit s) (MState i (m ++ tl) cs)).
Proof.
  induction s as [|c s IH]; [congruence|]. intros _ m i tl cs Hm.
  inversion Hm as [|d c' m' s' Hd Hm']; subst.
  destruct s as [|c2 s].
  - inversion Hm'; subst. cbn [lit]. apply exec_chr_iff.
    exists d, tl. cbn [rest idx caps app length]. repeat split.
    + unfold chr_eq. apply N.eqb_eq. congruence.
    + f_equal. lia.
  - change (lit (c :: c2 :: s)) with (Seq (Chr c) (lit (c2 :: s))).
    apply exec_seq_iff. exists (MState (S i) (m' ++ tl) cs). split.
    + apply exec_chr_iff. exists d, (m' ++ tl). cbn [rest idx caps app]. repeat split.
      unfold chr_eq. apply N.eqb_eq. congruence.
    + replace (i + length (d :: m')) with (S i + length m') by (simpl; lia).
      apply IH; [discriminate | exact Hm'].
Qed.

Lemma exec_gap_intro (w : jsstring) i tl cs :
  gap w ->
  In (MState (i + length w) tl cs)
     (exec true (Rep true 1 Patterns.tabOrSpace) (MState i (w ++ tl) cs)).
Proof.
  intros [Hne F]. apply exec_rep_iff. exists w. cbn [rest idx caps]. repeat split.
  - rewrite forallb_forall in *. intros c Hc. unfold Patterns.tabOrSpace.
    rewrite (F c Hc). apply orb_true_r.
  - destruct w; [congruence | simpl; lia].
Qed.

(** And every header line is accepted. *)
Lemma isTableFormat_complete (h : jsstring) :
  tableHeaderLine h -> isTableFormat h = true.
Proof.
  intros [q [w1 [a [w2 [an [w3 [tg [-> [Cq [G1 [Ca [G2 [Can [G3 Ctg]]]]]]]]]]]]]].
  unfold isTableFormat. rewrite test_true_iff, tableHeader_unfold.
  exists [], (q ++ w1 ++ a ++ w2 ++ an ++ w3 ++ tg). eexists. split; [reflexivity|].
  cbn [length].
  apply exec_seq_iff. eexists. split; [left; reflexivity|].
  apply exec_seq_iff. eexists. split; [apply exec_lit_intro; [discriminate | exact Cq]|].
  apply exec_seq_iff. eexists. split; [apply exec_gap_intro; exact G1|].
  apply exec_seq_iff. eexists. split; [apply exec_lit_intro; [discriminate | exact Ca]|].
  apply exec_seq_iff. eexists. split; [apply exec_gap_intro; exact G2|].
  apply exec_seq_iff. eexists. split; [apply exec_lit_intro; [discriminate | exact Can]|].
  apply exec_seq_iff. eexists. split; [apply exec_gap_intro; exact G3|].
  apply exec_seq_iff. eexists. split.
  - rewrite <- (app_nil_r tg) at 1. apply exec_lit_intro; [discriminate | exact Ctg].
  - left. reflexivity.
Qed.

(** ** Table rows *)

Section FirstPiece.
Variable matcher : nat -> jsstring -> option nat.

(** While no separator has been met, the first piece extends what has
    been read. *)
Lemma split_loop_first (rest : jsstring) :
  forall piece q,
  exists t ps, split_loop matcher 0 piece q rest = (rev piece ++ t) :: ps.
Proof.
  induction rest as [|c tl IH]; intros piece q; cbn [split_loop].
  - exists [], []. now rewrite app_nil_r.
  - destruct (matcher q (c :: tl)) as [[|k]|].
    + destruct piece as [|d piece].
      * destruct (IH [c] (S q)) as [t [ps E]]. rewrite E. now exists (c :: t), ps.
      * eexists [], _. rewrite app_nil_r. reflexivity.
    + eexists [], _. rewrite app_nil_r. reflexivity.
    + destruct (IH (c :: piece) (S q)) as [t [ps E]]. rewrite E.
      exists (c :: t), ps. cbn [rev]. now rewrite <- app_assoc.
Qed.

Lemma split_with_first (s : jsstring) :
  (forall q c tl, isSpace c = false -> matcher q (c :: tl) = None) ->
  headKept s ->
  exists p0 ps, split_with matcher s = p0 :: ps /\ headKept p0.
Proof.
  intros Hm K. destruct s as [|c tl]; [destruct K|]. cbn [headKept] in K.
  cbn [split_with split_loop]. rewrite (Hm 0 c tl K).
  destruct (split_loop_first tl [c] 1) as [t [ps E]]. rewrite E.
  now exists (rev [c] ++ t), ps.
Qed.
End FirstPiece.

Lemma tab_matcher_kept q c tl : isSpace c = false -> sep_matcher [TAB] q (c :: tl) = None.
Proof.
  intro H. unfold sep_matcher. cbn [startsWith].
  destruct (N.eqb_spec TAB c) as [<-|_]; [discriminate H | reflexivity].
Qed.

Lemma gap_matcher_kept q c tl :
  isSpace c = false -> split_matcher false Patterns.columnGap q (c :: tl) = None.
Proof.
  intro H. unfold split_matcher, match_at, Patterns.columnGap. cbn [exec rest].
  now rewrite (runs_stop isSpace 0 c tl H).
Qed.

Lemma trim_headKept (s : jsstring) : trim s <> [] -> headKept (trim s).
Proof.
  intro H.
  assert (T : trim s = rev (dropWhile isSpace (rev (dropWhile isSpace s)))) by reflexivity.
  destruct (dropWhile isSpace s) as [|c t] eqn:E.
  { rewrite T in H. now contradiction H. }
  assert (Hc : isSpace c = false).
  { destruct s as [|d s']; [discriminate|].
    clear T H. revert E. generalize (d :: s'). intros u.
    induction u as [|x u IH]; [discriminate|]. simpl.
    destruct (isSpace x) eqn:Ex; [exact IH|]. intro E. now injection E as <- _. }
  destruct (dropWhile_suffix isSpace (rev (c :: t))) as [a [Ea Fa]].
  apply (f_equal (@rev char)) in Ea. rewrite rev_involutive, rev_app_distr in Ea.
  rewrite T. destruct (rev (dropWhile isSpace (rev (c :: t)))) as [|x xs] eqn:Er.
  { rewrite T in H. now contradiction H. }
  cbn [app] in Ea. injection Ea as <- _. exact Hc.
Qed.

Lemma tableRow_asked (lines : list jsstring) (cards cards' : list AnkiCard) (i : nat) :
  Forall asked cards -> tableRow lines cards i = Ok cards' -> Forall asked cards'.
Proof.
  intros Hc. unfold tableRow.
  destruct (elem lines i) as [l|e]; cbn [bind]; [|discriminate].
  destruct (truthy (trim l)) eqn:Et; cbn [negb]; [|intro H; now injection H as <-].
  apply truthy_true, trim_headKept in Et.
  assert (P : exists p0 ps,
             (if includes [TAB] (trim l) then split_str [TAB] (trim l)
              else split_re Patterns.columnGap (trim l)) = p0 :: ps /\ headKept p0).
  { destruct (includes [TAB] (trim l)).
    - apply split_with_first; [apply tab_matcher_kept | exact Et].
    - apply split_with_first; [apply gap_matcher_kept | exact Et]. }
  destruct P as [p0 [ps [-> K]]].
  destruct (2 <=? length (p0 :: ps)); [|intro H; now injection H as <-].
  cbn [elem nth_error bind].
  destruct (elem (p0 :: ps) 1) as [p1|e]; cbn [bind]; [|discriminate].
  assert (Q : forall c, question c = trim p0 -> asked c).
  { intros c E. unfold asked. rewrite E. now apply trim_nonempty. }
  repeat match goal with
         | |- context [elem ?a ?k] => destruct (elem a k); cbn [bind]
         | |- context [if ?b then _ else _] => destruct b; cbn [bind]
         end;
    try discriminate; intro H; injection H as <-;
    (apply Forall_app; split; [exact Hc | constructor; [now apply Q | constructor]]).
Qed.

Lemma foldM_invariant {A B : Type} (P : B -> Prop) (f : B -> A -> result B) (l : list A) :
  (forall b x b', P b -> f b x = Ok b' -> P b') ->
  forall b b', P b -> foldM f l b = Ok b' -> P b'.
Proof.
  intro Hf. induction l as [|x l IH]; intros b b' Hb; cbn [foldM].
  - intro H. now injection H as <-.
  - destruct (f b x) as [b1|e] eqn:E; cbn [bind]; [|discriminate].
    apply IH. exact (Hf b x b1 Hb E).
Qed.

(** In the table branch every card has a question. *)
Lemma table_cards_asked (text l0 : jsstring) :
  isMultiLineFormat text = false ->
  hd_error (nonBlankLines text) = Some l0 ->
  isTableFormat (trim l0) = true ->
  exists cards, parseAnkiCards text = Ok cards /\ Forall asked cards.
Proof.
  intros Hm Hl Ht. destruct (parseAnkiCards_total text) as [cards E].
  exists cards. split; [exact E|]. revert E. unfold parseAnkiCards. rewrite Hm.
  destruct (nonBlankLines text) as [|l ls]; [discriminate|]. injection Hl as ->.
  cbn [length Nat.eqb elem nth_error bind]. rewrite Ht.
  apply (foldM_invariant (Forall asked)); [|constructor].
  intros b i b'. apply tableRow_asked.
Qed.

(** ** The claims about the parser *)

(** C1, amended. On every text that takes the multi-line branch,
    [parseAnkiCards] returns cards whose question and answer are both not
    empty: a block that lacks one of them adds nothing. On every text
    that takes the table branch it returns cards whose question is not
    empty. *)
Theorem cards_complete_by_branch (text : jsstring) :
  (isMultiLineFormat text = true ->
   exists cards, parseAnkiCards text = Ok cards /\ Forall complete cards)
  /\ (forall l0,
        isMultiLineFormat text = false ->
        hd_error (nonBlankLines text) = Some l0 ->
        isTableFormat (trim l0) = true ->
        exists cards, parseAnkiCards text = Ok cards /\ Forall asked cards).
Proof.
  split.
  - intro H. exists (parseMultiLine text). split.
    + unfold parseAnkiCards. now rewrite H.
    + apply parseMultiLine_complete.
  - intros l0. apply table_cards_asked.
Qed.

Lemma cards_complete_by_branch_witness :
  (exists cards,
      parseAnkiCards (str "Q: x" ++ [LF] ++ str "A: y" ++ [LF; LF] ++ str "Q: lost")
        = Ok cards /\ Forall complete cards)
  /\ (exists cards,
        parseAnkiCards (str "Q" ++ [TAB] ++ str "A" ++ [TAB] ++ str "annotation" ++ [TAB]
                        ++ str "tags" ++ [LF] ++ str "foo" ++ [TAB; TAB] ++ str "note")
          = Ok cards /\ Forall asked cards).
Proof.
  split.
  - apply (proj1 (cards_complete_by_branch
                    (str "Q: x" ++ [LF] ++ str "A: y" ++ [LF; LF] ++ str "Q: lost"))).
    vm_compute. reflexivity.
  - apply (proj2 (cards_complete_by_branch
                    (str "Q" ++ [TAB] ++ str "A" ++ [TAB] ++ str "annotation" ++ [TAB]
                     ++ str "tags" ++ [LF] ++ str "foo" ++ [TAB; TAB] ++ str "note"))
                 (str "Q" ++ [TAB] ++ str "A" ++ [TAB] ++ str "annotation" ++ [TAB]
                  ++ str "tags"));
      vm_compute; reflexivity.
Defined.

(** C1 as written fails in the other two branches: a table row whose
    second column is empty, a line that is only the delimiter, and a line
    with the two markers and nothing else each give a card with an empty
    side. *)
Lemma incomplete_cards_are_returned :
  parseAnkiCards (str "Q" ++ [TAB] ++ str "A" ++ [TAB] ++ str "annotation" ++ [TAB]
                  ++ str "tags" ++ [LF] ++ str "foo" ++ [TAB; TAB] ++ str "note")
    = Ok [mkCard (str "foo") [] (Some (str "note")) None]
  /\ parseAnkiCards (str ":::") = Ok [mkCard [] [] None None]
  /\ parseAnkiCards (str "Q: A:") = Ok [mkCard [] [] None None]
  /\ ~ (forall text cards, parseAnkiCards text = Ok cards -> Forall complete cards).
Proof.
  split; [vm_compute; reflexivity|]. split; [vm_compute; reflexivity|].
  split; [vm_compute; reflexivity|].
  intro H. specialize (H (str ":::") [mkCard [] [] None None] eq_refl).
  inversion H as [|? ? [Hq _] _]. now apply Hq.
Qed.

(** C2. The block loop compares the start of a line with the markers as
    they are written, upper-case [Q:] and [A:]: a line that starts with
    [q:] or [a:] changes nothing, so the block [q: x] / [a: y], which the
    case-insensitive detection sends to the multi-line branch, gives no
    card where [Q: x] / [A: y] gives one. The one-line form of the
    fallback branch does read the lower-case markers. *)
Theorem lowercase_block_gives_no_card :
  isMultiLineFormat (str "q: x" ++ [LF] ++ str "a: y") = true
  /\ parseAnkiCards (str "q: x" ++ [LF] ++ str "a: y") = Ok []
  /\ parseAnkiCards (str "Q: x" ++ [LF] ++ str "A: y") = Ok [qaCard (str "x") (str "y")]
  /\ parseAnkiCards (str "q: x a: y") = Ok [qaCard (str "x") (str "y")]
  /\ (forall card t, scanLine card (str "q:" ++ t) = card)
  /\ (forall card t, scanLine card (str "a:" ++ t) = card).
Proof.
  split; [vm_compute; reflexivity|]. split; [vm_compute; reflexivity|].
  split; [vm_compute; reflexivity|]. split; [vm_compute; reflexivity|].
  split; intros card t; reflexivity.
Qed.

(** C3, amended. The multi-line branch is taken exactly when the text has,
    anywhere on a line, a marker [Q:] (in either case), then no line
    terminator up to a line feed, and directly after that line feed a
    marker [A:] (in either case). So a marker [Q:] in the middle of a
    line, followed by a line that starts with [A:], selects the branch;
    and a text without a marker [Q:] followed later by a marker [A:],
    such as one whose only marker is [Q:], does not. *)
Theorem multiLine_detection :
  (forall text, isMultiLineFormat text = true <-> questionThenAnswer text)
  /\ (forall pre x rest,
        singleLine x ->
        isMultiLineFormat (pre ++ str "Q:" ++ x ++ [LF] ++ str "A:" ++ rest) = true)
  /\ (forall text, ~ markerPair text -> isMultiLineFormat text = false).
Proof.
  split; [exact isMultiLineFormat_iff|]. split.
  - intros pre x rest Hx. apply isMultiLineFormat_iff.
    exists pre, 81%N, x, 65%N, rest. repeat split. exact Hx.
  - intros text H. destruct (isMultiLineFormat text) eqn:E; [|reflexivity].
    exfalso. apply H, questionThenAnswer_markerPair. now apply isMultiLineFormat_iff.
Qed.

Lemma multiLine_detection_witness :
  isMultiLineFormat (str "see " ++ str "Q:" ++ str " x" ++ [LF] ++ str "A:" ++ str " y") = true
  /\ isMultiLineFormat (str "see Q: x and nothing else") = false.
Proof.
  destruct multiLine_detection as [_ [H2 H3]]. split.
  - apply (H2 (str "see ") (str " x") (str " y")). reflexivity.
  - apply (H3 (str "see Q: x and nothing else")).
    intro H. apply hasMarkerPair_complete in H. vm_compute in H. discriminate.
Defined.

(** C3 as written fails both ways: an [annotation:] line between the
    question line and the answer line prevents the detection, and a
    marker [Q:] that does not start its line allows it. *)
Lemma detection_is_not_line_anchored :
  isMultiLineFormat (str "Q: x" ++ [LF] ++ str "annotation: n" ++ [LF] ++ str "A: y") = false
  /\ isMultiLineFormat (str "see Q: x" ++ [LF] ++ str "A: y") = true.
Proof. split; vm_compute; reflexivity. Qed.

(** C6, amended. For [x] and [y] not empty, without line terminator, and
    without white space at either end, the block [Q: x] / [A: y] gives
    exactly the card with question [x] and answer [y]; and two such
    blocks with an empty line between them give exactly the two cards,
    in the order of the blocks. *)
Theorem wellformed_blocks_parse (x1 y1 x2 y2 : jsstring) :
  x1 <> [] -> y1 <> [] -> trimmed x1 -> trimmed y1 -> singleLine x1 -> singleLine y1 ->
  x2 <> [] -> y2 <> [] -> trimmed x2 -> trimmed y2 -> singleLine x2 -> singleLine y2 ->
  parseAnkiCards (str "Q: " ++ x1 ++ [LF] ++ str "A: " ++ y1) = Ok [qaCard x1 y1]
  /\ parseAnkiCards ((str "Q: " ++ x1 ++ [LF] ++ str "A: " ++ y1) ++ [LF; LF]
                     ++ (str "Q: " ++ x2 ++ [LF] ++ str "A: " ++ y2))
     = Ok [qaCard x1 y1; qaCard x2 y2].
Proof.
  intros. split; [now apply parse_one_block | now apply parse_two_blocks].
Qed.

Lemma wellformed_blocks_parse_witness :
  parseAnkiCards (str "Q: " ++ str "2 + 2" ++ [LF] ++ str "A: " ++ str "4")
    = Ok [qaCard (str "2 + 2") (str "4")]
  /\ parseAnkiCards ((str "Q: " ++ str "2 + 2" ++ [LF] ++ str "A: " ++ str "4") ++ [LF; LF]
                     ++ (str "Q: " ++ str "capital?" ++ [LF] ++ str "A: " ++ str "Paris"))
     = Ok [qaCard (str "2 + 2") (str "4"); qaCard (str "capital?") (str "Paris")].
Proof.
  apply (wellformed_blocks_parse (str "2 + 2") (str "4") (str "capital?") (str "Paris"));
    try discriminate; vm_compute; reflexivity.
Defined.

(** C6 as written fails: a question of one space is not empty and sits on
    one line, and the block gives no card; a question with a space at its
    end comes back without it. *)
Lemma padded_question_is_not_kept :
  str " " <> [] /\ singleLine (str " ")
  /\ parseAnkiCards (str "Q: " ++ str " " ++ [LF] ++ str "A: " ++ str "y") = Ok []
  /\ parseAnkiCards (str "Q: " ++ str "x " ++ [LF] ++ str "A: " ++ str "y")
     = Ok [qaCard (str "x") (str "y")]
  /\ parseAnkiCards (str "Q: " ++ str "x " ++ [LF] ++ str "A: " ++ str "y")
     <> Ok [qaCard (str "x ") (str "y")].
Proof.
  split; [discriminate|]. split; [reflexivity|].
  split; [vm_compute; reflexivity|]. split; [vm_compute; reflexivity|].
  vm_compute. discriminate.
Qed.

(** C7. [parseAnkiCards] returns a list of cards on every text, without
    exception. And a text with no recognizable marker, that is with no
    marker [Q:] followed later by a marker [A:] (which rules out the
    multi-line structure and the one-line form alike), whose first
    non-blank line is not a table header, and with no delimiter [:::],
    gives the empty list. *)
Theorem parse_total_and_nothing (text : jsstring) :
  (exists cards, parseAnkiCards text = Ok cards)
  /\ (~ markerPair text ->
      (forall l0, hd_error (nonBlankLines text) = Some l0 -> ~ tableHeaderLine (trim l0)) ->
      ~ occurs (str ":::") text ->
      parseAnkiCards text = Ok []).
Proof.
  split; [apply parseAnkiCards_total|].
  intros Hm Hh Hc. unfold parseAnkiCards.
  destruct (isMultiLineFormat text) eqn:E.
  { exfalso. apply Hm, questionThenAnswer_markerPair. now apply isMultiLineFormat_iff. }
  destruct (nonBlankLines text) as [|l0 ls] eqn:El; [reflexivity|].
  cbn [length Nat.eqb elem nth_error bind].
  destruct (isTableFormat (trim l0)) eqn:Et.
  { exfalso. apply (Hh l0 eq_refl). now apply isTableFormat_sound. }
  apply foldM_unchanged. intros l Hl. rewrite <- El in Hl.
  apply nonBlankLines_occurs in Hl. apply fallbackLine_nothing.
  - intro H. apply Hm. exact (markerPair_occurs l text Hl H).
  - intro H. apply Hc. exact (occurs_trans _ _ _ H Hl).
Qed.

Lemma parse_total_and_nothing_witness :
  parseAnkiCards (str "hello world: nothing to learn" ++ [LF] ++ str "Q and A") = Ok [].
Proof.
  apply (proj2 (parse_total_and_nothing
                  (str "hello world: nothing to learn" ++ [LF] ++ str "Q and A"))).
  - intro H. apply hasMarkerPair_complete in H. vm_compute in H. discriminate.
  - intros l0 E. vm_compute in E. injection E as <-.
    intro H. apply isTableFormat_complete in H. vm_compute in H. discriminate.
  - intro H. apply includes_iff in H. vm_compute in H. discriminate.
Defined.

(** C8. The table of the spec: the header line, then one row with four
    columns, gives the one card with its annotation and its two tags. *)
Theorem table_example :
  isMultiLineFormat (str "Q" ++ [TAB] ++ str "A" ++ [TAB] ++ str "annotation" ++ [TAB]
                     ++ str "tags" ++ [LF] ++ str "foo" ++ [TAB] ++ str "bar" ++ [TAB]
                     ++ str "note" ++ [TAB] ++ str "#x #y") = false
  /\ isTableFormat (str "Q" ++ [TAB] ++ str "A" ++ [TAB] ++ str "annotation" ++ [TAB]
                    ++ str "tags") = true
  /\ parseAnkiCards (str "Q" ++ [TAB] ++ str "A" ++ [TAB] ++ str "annotation" ++ [TAB]
                     ++ str "tags" ++ [LF] ++ str "foo" ++ [TAB] ++ str "bar" ++ [TAB]
                     ++ str "note" ++ [TAB] ++ str "#x #y")
     = Ok [mkCard (str "foo") (str "bar") (Some (str "note")) (Some [str "x"; str "y"])].
Proof. repeat split; vm_compute; reflexivity. Qed.








(** C10. On a text that takes the multi-line branch there are no more
    cards than blocks: each block leaves the list as it is or adds the one
    card of the block. In that card each field comes from the last line
    of the block with the marker of the field, whatever stands before
    that line: the question is the text of the last line that starts with
    [Q:], the answer the text of the last line that starts with [A:], the
    annotation the text of the last line that starts with [annotation:],
    and the tags are those of the last line that starts with [tags:]. The
    block of eight lines below, two per marker, gives the card of the
    second line of each pair. *)
Theorem one_card_per_block_last_marker_wins :
  (forall text,
      isMultiLineFormat text = true ->
      exists cards,
        parseAnkiCards text = Ok cards /\ length cards <= length (cardBlocks text))
  /\ (forall cards block,
        pushBlock cards block = cards \/ pushBlock cards block = cards ++ [blockCard block])
  /\ (forall block pre x post,
        blockLines block = pre ++ (str "Q:" ++ x) :: post ->
        Forall (fun l => startsWith (str "Q:") l = false) post ->
        question (blockCard block) = trim x)
  /\ (forall block pre y post,
        blockLines block = pre ++ (str "A:" ++ y) :: post ->
        Forall (fun l => startsWith (str "A:") l = false) post ->
        answer (blockCard block) = trim y)
  /\ (forall block pre n post,
        blockLines block = pre ++ (str "annotation:" ++ n) :: post ->
        Forall (fun l => startsWith (str "annotation:") l = false) post ->
        annotation (blockCard block) = Some (trim n))
  /\ (forall block pre t post,
        blockLines block = pre ++ (str "tags:" ++ t) :: post ->
        Forall (fun l => startsWith (str "tags:") l = false) post ->
        tags (blockCard block) = Some (parseTags (trim t)))
  /\ parseAnkiCards (str "Q: one" ++ [LF] ++ str "Q: two" ++ [LF] ++ str "A: three"
                     ++ [LF] ++ str "A: four" ++ [LF] ++ str "annotation: five"
                     ++ [LF] ++ str "annotation: six" ++ [LF] ++ str "tags: seven"
                     ++ [LF] ++ str "tags: eight, nine")
     = Ok [mkCard (str "two") (str "four") (Some (str "six"))
                  (Some [str "eight"; str "nine"])].
Proof.
  split; [|split; [|split; [|split; [|split; [|split]]]]].
  - intros text H. exists (parseMultiLine text). split.
    + unfold parseAnkiCards. now rewrite H.
    + apply parseMultiLine_complete.
  - intros cards block. destruct (pushBlock_cases cards block) as [[H _]|H]; auto.
  - intros block pre x post E H. unfold blockCard. rewrite E.
    now apply last_question_wins.
  - intros block pre y post E H. unfold blockCard. rewrite E.
    now apply last_answer_wins.
  - intros block pre n post E H. unfold blockCard. rewrite E.
    now apply last_annotation_wins.
  - intros block pre t post E H. unfold blockCard. rewrite E.
    now apply last_tags_win.
  - vm_compute. reflexivity.
Qed.

Lemma one_card_per_block_last_marker_wins_witness :
  (exists cards,
      parseAnkiCards (str "Q: one" ++ [LF] ++ str "Q: two" ++ [LF] ++ str "A: three")
        = Ok cards /\
      length cards <= length (cardBlocks (str "Q: one" ++ [LF] ++ str "Q: two" ++ [LF]
                                          ++ str "A: three")))
  /\ question (blockCard (str "Q: one" ++ [LF] ++ str "Q: two" ++ [LF] ++ str "A: three"))
     = trim (str " two")
  /\ answer (blockCard (str "A: one" ++ [LF] ++ str "A: two" ++ [LF] ++ str "Q: three"))
     = trim (str " two")
  /\ annotation (blockCard (str "annotation: one" ++ [LF] ++ str "annotation: two"
                            ++ [LF] ++ str "Q: three"))
     = Some (trim (str " two"))
  /\ tags (blockCard (str "tags: one" ++ [LF] ++ str "tags: #two #three"
                      ++ [LF] ++ str "A: four"))
     = Some (parseTags (trim (str " #two #three"))).
Proof.
  destruct one_card_per_block_last_marker_wins as [H1 [_ [H3 [H4 [H5 [H6 _]]]]]].
  split; [|split; [|split; [|split]]].
  - apply H1. vm_compute. reflexivity.
  - apply (H3 _ [str "Q: one"] (str " two") [str "A: three"]).
    + vm_compute. reflexivity.
    + repeat constructor.
  - apply (H4 _ [str "A: one"] (str " two") [str "Q: three"]).
    + vm_compute. reflexivity.
    + repeat constructor.
  - apply (H5 _ [str "annotation: one"] (str " two") [str "Q: three"]).
    + vm_compute. reflexivity.
    + repeat constructor.
  - apply (H6 _ [str "tags: one"] (str " #two #three") [str "A: four"]).
    + vm_compute. reflexivity.
    + repeat constructor.
Defined.

(* ================================================================== *)
(** * More properties of the parser *)

(** ** What [trim] leaves *)

Lemma dropWhile_idem (p : char -> bool) (s : jsstring) :
  dropWhile p (dropWhile p s) = dropWhile p s.
Proof.
  induction s as [|c s IH]; [reflexivity|]. simpl.
  destruct (p c) eqn:E; [exact IH|]. simpl. now rewrite E.
Qed.

Lemma dropWhile_all (p : char -> bool) (s : jsstring) :
  forallb p s = true -> dropWhile p s = [].
Proof.
  induction s as [|c s IH]; [reflexivity|]. simpl. intro H.
  apply andb_true_iff in H as [Hc Hs]. rewrite Hc. now apply IH.
Qed.

Lemma dropWhile_keeps (p : char -> bool) (s : jsstring) (c : char) :
  In c s -> p c = false -> In c (dropWhile p s).
Proof.
  induction s as [|d s IH]; [intros []|]. intros Hin Hc. simpl.
  destruct (p d) eqn:E; [|exact Hin].
  destruct Hin as [->|Hin]; [congruence | now apply IH].
Qed.

Lemma trim_blank (s : jsstring) : forallb isSpace s = true -> trim s = [].
Proof.
  intro H. unfold trim, trimEnd, trimStart. now rewrite (dropWhile_all _ _ H).
Qed.

Lemma trim_keeps (s : jsstring) (c : char) :
  In c s -> isSpace c = false -> In c (trim s).
Proof.
  intros Hin Hc. unfold trim, trimEnd, trimStart.
  apply in_rev. rewrite rev_involutive. apply dropWhile_keeps; [|exact Hc].
  apply in_rev. rewrite rev_involutive. now apply dropWhile_keeps.
Qed.

Lemma trim_occurs (s : jsstring) : occurs (trim s) s.
Proof.
  unfold trim, trimEnd, trimStart.
  destruct (dropWhile_suffix isSpace s) as [a [Ea _]].
  destruct (dropWhile_suffix isSpace (rev (dropWhile isSpace s))) as [b [Eb _]].
  apply (f_equal (@rev char)) in Eb. rewrite rev_involutive, rev_app_distr in Eb.
  exists a, (rev b). rewrite <- Eb. exact Ea.
Qed.

(** [trim] is idempotent. *)
Lemma trim_trimmed (s : jsstring) : trimmed (trim s).
Proof.
  unfold trimmed. destruct (trim s) as [|c t] eqn:E; [reflexivity|]. rewrite <- E.
  assert (Hne : trim s <> []) by (rewrite E; discriminate).
  apply trim_kept; [now apply trim_headKept|].
  unfold trim, trimEnd, trimStart in *. rewrite rev_involutive.
  apply headKept_of_fixed.
  - intro H. apply Hne. now rewrite H.
  - apply dropWhile_idem.
Qed.

Lemma trimmed_nil : trimmed [].
Proof. reflexivity. Qed.

(** ** Tags *)

Lemma cleanTag_trim_filter (ps : list jsstring) :
  Forall cleanTag (filter truthy (map trim ps)).
Proof.
  apply Forall_forall. intros t Ht. apply filter_In in Ht as [Hin Hne].
  apply in_map_iff in Hin as [p [<- _]]. split.
  - now apply truthy_true.
  - apply trim_trimmed.
Qed.

Lemma parseTags_clean (tagsText : jsstring) : Forall cleanTag (parseTags tagsText).
Proof.
  unfold parseTags, hashTags, plainTags.
  destruct (includes (str "#") tagsText); apply cleanTag_trim_filter.
Qed.

(** ** The form of every card *)

Lemma normalCard_empty : normalCard emptyCard.
Proof. repeat split; try reflexivity; discriminate. Qed.

Lemma normalCard_make (q a : jsstring) (n : option jsstring) (ts : option (list jsstring)) :
  trimmed q -> trimmed a ->
  (forall x, n = Some x -> trimmed x) ->
  (forall l, ts = Some l -> Forall cleanTag l) ->
  normalCard (mkCard q a n ts).
Proof. intros. repeat split; assumption. Qed.

Lemma scanLine_normal (card : AnkiCard) (line : jsstring) :
  normalCard card -> normalCard (scanLine card line).
Proof.
  intros [Hq [Ha [Hn Ht]]]. unfold scanLine.
  repeat match goal with |- context [if ?b then _ else _] => destruct b end;
    try (repeat split; assumption);
    apply normalCard_make; cbn [question answer annotation tags];
    try assumption; try apply trim_trimmed.
  - intros x E. injection E as <-. apply trim_trimmed.
  - intros l E. injection E as <-. apply parseTags_clean.
Qed.

Lemma blockCard_normal (block : jsstring) : normalCard (blockCard block).
Proof.
  unfold blockCard. generalize (blockLines block) as ls.
  assert (G : forall ls card, normalCard card -> normalCard (fold_left scanLine ls card)).
  { induction ls as [|l ls IH]; intros card H; [exact H|].
    cbn [fold_left]. apply IH. now apply scanLine_normal. }
  intro ls. apply G, normalCard_empty.
Qed.

Lemma parseMultiLine_blocks (bs : list jsstring) :
  forall acc, fold_left pushBlock bs acc = acc ++ flat_map blockCards bs.
Proof.
  induction bs as [|b bs IH]; intro acc; cbn [fold_left flat_map].
  - now rewrite app_nil_r.
  - rewrite IH. unfold pushBlock, blockCards.
    destruct (truthy (question (blockCard b)) && truthy (answer (blockCard b)));
      [now rewrite <- app_assoc | reflexivity].
Qed.

Lemma parseMultiLine_normal (text : jsstring) : Forall normalCard (parseMultiLine text).
Proof.
  unfold parseMultiLine. rewrite parseMultiLine_blocks. cbn [app].
  apply Forall_forall. intros c Hc. apply in_flat_map in Hc as [b [_ Hc]].
  unfold blockCards in Hc.
  destruct (truthy (question (blockCard b)) && truthy (answer (blockCard b)));
    [|destruct Hc].
  destruct Hc as [<-|[]]. apply blockCard_normal.
Qed.

Lemma tableRow_normal (lines : list jsstring) (cards cards' : list AnkiCard) (i : nat) :
  Forall normalCard cards -> tableRow lines cards i = Ok cards' -> Forall normalCard cards'.
Proof.
  intros Hc. unfold tableRow.
  destruct (elem lines i) as [l|e]; cbn [bind]; [|discriminate].
  destruct (negb (truthy (trim l))); [intro H; now injection H as <-|].
  match goal with |- context [2 <=? length ?ps] => generalize ps end. intro parts.
  destruct (2 <=? length parts); [|intro H; now injection H as <-].
  destruct (elem parts 0) as [p0|e]; cbn [bind]; [|discriminate].
  destruct (elem parts 1) as [p1|e]; cbn [bind]; [|discriminate].
  repeat match goal with
         | |- context [elem ?a ?k] => destruct (elem a k); cbn [bind]
         | |- context [if ?b then _ else _] => destruct b; cbn [bind]
         end;
    try discriminate; intro H; injection H as <-;
    (apply Forall_app; split; [exact Hc | constructor; [|constructor]]);
    apply normalCard_make; cbn [question answer annotation tags];
    try apply trim_trimmed; try discriminate;
    try (intros x E; injection E as <-; apply trim_trimmed);
    try (intros x E; injection E as <-; apply parseTags_clean).
Qed.

Lemma orEmpty_trim_trimmed (v : option jsstring) : trimmed (orEmpty (option_map trim v)).
Proof. destruct v; [apply trim_trimmed | reflexivity]. Qed.

Lemma setAnnotation_normal (v : option jsstring) (c : AnkiCard) :
  normalCard c -> normalCard (setAnnotation (option_map trim v) c).
Proof.
  intros [Hq [Ha [_ Ht]]]. apply normalCard_make; cbn [question answer annotation tags];
    try assumption.
  intros x E. destruct v; [injection E as <-; apply trim_trimmed | discriminate].
Qed.

Lemma setTags_normal (ts : list jsstring) (c : AnkiCard) :
  Forall cleanTag ts -> normalCard c -> normalCard (setTags ts c).
Proof.
  intros Hts [Hq [Ha [Hn _]]]. apply normalCard_make; cbn [question answer annotation tags];
    try assumption.
  intros l E. now injection E as <-.
Qed.

Lemma fallbackLine_normal (cards cards' : list AnkiCard) (line : jsstring) :
  Forall normalCard cards -> fallbackLine cards line = Ok cards' -> Forall normalCard cards'.
Proof.
  intros Hc. unfold fallbackLine.
  destruct (exec_match true Patterns.qa line) as [qaMatch|].
  - intro H. injection H as <-. apply Forall_app. split; [exact Hc|].
    constructor; [|constructor].
    assert (N0 : normalCard (mkCard (orEmpty (option_map trim (group 1 qaMatch)))
                                    (orEmpty (option_map trim (group 2 qaMatch))) None None)).
    { apply normalCard_make; try apply orEmpty_trim_trimmed; discriminate. }
    revert N0. generalize (mkCard (orEmpty (option_map trim (group 1 qaMatch)))
                                  (orEmpty (option_map trim (group 2 qaMatch))) None None).
    intros c0 N0.
    assert (N1 : normalCard
                   match exec_match true Patterns.annotationField line with
                   | Some annotationMatch =>
                       setAnnotation (option_map trim (group 1 annotationMatch)) c0
                   | None => c0
                   end).
    { destruct (exec_match true Patterns.annotationField line);
        [now apply setAnnotation_normal | exact N0]. }
    revert N1. generalize (match exec_match true Patterns.annotationField line with
                           | Some annotationMatch =>
                               setAnnotation (option_map trim (group 1 annotationMatch)) c0
                           | None => c0
                           end).
    intros c1 N1.
    destruct (exec_match true Patterns.tagsField line) as [tm|]; [|exact N1].
    destruct (truthy (orEmpty (group 1 tm))); [|exact N1].
    apply setTags_normal; [apply cleanTag_trim_filter | exact N1].
  - destruct (2 <=? length (split_str (str ":::") line)); [|intro H; now injection H as <-].
    destruct (elem (split_str (str ":::") line) 0) as [s0|e]; cbn [bind]; [|discriminate].
    destruct (elem (split_str (str ":::") line) 1) as [s1|e]; cbn [bind]; [|discriminate].
    intro H. injection H as <-. apply Forall_app. split; [exact Hc|].
    constructor; [|constructor].
    apply normalCard_make; try apply trim_trimmed; discriminate.
Qed.

Lemma parse_normal (text : jsstring) (cards : list AnkiCard) :
  parseAnkiCards text = Ok cards -> Forall normalCard cards.
Proof.
  unfold parseAnkiCards. destruct (isMultiLineFormat text).
  { intro H. injection H as <-. apply parseMultiLine_normal. }
  destruct (length (nonBlankLines text) =? 0); [intro H; injection H as <-; constructor|].
  destruct (elem (nonBlankLines text) 0) as [l0|e]; cbn [bind]; [|discriminate].
  destruct (isTableFormat (trim l0)).
  - apply (foldM_invariant (Forall normalCard)); [|constructor].
    intros b i b'. apply tableRow_normal.
  - apply (foldM_invariant (Forall normalCard)); [|constructor].
    intros b l b'. apply fallbackLine_normal.
Qed.

(** ** Blank text *)

Lemma canonicalize_Q (c : char) : canonicalize c = 81%N -> c = 81%N \/ c = 113%N.
Proof.
  unfold canonicalize.
  destruct (N.leb_spec 97 c); destruct (N.leb_spec c 122); simpl; lia.
Qed.

Lemma markerPair_has_Q (text : jsstring) :
  markerPair text -> exists c, In c text /\ isSpace c = false.
Proof.
  intros [pre [q [mid [a [post [-> [Hq _]]]]]]]. exists q. split.
  - apply in_or_app. right. now left.
  - destruct (canonicalize_Q q Hq) as [-> | ->]; reflexivity.
Qed.

Lemma occurs_forallb (p : char -> bool) (l s : jsstring) :
  occurs l s -> forallb p s = true -> forallb p l = true.
Proof.
  intros [a [b ->]] H. rewrite !forallb_app in H.
  apply andb_true_iff in H as [_ H]. now apply andb_true_iff in H as [H _].
Qed.

Lemma filter_none {A : Type} (f : A -> bool) (l : list A) :
  (forall x, In x l -> f x = false) -> filter f l = [].
Proof.
  induction l as [|x l IH]; intro H; [reflexivity|]. simpl.
  rewrite (H x (or_introl eq_refl)). apply IH. intros y Hy. apply H. now right.
Qed.

Lemma nonBlankLines_blank (text : jsstring) :
  forallb isSpace text = true -> nonBlankLines text = [].
Proof.
  intro H. unfold nonBlankLines. apply filter_none. intros l Hl.
  apply split_with_occurs in Hl.
  now rewrite (trim_blank l (occurs_forallb isSpace l text Hl H)).
Qed.

Lemma blank_not_multiLine (text : jsstring) :
  forallb isSpace text = true -> isMultiLineFormat text = false.
Proof.
  intro H. destruct (isMultiLineFormat text) eqn:E; [|reflexivity]. exfalso.
  apply isMultiLineFormat_iff, questionThenAnswer_markerPair, markerPair_has_Q in E.
  destruct E as [c [Hin Hc]]. rewrite forallb_forall in H.
  specialize (H c Hin). congruence.
Qed.

(** ** One card per line at most *)

Lemma foldM_length {A B : Type} (f : list B -> A -> result (list B)) (l : list A) :
  (forall b x b', f b x = Ok b' -> length b' <= S (length b)) ->
  forall b b', foldM f l b = Ok b' -> length b' <= length b + length l.
Proof.
  intro Hf. induction l as [|x l IH]; intros b b'; cbn [foldM].
  - intro H. injection H as <-. simpl. lia.
  - destruct (f b x) as [b1|e] eqn:E; cbn [bind]; [|discriminate].
    intro H. apply IH in H. apply Hf in E. simpl. lia.
Qed.

Lemma tableRow_length (lines : list jsstring) (cards cards' : list AnkiCard) (i : nat) :
  tableRow lines cards i = Ok cards' -> length cards' <= S (length cards).
Proof.
  unfold tableRow.
  repeat match goal with
         | |- context [elem ?a ?k] => destruct (elem a k); cbn [bind]
         | |- context [if ?b then _ else _] => destruct b; cbn [bind]
         end;
    try discriminate; intro H; injection H as <-; rewrite ?length_app; simpl; lia.
Qed.

Lemma fallbackLine_length (cards cards' : list AnkiCard) (line : jsstring) :
  fallbackLine cards line = Ok cards' -> length cards' <= S (length cards).
Proof.
  unfold fallbackLine.
  destruct (exec_match true Patterns.qa line).
  - intro H. injection H as <-. rewrite length_app. simpl. lia.
  - repeat match goal with
           | |- context [elem ?a ?k] => destruct (elem a k); cbn [bind]
           | |- context [if ?b then _ else _] => destruct b; cbn [bind]
           end;
      try discriminate; intro H; injection H as <-; rewrite ?length_app; simpl; lia.
Qed.

(** ** Line feeds after carriage returns *)

(** The detection needs a line feed that no line terminator precedes. *)
Lemma questionThenAnswer_bare_LF (text : jsstring) :
  questionThenAnswer text ->
  exists u c v, text = u ++ c :: LF :: v /\ dot c = true.
Proof.
  intros [pre [q [mid [a [post [-> [_ [_ Hm]]]]]]]].
  destruct (exists_last (l := 58%N :: mid)) as [m [c E]]; [discriminate|].
  exists (pre ++ q :: m), c, (a :: 58%N :: post). split.
  - change (q :: 58%N :: mid ++ LF :: a :: 58%N :: post)
      with (q :: (58%N :: mid) ++ LF :: a :: 58%N :: post).
    rewrite E, <- !app_assoc. reflexivity.
  - assert (Hin : In c (58%N :: mid)).
    { rewrite E. apply in_or_app. right. now left. }
    destruct Hin as [<-|Hin]; [reflexivity|].
    unfold singleLine in Hm. rewrite forallb_forall in Hm. now apply Hm.
Qed.

(** ** Colons *)

Lemma colons_app (a b : jsstring) : colons (a ++ b) = colons a + colons b.
Proof. apply count_occ_app. Qed.

Lemma colons_none (s : jsstring) : ~ In 58%N s -> colons s = 0.
Proof. apply count_occ_not_In. Qed.

Lemma colons_cons_colon (s : jsstring) : colons (58%N :: s) = S (colons s).
Proof. unfold colons. now rewrite count_occ_cons_eq. Qed.

Lemma colons_cons_le (c : char) (s : jsstring) : colons s <= colons (c :: s).
Proof. unfold colons. simpl. destruct (N.eq_dec c 58); lia. Qed.

Lemma markerPair_colons (s : jsstring) : markerPair s -> 2 <= colons s.
Proof.
  intros [pre [q [mid [a [post [-> _]]]]]].
  rewrite colons_app.
  pose proof (colons_cons_le q (58%N :: mid ++ a :: 58%N :: post)) as L1.
  rewrite colons_cons_colon, colons_app in L1.
  pose proof (colons_cons_le a (58%N :: post)) as L2.
  rewrite colons_cons_colon in L2. cbv [char jsstring] in *. lia.
Qed.

Lemma delimiter_colons (s : jsstring) : occurs (str ":::") s -> 3 <= colons s.
Proof.
  intros [pre [post ->]]. rewrite !colons_app.
  change (colons (str ":::")) with 3. lia.
Qed.

Lemma in_colons (s : jsstring) : In 58%N s -> 1 <= colons s.
Proof. intro H. apply (count_occ_In N.eq_dec) in H. exact H. Qed.

Lemma canonicalize_colon (a b : char) :
  canonicalize a = canonicalize b -> a = 58%N -> b = 58%N.
Proof.
  intros H ->. change (canonicalize 58%N) with 58%N in H. symmetry in H.
  apply (canonicalize_fixed 58%N b); [lia | exact H].
Qed.

Lemma ciEqual_colon (m s : jsstring) : ciEqual m s -> In 58%N m -> In 58%N s.
Proof.
  unfold ciEqual. revert s. induction m as [|x m IH]; intros s H; [intros []|].
  inversion H as [|? y ? s' Hxy Hms]; subst.
  intros [E|Hin]; [left | right; now apply IH].
  exact (canonicalize_colon x y Hxy E).
Qed.

Lemma gap_colon (w : jsstring) : gap w -> ~ In 58%N w.
Proof.
  intros [_ F] H. rewrite forallb_forall in F. specialize (F _ H). discriminate F.
Qed.

(** A header line has no colon. *)
Lemma tableHeaderLine_colon (h : jsstring) : tableHeaderLine h -> ~ In 58%N h.
Proof.
  intros [q [w1 [a [w2 [an [w3 [tg [-> [Cq [G1 [Ca [G2 [Can [G3 Ctg]]]]]]]]]]]]]] H.
  repeat (apply in_app_or in H as [H|H]);
    try (now apply (gap_colon _ G1)); try (now apply (gap_colon _ G2));
    try (now apply (gap_colon _ G3)).
  - apply (ciEqual_colon _ _ Cq) in H. simpl in H. intuition discriminate.
  - apply (ciEqual_colon _ _ Ca) in H. simpl in H. intuition discriminate.
  - apply (ciEqual_colon _ _ Can) in H. simpl in H. intuition discriminate.
  - apply (ciEqual_colon _ _ Ctg) in H. simpl in H. intuition discriminate.
Qed.

Lemma colon_not_header (l : jsstring) : In 58%N l -> isTableFormat (trim l) = false.
Proof.
  intro H. destruct (isTableFormat (trim l)) eqn:E; [|reflexivity]. exfalso.
  apply isTableFormat_sound, tableHeaderLine_colon in E. apply E.
  now apply trim_keeps.
Qed.

Lemma colon_not_blank (l : jsstring) : In 58%N l -> truthy (trim l) = true.
Proof.
  intro H. apply truthy_true. intro E.
  pose proof (trim_keeps l 58%N H eq_refl) as K. now rewrite E in K.
Qed.

(** ** The delimiter of the last branch *)

Lemma hasMarker_plain (x : char) (a : jsstring) : ~ In 58%N a -> hasMarker x a = false.
Proof.
  induction a as [|d a IH]; [reflexivity|]. intro H.
  cbn [hasMarker]. rewrite IH by (intro K; apply H; now right).
  destruct a as [|c a]; [now rewrite andb_false_r|].
  destruct (N.eqb_spec c 58) as [->|_]; [exfalso; apply H; right; now left|].
  now rewrite andb_false_r.
Qed.

Lemma hasMarkerPair_plain (a : jsstring) : ~ In 58%N a -> hasMarkerPair a = false.
Proof.
  induction a as [|d a IH]; [reflexivity|]. intro H.
  cbn [hasMarkerPair]. rewrite IH by (intro K; apply H; now right).
  destruct a as [|c a]; [now rewrite andb_false_r|].
  destruct (N.eqb_spec c 58) as [->|_]; [exfalso; apply H; right; now left|].
  now rewrite andb_false_r.
Qed.

Lemma hasMarkerPair_delimited (q a : jsstring) :
  ~ In 58%N q -> ~ In 58%N a -> hasMarkerPair (q ++ str ":::" ++ a) = false.
Proof.
  intros Hq Ha. change (str ":::" ++ a) with (58%N :: 58%N :: 58%N :: a).
  induction q as [|d q IH].
  - cbn [app hasMarkerPair hasMarker].
    change (canonicalize 58%N) with 58%N. change (58 =? 81)%N with false.
    change (58 =? 65)%N with false. cbn [andb orb].
    now apply hasMarkerPair_plain.
  - cbn [app hasMarkerPair]. rewrite IH by (intro K; apply Hq; now right).
    rewrite orb_false_r. destruct q as [|c q].
    + cbn [app hasMarker]. change (canonicalize 58%N) with 58%N.
      change (58 =? 65)%N with false. cbn [andb orb].
      rewrite (hasMarker_plain 65%N a Ha). cbn [andb]. now rewrite !andb_false_r.
    + cbn [app]. destruct (N.eqb_spec c 58) as [->|_];
        [exfalso; apply Hq; right; now left|].
      now rewrite andb_false_r.
Qed.

Lemma not_markerPair_delimited (q a : jsstring) :
  ~ In 58%N q -> ~ In 58%N a -> ~ markerPair (q ++ str ":::" ++ a).
Proof.
  intros Hq Ha H. apply hasMarkerPair_complete in H.
  now rewrite hasMarkerPair_delimited in H.
Qed.

Lemma delimiter_matcher_other (c : char) (q : nat) (s : jsstring) :
  c <> 58%N -> sep_matcher (str ":::") q (c :: s) = None.
Proof.
  intro H. unfold sep_matcher. change (str ":::") with [58%N; 58%N; 58%N].
  cbn [startsWith]. destruct (N.eqb_spec 58 c) as [E|_]; [congruence | reflexivity].
Qed.

Lemma split_delimiter (q a : jsstring) :
  ~ In 58%N q -> ~ In 58%N a ->
  split_str (str ":::") (q ++ str ":::" ++ a) = [q; a].
Proof.
  intros Hq Ha. unfold split_str. rewrite split_with_loop by reflexivity.
  rewrite split_loop_run.
  2:{ intros c Hc n s. apply delimiter_matcher_other. intros ->. contradiction. }
  change (str ":::" ++ a) with (58%N :: 58%N :: 58%N :: a).
  cbn [split_loop]. change (sep_matcher (str ":::") (0 + length q) (58%N :: 58%N :: 58%N :: a))
    with (Some 3).
  rewrite app_nil_r, rev_involutive. f_equal.
  rewrite split_loop_nomatch; [reflexivity|].
  intros n pre c suf ->. apply delimiter_matcher_other. intros ->.
  apply Ha, in_or_app. right. now left.
Qed.

Lemma no_LF_lines (text : jsstring) :
  ~ In LF text -> In 58%N text -> nonBlankLines text = [text].
Proof.
  intros H Hc. unfold nonBlankLines. rewrite split_str_absent.
  - cbn [filter]. now rewrite colon_not_blank.
  - discriminate.
  - intros [pre [post ->]]. apply H, in_or_app. right. now left.
Qed.

Lemma parse_delimited (q a : jsstring) :
  ~ In 58%N q -> ~ In 58%N a -> ~ In LF q -> ~ In LF a ->
  parseAnkiCards (q ++ str ":::" ++ a) = Ok [mkCard (trim q) (trim a) None None].
Proof.
  intros Hq Ha Lq La.
  pose proof (not_markerPair_delimited q a Hq Ha) as Hm.
  assert (Hc : In 58%N (q ++ str ":::" ++ a)).
  { apply in_or_app. right. now left. }
  assert (Hl : ~ In LF (q ++ str ":::" ++ a)).
  { intro H. apply in_app_or in H as [H|H]; [contradiction|].
    apply in_app_or in H as [H|H]; [|contradiction].
    simpl in H. unfold LF in H. intuition discriminate. }
  unfold parseAnkiCards.
  destruct (isMultiLineFormat (q ++ str ":::" ++ a)) eqn:E.
  { exfalso. apply Hm, questionThenAnswer_markerPair. now apply isMultiLineFormat_iff. }
  rewrite (no_LF_lines _ Hl Hc). cbn [length Nat.eqb elem nth_error bind].
  rewrite (colon_not_header _ Hc). cbn [foldM]. unfold fallbackLine.
  rewrite (qa_no_match _ Hm). rewrite (split_delimiter q a Hq Ha). reflexivity.
Qed.

(** ** Line feeds after carriage returns *)

(** Where a string is cut at a code unit that the first part lacks. *)
Lemma cut_cases (c : char) (a : jsstring) :
  ~ In c a ->
  forall b u v,
    a ++ c :: b = u ++ c :: v ->
    (u = a /\ v = b) \/ (exists u', u = a ++ c :: u' /\ b = u' ++ c :: v).
Proof.
  induction a as [|x a IH]; intros Ha b u v E.
  - destruct u as [|y u]; cbn [app] in E.
    + left. injection E as ->. auto.
    + right. injection E as <- ->. now exists u.
  - destruct u as [|y u]; cbn [app] in E.
    + injection E as -> _. exfalso. apply Ha. now left.
    + injection E as <- E.
      destruct (IH (fun K => Ha (or_intror K)) b u v E) as [[-> ->]|[u' [-> ->]]].
      * now left.
      * right. now exists u'.
Qed.

Lemma cut_unique (c : char) (a b u v : jsstring) :
  ~ In c a -> ~ In c b -> a ++ c :: b = u ++ c :: v -> u = a /\ v = b.
Proof.
  intros Ha Hb E. destruct (cut_cases c a Ha b u v E) as [H|[u' [_ ->]]]; [exact H|].
  exfalso. apply Hb, in_or_app. right. now left.
Qed.

Lemma no_bare_LF_not_multiLine (text : jsstring) :
  (forall u v, text = u ++ LF :: v -> exists u', u = u' ++ [CR]) ->
  isMultiLineFormat text = false.
Proof.
  intro H. destruct (isMultiLineFormat text) eqn:E; [|reflexivity]. exfalso.
  apply isMultiLineFormat_iff, questionThenAnswer_bare_LF in E.
  destruct E as [u [c [v [-> Hc]]]].
  destruct (H (u ++ [c]) v) as [u' E].
  { now rewrite <- app_assoc. }
  apply app_inj_tail in E as [_ ->]. discriminate Hc.
Qed.

Lemma plain_no_LF (marker x : jsstring) (tail : jsstring) :
  ~ In LF marker -> ~ In LF x -> ~ In LF tail -> ~ In LF (marker ++ x ++ tail).
Proof.
  intros H1 H2 H3 H. apply in_app_or in H as [H|H]; [contradiction|].
  apply in_app_or in H as [H|H]; contradiction.
Qed.

Lemma question_line_colons (x : jsstring) :
  ~ In 58%N x -> colons (str "Q: " ++ x ++ [CR]) = 1.
Proof.
  intro H. rewrite !colons_app, (colons_none x H). reflexivity.
Qed.

Lemma answer_line_colons (y : jsstring) : ~ In 58%N y -> colons (str "A: " ++ y) = 1.
Proof. intro H. rewrite colons_app, (colons_none y H). reflexivity. Qed.

Lemma one_colon_nothing (cards : list AnkiCard) (line : jsstring) :
  colons line = 1 -> fallbackLine cards line = Ok cards.
Proof.
  intro H. apply fallbackLine_nothing.
  - intro K. apply markerPair_colons in K. lia.
  - intro K. apply delimiter_colons in K. lia.
Qed.

Lemma crlf_block_not_multiLine (x y : jsstring) :
  ~ In LF x -> ~ In LF y ->
  isMultiLineFormat (str "Q: " ++ x ++ [CR; LF] ++ str "A: " ++ y) = false.
Proof.
  intros Lx Ly. apply no_bare_LF_not_multiLine. intros u v Eu.
  assert (L1 : ~ In LF ((81%N :: 58%N :: 32%N :: x) ++ [CR])).
  { intro H. apply in_app_or in H as [H|H].
    - simpl in H. unfold LF in H. intuition discriminate.
    - simpl in H. unfold LF, CR in H. intuition discriminate. }
  assert (L2 : ~ In LF (str "A: " ++ y)).
  { intro H. simpl in H. unfold LF in H. intuition discriminate. }
  assert (E : (81%N :: 58%N :: 32%N :: x) ++ [CR] ++ LF :: (str "A: " ++ y) = u ++ LF :: v).
  { rewrite <- Eu. reflexivity. }
  rewrite app_assoc in E.
  destruct (cut_unique LF _ _ u v L1 L2 E) as [-> _].
  now exists (81%N :: 58%N :: 32%N :: x).
Qed.

Lemma parse_crlf_block (x y : jsstring) :
  ~ In 58%N x -> ~ In 58%N y -> ~ In LF x -> ~ In LF y ->
  parseAnkiCards (str "Q: " ++ x ++ [CR; LF] ++ str "A: " ++ y) = Ok [].
Proof.
  intros Cx Cy Lx Ly.
  assert (E : str "Q: " ++ x ++ [CR; LF] ++ str "A: " ++ y
              = joinLines [str "Q: " ++ x ++ [CR]; str "A: " ++ y]).
  { unfold joinLines. cbn [join]. rewrite <- !app_assoc. reflexivity. }
  assert (L1 : ~ In LF (str "Q: " ++ x ++ [CR])).
  { apply plain_no_LF; auto; simpl; unfold LF, CR; intuition discriminate. }
  assert (L2 : ~ In LF (str "A: " ++ y)).
  { rewrite <- (app_nil_r y). apply plain_no_LF; auto. simpl. unfold LF. intuition discriminate. }
  assert (H1 : In 58%N (str "Q: " ++ x ++ [CR])) by (right; now left).
  assert (H2 : In 58%N (str "A: " ++ y)) by (right; now left).
  unfold parseAnkiCards. rewrite (crlf_block_not_multiLine x y Lx Ly).
  rewrite E. unfold nonBlankLines. rewrite split_lines; [|now repeat constructor|discriminate].
  cbn [filter]. rewrite (colon_not_blank _ H1), (colon_not_blank _ H2).
  cbn [length Nat.eqb elem nth_error bind]. rewrite (colon_not_header _ H1).
  cbn [foldM]. rewrite one_colon_nothing by now apply question_line_colons.
  cbn [bind]. rewrite one_colon_nothing by now apply answer_line_colons.
  reflexivity.
Qed.

(** ** Joining and splitting at one code unit *)

Lemma char_matcher_other (c d : char) (q : nat) (s : jsstring) :
  d <> c -> sep_matcher [c] q (d :: s) = None.
Proof.
  intro H. unfold sep_matcher. cbn [startsWith].
  destruct (N.eqb_spec c d) as [E|_]; [congruence | reflexivity].
Qed.

Lemma char_matcher_same (c : char) (q : nat) (s : jsstring) :
  sep_matcher [c] q (c :: s) = Some 1.
Proof. unfold sep_matcher. cbn [startsWith]. now rewrite N.eqb_refl. Qed.

Lemma join_cons (sep l : jsstring) (ls : list jsstring) :
  ls <> [] -> join sep (l :: ls) = l ++ sep ++ join sep ls.
Proof. destruct ls; [congruence | reflexivity]. Qed.

Lemma split_loop_join (c : char) (ls : list jsstring) :
  Forall (fun l => ~ In c l) ls -> ls <> [] ->
  forall piece q,
    split_loop (sep_matcher [c]) 0 piece q (join [c] ls) = (rev piece ++ hd [] ls) :: tl ls.
Proof.
  induction ls as [|l ls IH]; intros Hb Hne piece q; [congruence|].
  inversion Hb as [|? ? Hl Hb']; subst.
  assert (Hrun : forall d, In d l -> forall q s, sep_matcher [c] q (d :: s) = None).
  { intros d Hd q' s. apply char_matcher_other. intros ->. contradiction. }
  destruct ls as [|l2 ls].
  - cbn [join hd tl].
    rewrite <- (app_nil_r l) at 1. rewrite split_loop_run by exact Hrun.
    cbn [split_loop]. rewrite rev_app_distr, rev_involutive. reflexivity.
  - rewrite join_cons by discriminate. cbn [app].
    rewrite split_loop_run by exact Hrun.
    cbn [split_loop]. rewrite char_matcher_same.
    rewrite IH by (auto; discriminate).
    cbn [rev app hd tl]. rewrite rev_app_distr, rev_involutive. reflexivity.
Qed.

(** Splitting at a code unit undoes joining with it. *)
Lemma split_join (c : char) (ls : list jsstring) :
  Forall (fun l => ~ In c l) ls -> ls <> [] -> split_str [c] (join [c] ls) = ls.
Proof.
  intros Hb Hne. unfold split_str. rewrite split_with_loop by reflexivity.
  rewrite split_loop_join by assumption. destruct ls; [congruence | reflexivity].
Qed.

Lemma headKept_join (sep : jsstring) (ls : list jsstring) :
  headKept (hd [] ls) -> headKept (join sep ls).
Proof.
  destruct ls as [|l ls]; [intros []|]. cbn [hd]. intro H.
  destruct ls; [exact H | now apply headKept_app].
Qed.

Lemma headKept_rev_join (sep : jsstring) (ls : list jsstring) :
  ls <> [] -> Forall (fun l => headKept (rev l)) ls -> headKept (rev (join sep ls)).
Proof.
  induction ls as [|l ls IH]; [congruence|]. intros _ H.
  inversion H as [|? ? Hl Hls]; subst. destruct ls as [|l2 ls]; [exact Hl|].
  rewrite join_cons by discriminate. rewrite !rev_app_distr.
  apply headKept_app, headKept_app. apply IH; [discriminate | exact Hls].
Qed.

(** ** Rows of clean cells *)

Lemma cleanCell_kept (c : jsstring) : cleanCell c -> headKept c /\ headKept (rev c).
Proof. intros [Hne [Ht _]]. now apply trimmed_kept. Qed.

Lemma rowLine_trimmed (cells : list jsstring) :
  cells <> [] -> Forall cleanCell cells -> trim (rowLine cells) = rowLine cells.
Proof.
  intros Hne H. apply trim_kept.
  - apply headKept_join. destruct cells as [|c cells]; [congruence|].
    inversion H; subst. now apply cleanCell_kept.
  - apply headKept_rev_join; [exact Hne|].
    eapply Forall_impl; [|exact H]. intros c Hc. now apply cleanCell_kept.
Qed.

Lemma rowLine_no_LF (cells : list jsstring) :
  Forall cleanCell cells -> ~ In LF (rowLine cells).
Proof.
  unfold rowLine. induction cells as [|c cells IH]; intros H; [intros []|].
  inversion H as [|? ? [_ [_ [_ Hc]]] Hcs]; subst.
  destruct cells as [|c2 cells]; [exact Hc|].
  rewrite join_cons by discriminate. intro K.
  apply in_app_or in K as [K|K]; [contradiction|].
  destruct K as [K|K]; [discriminate K | now apply IH in K].
Qed.

Lemma tableRow_cells (lines : list jsstring) (cards : list AnkiCard) (i : nat)
      (cells : list jsstring) :
  nth_error lines i = Some (rowLine cells) ->
  2 <= length cells -> Forall cleanCell cells ->
  tableRow lines cards i = Ok (cards ++ [rowCard cells]).
Proof.
  intros Hi L H. unfold tableRow, elem at 1. rewrite Hi. cbn [bind].
  assert (Hne : cells <> []) by (destruct cells; [simpl in L; lia | discriminate]).
  rewrite (rowLine_trimmed cells Hne H).
  assert (K : headKept (rowLine cells)).
  { apply headKept_join. destruct cells as [|c cells]; [congruence|].
    inversion H; subst. now apply cleanCell_kept. }
  assert (T : truthy (rowLine cells) = true).
  { destruct (rowLine cells); [destruct K | reflexivity]. }
  rewrite T. cbn [negb].
  assert (I : includes [TAB] (rowLine cells) = true).
  { apply includes_iff. destruct cells as [|q [|a more]]; try (simpl in L; lia).
    unfold rowLine. rewrite join_cons by discriminate. now exists q, (join [TAB] (a :: more)). }
  rewrite I. unfold rowLine. rewrite split_join; [|eapply Forall_impl; [|exact H]; now intros c [_ [_ [Hc _]]] | exact Hne].
  destruct cells as [|q [|a more]]; try (simpl in L; lia).
  inversion H as [|? ? [_ [Tq _]] H1]; subst.
  inversion H1 as [|? ? [_ [Ta _]] H2]; subst.
  cbn [length Nat.leb elem nth_error bind]. rewrite Tq, Ta.
  destruct more as [|n more].
  - reflexivity.
  - inversion H2 as [|? ? [Nn [Tn _]] H3]; subst.
    cbn [length Nat.leb elem nth_error bind]. rewrite Tn.
    apply truthy_true in Nn. rewrite Nn. cbn [bind].
    destruct more as [|t more].
    + reflexivity.
    + inversion H3 as [|? ? [Nt [Tt _]] _]; subst.
      cbn [length Nat.leb elem nth_error bind]. rewrite Tt.
      apply truthy_true in Nt. rewrite Nt. reflexivity.
Qed.

Lemma foldM_rows (rows : list (list jsstring)) :
  Forall validRow rows ->
  forall pre acc,
    foldM (tableRow (pre ++ map rowLine rows)) (seq (length pre) (length rows)) acc
    = Ok (acc ++ map rowCard rows).
Proof.
  induction rows as [|r rows IH]; intros H pre acc.
  - cbn [length seq foldM map]. now rewrite app_nil_r.
  - inversion H as [|? ? [L [Hc _]] Hrs]; subst.
    cbn [length seq foldM map]. rewrite (tableRow_cells _ acc (length pre) r); try assumption.
    + cbn [bind]. specialize (IH Hrs (pre ++ [rowLine r]) (acc ++ [rowCard r])).
      rewrite <- app_assoc, length_app in IH. cbn [app length] in IH.
      rewrite Nat.add_1_r in IH. rewrite IH. now rewrite <- app_assoc.
    + rewrite nth_error_app2 by lia. now rewrite Nat.sub_diag.
Qed.

(** ** A table is not taken for blocks *)

Lemma lines_after_LF (ls : list jsstring) :
  Forall (fun l => ~ In LF l) ls ->
  forall p s,
    joinLines ls = p ++ LF :: s ->
    exists l0 ls1 l ls2, ls = (l0 :: ls1) ++ l :: ls2 /\ s = joinLines (l :: ls2).
Proof.
  induction ls as [|l0 ls IH]; intros H p s E.
  - destruct p; discriminate E.
  - inversion H as [|? ? H0 Hls]; subst. destruct ls as [|l1 ls].
    + exfalso. apply H0. cbn in E. rewrite E. apply in_or_app. right. now left.
    + unfold joinLines in E. rewrite join_cons in E by discriminate. cbn [app] in E.
      destruct (cut_cases LF l0 H0 _ p s E) as [[_ ->]|[u' [_ E']]].
      * now exists l0, [], l1, ls.
      * destruct (IH Hls u' s E') as [m0 [ms1 [m [ms2 [Em ->]]]]].
        exists l0, (m0 :: ms1), m, ms2. split; [|reflexivity]. now rewrite Em.
Qed.

Lemma validRow_not_answer (cells : list jsstring) (more : list jsstring)
      (a : char) (post : jsstring) :
  validRow cells -> joinLines (rowLine cells :: more) = a :: 58%N :: post ->
  canonicalize a = 65%N -> False.
Proof.
  intros [L [H Hs]] E Ca.
  destruct cells as [|q [|c2 cells]]; try (simpl in L; lia).
  inversion H as [|? ? [Nq _] _]; subst. cbn [hd] in Hs.
  assert (X : exists tail, joinLines (rowLine (q :: c2 :: cells) :: more) = q ++ TAB :: tail).
  { unfold rowLine. rewrite join_cons by discriminate.
    destruct more as [|m more]; cbn [joinLines join app];
      rewrite <- ?app_assoc; eexists; reflexivity. }
  destruct X as [tail X]. rewrite X in E.
  destruct q as [|x [|y q]]; [congruence| |]; cbn [app] in E.
  - injection E as _ E. discriminate E.
  - injection E as -> -> _. apply Hs. now exists a, q.
Qed.

Lemma table_not_multiLine (h : jsstring) (rows : list (list jsstring)) :
  tableHeaderLine (trim h) -> ~ In LF h -> Forall validRow rows ->
  isMultiLineFormat (joinLines (h :: map rowLine rows)) = false.
Proof.
  intros Hh Lh Hr.
  destruct (isMultiLineFormat (joinLines (h :: map rowLine rows))) eqn:E; [|reflexivity].
  exfalso. apply isMultiLineFormat_iff in E.
  destruct E as [pre [q [mid [a [post [E [_ [Ca _]]]]]]]].
  assert (E' : joinLines (h :: map rowLine rows)
               = (pre ++ q :: 58%N :: mid) ++ LF :: a :: 58%N :: post).
  { rewrite E, <- app_assoc. reflexivity. }
  apply lines_after_LF in E'.
  - destruct E' as [l0 [ls1 [l [ls2 [El Es]]]]].
    cbn [app] in El. injection El as _ El.
    assert (Hin : In l (map rowLine rows)).
    { rewrite El. apply in_or_app. right. now left. }
    apply in_map_iff in Hin as [cells [<- Hcells]].
    rewrite Forall_forall in Hr.
    exact (validRow_not_answer cells ls2 a post (Hr cells Hcells) (eq_sym Es) Ca).
  - constructor; [exact Lh|]. apply Forall_forall. intros l Hl.
    apply in_map_iff in Hl as [cells [<- Hcells]]. apply rowLine_no_LF.
    rewrite Forall_forall in Hr. now destruct (Hr cells Hcells) as [_ [Hc _]].
Qed.

Lemma header_not_blank (h : jsstring) : tableHeaderLine (trim h) -> truthy (trim h) = true.
Proof.
  intro H. apply tableHeaderLine_length in H. destruct (trim h); [simpl in H; lia | reflexivity].
Qed.

(** A header line, then rows of clean cells: one card per row, in order. *)
Lemma parse_table (h : jsstring) (rows : list (list jsstring)) :
  tableHeaderLine (trim h) -> ~ In LF h -> Forall validRow rows ->
  parseAnkiCards (joinLines (h :: map rowLine rows)) = Ok (map rowCard rows).
Proof.
  intros Hh Lh Hr. unfold parseAnkiCards.
  rewrite (table_not_multiLine h rows Hh Lh Hr).
  assert (Hlines : nonBlankLines (joinLines (h :: map rowLine rows)) = h :: map rowLine rows).
  { unfold nonBlankLines. rewrite split_lines; [| |discriminate].
    - apply forallb_filter_id. apply forallb_forall. intros l [<-|Hl].
      + now apply header_not_blank.
      + apply in_map_iff in Hl as [cells [<- Hcells]].
        rewrite Forall_forall in Hr. destruct (Hr cells Hcells) as [L [Hc _]].
        apply truthy_true, trim_nonempty, headKept_join.
        destruct cells as [|c cells]; [simpl in L; lia|].
        inversion Hc; subst. now apply cleanCell_kept.
    - constructor; [exact Lh|]. apply Forall_forall. intros l Hl.
      apply in_map_iff in Hl as [cells [<- Hcells]]. apply rowLine_no_LF.
      rewrite Forall_forall in Hr. now destruct (Hr cells Hcells) as [_ [Hc _]]. }
  rewrite Hlines.
  replace (length (h :: map rowLine rows) - 1) with (length rows)
    by (cbn [length]; rewrite length_map; lia).
  cbn [length Nat.eqb elem nth_error bind].
  rewrite (isTableFormat_complete _ Hh).
  exact (foldM_rows rows Hr [h] []).
Qed.

(** ** Pieces have nothing of the separator *)

Lemma forallb_rev_true {A : Type} (f : A -> bool) (l : list A) :
  forallb f l = true -> forallb f (rev l) = true.
Proof.
  rewrite !forallb_forall. intros H x Hx. apply H. now apply in_rev.
Qed.

Section SeparatorFree.
Variable matcher : nat -> jsstring -> option nat.
Variable p : char -> bool.
Hypothesis taken : forall q c s, p c = true -> exists k, matcher q (c :: s) = Some (S k).

Lemma split_loop_free (rest : jsstring) :
  forall skip piece q x,
    free p piece ->
    In x (split_loop matcher skip piece q rest) -> free p x.
Proof.
  unfold free. induction rest as [|c tl IH]; intros skip piece q x Hp Hin; cbn [split_loop] in Hin.
  - destruct Hin as [<-|[]]. now apply forallb_rev_true.
  - assert (Hrev : forallb (fun c => negb (p c)) (rev piece) = true)
      by now apply forallb_rev_true.
    destruct skip as [|k]; [|exact (IH k piece (S q) x Hp Hin)].
    destruct (p c) eqn:Ec.
    + destruct (taken q c tl Ec) as [k Ek]. rewrite Ek in Hin.
      destruct Hin as [<-|Hin]; [exact Hrev|]. exact (IH k [] (S q) x eq_refl Hin).
    + assert (Hc : forallb (fun c => negb (p c)) (c :: piece) = true)
        by (cbn [forallb]; now rewrite Ec, Hp).
      assert (H1 : forallb (fun c => negb (p c)) [c] = true)
        by (cbn [forallb]; now rewrite Ec).
      destruct (matcher q (c :: tl)) as [[|k]|].
      * destruct piece as [|d piece].
        -- exact (IH 0 [c] (S q) x H1 Hin).
        -- destruct Hin as [<-|Hin]; [exact Hrev|]. exact (IH 0 [c] (S q) x H1 Hin).
      * destruct Hin as [<-|Hin]; [exact Hrev|]. exact (IH k [] (S q) x eq_refl Hin).
      * exact (IH 0 (c :: piece) (S q) x Hc Hin).
Qed.

Lemma split_with_free (s x : jsstring) : In x (split_with matcher s) -> free p x.
Proof.
  unfold split_with. destruct s as [|c s].
  - destruct (matcher 0 []); [intros []|]. now intros [<-|[]].
  - apply split_loop_free. reflexivity.
Qed.
End SeparatorFree.

(** A run of one or more code units of a class is taken where it starts. *)
Lemma rep_matcher_taken (cls : char -> bool) (q : nat) (c : char) (s : jsstring) :
  cls c = true -> exists k, split_matcher false (Rep true 1 cls) q (c :: s) = Some (S k).
Proof.
  intro Hc. unfold split_matcher, match_at.
  destruct (exec false (Rep true 1 cls) (MState q (c :: s) [])) as [|st l] eqn:E.
  - exfalso.
    assert (H : In (MState (q + 1) s []) (exec false (Rep true 1 cls) (MState q (c :: s) []))).
    { apply exec_rep_iff. exists [c]. cbn [rest idx caps forallb length app].
      rewrite Hc. repeat split; auto. }
    now rewrite E in H.
  - cbn [hd_error].
    assert (H : In st (exec false (Rep true 1 cls) (MState q (c :: s) [])))
      by (rewrite E; now left).
    apply exec_rep_iff in H as [a [_ [_ [L [Ei _]]]]]. cbn [idx] in Ei.
    exists (length a - 1). f_equal. lia.
Qed.

Lemma hash_matcher_taken (q : nat) (c : char) (s : jsstring) :
  isHash c = true -> exists k, sep_matcher (str "#") q (c :: s) = Some (S k).
Proof.
  unfold isHash. intro H. apply N.eqb_eq in H. subst c. now exists 0.
Qed.

Lemma free_occurs (p : char -> bool) (l s : jsstring) : occurs l s -> free p s -> free p l.
Proof. unfold free. apply occurs_forallb. Qed.

Lemma free_not_in (s : jsstring) : free isHash s -> ~ In 35%N s.
Proof.
  unfold free. rewrite forallb_forall. intros H K. specialize (H _ K). discriminate H.
Qed.

Lemma not_includes_free (s : jsstring) : includes (str "#") s = false -> free isHash s.
Proof.
  intro H. unfold free. apply forallb_forall. intros c Hc.
  unfold isHash. destruct (N.eqb_spec c 35) as [->|_]; [|reflexivity]. exfalso.
  assert (K : includes (str "#") s = true).
  { apply includes_iff. apply in_split in Hc as [a [b ->]]. now exists a, b. }
  congruence.
Qed.

Lemma hashTags_free (tagsText t : jsstring) : In t (hashTags tagsText) -> free isHash t.
Proof.
  unfold hashTags. rewrite filter_In, in_map_iff. intros [[x [<- Hx]] _].
  apply (free_occurs isHash (trim x) x (trim_occurs x)).
  exact (split_with_free _ isHash hash_matcher_taken tagsText x Hx).
Qed.

Lemma plainTags_free (tagsText t : jsstring) :
  In t (plainTags tagsText) -> free Patterns.spaceOrComma t.
Proof.
  unfold plainTags. rewrite filter_In, in_map_iff. intros [[x [<- Hx]] _].
  apply (free_occurs _ (trim x) x (trim_occurs x)).
  refine (split_with_free _ Patterns.spaceOrComma _ tagsText x Hx).
  intros q c s Hc. now apply rep_matcher_taken.
Qed.

Lemma plainTags_occurs (tagsText t : jsstring) :
  In t (plainTags tagsText) -> occurs t tagsText.
Proof.
  unfold plainTags. rewrite filter_In, in_map_iff. intros [[x [<- Hx]] _].
  apply (occurs_trans _ x _ (trim_occurs x)). exact (split_with_occurs _ _ _ Hx).
Qed.

(** ** Tags through the tags input *)

Lemma spaceFree_kept (t : jsstring) : spaceFree t -> headKept t /\ headKept (rev t).
Proof.
  intros [Hne F]. unfold free in F. rewrite forallb_forall in F.
  assert (G : forall s, s <> [] -> (forall c, In c s -> negb (isSpace c) = true) -> headKept s).
  { intros [|c s] Hs H; [congruence|]. cbn. apply negb_true_iff, H. now left. }
  split; apply G; auto.
  - intro E. apply Hne. apply (f_equal (@rev char)) in E. now rewrite rev_involutive in E.
  - intros c Hc. apply F. now apply in_rev.
Qed.

Lemma spaceFree_run (t : jsstring) :
  free isSpace t ->
  forall c, In c t -> forall q s, split_matcher false Modal.whitespaceRun q (c :: s) = None.
Proof.
  unfold free. rewrite forallb_forall. intros F c Hc q s.
  specialize (F c Hc). apply negb_true_iff in F.
  unfold split_matcher, match_at, Modal.whitespaceRun. cbn [exec rest].
  now rewrite (runs_stop isSpace 0 c s F).
Qed.

Lemma space_step (w : char) (piece : jsstring) (q : nat) (rest : jsstring) :
  isSpace w = true -> headKept rest ->
  split_loop (split_matcher false Modal.whitespaceRun) 0 piece q (w :: rest)
  = rev piece :: split_loop (split_matcher false Modal.whitespaceRun) 0 [] (S q) rest.
Proof.
  intros Hw K. destruct rest as [|c s]; [destruct K|]. cbn [headKept] in K.
  cbn [split_loop].
  assert (E : split_matcher false Modal.whitespaceRun q (w :: c :: s) = Some 1).
  { unfold split_matcher, match_at, Modal.whitespaceRun. cbn [exec rest idx caps].
    rewrite (runs_step isSpace 0 w (c :: s) Hw).
    rewrite (runs_stop isSpace 1 c s K).
    cbn [skipn ordered rev app map fst snd hd_error idx]. f_equal. lia. }
  now rewrite E.
Qed.

Lemma split_loop_tags (ts : list jsstring) :
  Forall spaceFree ts -> ts <> [] ->
  forall piece q,
    split_loop (split_matcher false Modal.whitespaceRun) 0 piece q (Modal.tagsInputValue ts)
    = (rev piece ++ hd [] ts) :: tl ts.
Proof.
  unfold Modal.tagsInputValue.
  induction ts as [|t ts IH]; intros H Hne piece q; [congruence|].
  inversion H as [|? ? [Nt Ft] Hts]; subst.
  destruct ts as [|t2 ts].
  - cbn [join hd tl]. rewrite <- (app_nil_r t) at 1.
    rewrite split_loop_run by (apply spaceFree_run, Ft).
    cbn [split_loop]. rewrite rev_app_distr, rev_involutive. reflexivity.
  - rewrite join_cons by discriminate.
    rewrite split_loop_run by (apply spaceFree_run, Ft).
    change (str " " ++ join (str " ") (t2 :: ts)) with (32%N :: join (str " ") (t2 :: ts)).
    rewrite (space_step 32%N).
    + rewrite IH by (auto; discriminate).
      cbn [rev app hd tl]. rewrite rev_app_distr, rev_involutive. reflexivity.
    + reflexivity.
    + apply headKept_join. cbn [hd]. inversion Hts; subst. now apply spaceFree_kept.
Qed.

Lemma editedTags_input (ts : list jsstring) :
  Forall spaceFree ts -> Modal.editedTags (Modal.tagsInputValue ts) = ts.
Proof.
  intro H. unfold Modal.editedTags, split_re.
  destruct ts as [|t ts]; [reflexivity|].
  rewrite split_with_loop by reflexivity.
  rewrite split_loop_tags by (auto; discriminate). cbn [rev app hd tl].
  assert (E : map trim (t :: ts) = t :: ts).
  { rewrite <- (map_id (t :: ts)) at 2. apply map_ext_in. intros x Hx.
    rewrite Forall_forall in H. destruct (spaceFree_kept x (H x Hx)). now apply trim_kept. }
  change (filter truthy (map trim (t :: ts)) = t :: ts).
  rewrite E. apply forallb_filter_id. apply forallb_forall. intros x Hx.
  rewrite Forall_forall in H. destruct (H x Hx) as [Nx _]. now apply truthy_true.
Qed.

Lemma plainTags_spaceFree (tagsText : jsstring) : Forall spaceFree (plainTags tagsText).
Proof.
  apply Forall_forall. intros t Ht. split.
  - unfold plainTags in Ht. apply filter_In in Ht as [_ Ht]. now apply truthy_true.
  - apply plainTags_free in Ht. unfold free in *. rewrite forallb_forall in *.
    intros c Hc. specialize (Ht c Hc). unfold Patterns.spaceOrComma in Ht.
    apply negb_true_iff in Ht. apply orb_false_iff in Ht as [Ht _]. now rewrite Ht.
Qed.

(* ================================================================== *)
(** * More properties of the field mapping *)

Lemma streq_false (a b : jsstring) : a <> b -> streq a b = false.
Proof.
  intro H. destruct (streq a b) eqn:E; [|reflexivity]. apply streq_eq in E. contradiction.
Qed.

Lemma twoFields_distinct (k1 k2 : jsstring) (card : AnkiCard) :
  k1 <> k2 ->
  twoFields k1 k2 card = [(k1, question card); (k2, answerWithAnnotation card)].
Proof.
  intro H. unfold twoFields. cbn [obj_set].
  rewrite streq_false by (intro E; now apply H). reflexivity.
Qed.

Lemma twoFields_same (k : jsstring) (card : AnkiCard) :
  twoFields k k card = [(k, answerWithAnnotation card)].
Proof. unfold twoFields. cbn [obj_set]. now rewrite streq_refl. Qed.

Lemma twoFields_entries (k1 k2 : jsstring) (card : AnkiCard) (k v : jsstring) :
  In (k, v) (twoFields k1 k2 card) ->
  (k = k1 /\ v = question card) \/ (k = k2 /\ v = answerWithAnnotation card).
Proof.
  destruct (list_eq_dec N.eq_dec k1 k2) as [->|Hne].
  - rewrite twoFields_same. intros [E|[]]. injection E as <- <-. now right.
  - rewrite twoFields_distinct by exact Hne.
    intros [E|[E|[]]]; injection E as <- <-; auto.
Qed.

Lemma twoFields_length (k1 k2 : jsstring) (card : AnkiCard) :
  1 <= length (twoFields k1 k2 card) <= 2.
Proof.
  destruct (list_eq_dec N.eq_dec k1 k2) as [->|Hne].
  - rewrite twoFields_same. simpl. lia.
  - rewrite twoFields_distinct by exact Hne. simpl. lia.
Qed.

Lemma hasTemplate_test (names : list jsstring) (k1 k2 : jsstring) :
  arr_includes names k1 && arr_includes names k2 = true <-> hasTemplate names k1 k2.
Proof. unfold hasTemplate. now rewrite andb_true_iff, !arr_includes_In. Qed.

Lemma no_template_test (names : list jsstring) (k1 k2 : jsstring) :
  ~ hasTemplate names k1 k2 -> arr_includes names k1 && arr_includes names k2 = false.
Proof.
  intro H. destruct (arr_includes names k1 && arr_includes names k2) eqn:E; [|reflexivity].
  apply hasTemplate_test in E. contradiction.
Qed.

(** What [buildFields] returns is made of two names of the schema. *)
Lemma buildFields_keys noteType card names fields :
  buildFields noteType card names = Ok fields ->
  exists k1 k2, In k1 names /\ In k2 names /\ fields = twoFields k1 k2 card.
Proof.
  unfold buildFields.
  destruct (arr_includes names (str "Front") && arr_includes names (str "Back")) eqn:E1.
  { apply hasTemplate_test in E1 as [H1 H2]. intro H. injection H as <-. eauto. }
  destruct (arr_includes names zhFront && arr_includes names zhBack) eqn:E2.
  { apply hasTemplate_test in E2 as [H1 H2]. intro H. injection H as <-. eauto. }
  destruct (arr_includes names (str "Text") && arr_includes names (str "Extra")) eqn:E3.
  { apply hasTemplate_test in E3 as [H1 H2]. intro H. injection H as <-. eauto. }
  destruct names as [|f0 [|f1 names]]; try discriminate.
  intro H. injection H as <-. exists f0, f1. simpl. auto.
Qed.

Lemma mapFields_sound noteType card names fields :
  mapFields noteType card names = Ok fields ->
  buildFields noteType card names = Ok fields /\
  forall k v, In (k, v) fields -> trim v <> [].
Proof.
  intro H. destruct (mapFields_complete noteType card names fields H) as [Hq Ha].
  pose proof (mapFields_cases noteType card names Hq Ha) as C.
  destruct (buildFields noteType card names) as [f|e]; [|congruence].
  destruct C as [[C1 C2]|[k [v [C _]]]]; [|congruence].
  rewrite C1 in H. injection H as <-. auto.
Qed.

Lemma mapFields_filled noteType card names :
  2 <= length names ->
  answer card <> [] ->
  trim (question card) <> [] -> trim (answerWithAnnotation card) <> [] ->
  exists fields, mapFields noteType card names = Ok fields.
Proof.
  intros L Ha Tq Ta.
  assert (Hq : question card <> []) by (intro E; apply Tq; now rewrite E).
  destruct (buildFields_long noteType card names L) as [fields Hf].
  pose proof (mapFields_cases noteType card names Hq Ha) as C. rewrite Hf in C.
  destruct C as [[C _]|[k [v [_ [Hin Hv]]]]]; [eauto|]. exfalso.
  apply buildFields_keys in Hf as [k1 [k2 [_ [_ ->]]]].
  apply twoFields_entries in Hin as [[_ ->]|[_ ->]]; contradiction.
Qed.

Lemma mapFields_built noteType card names fields :
  question card <> [] -> answer card <> [] ->
  buildFields noteType card names = Ok fields ->
  (forall k v, In (k, v) fields -> trim v <> []) ->
  mapFields noteType card names = Ok fields.
Proof.
  intros Hq Ha Hf Hv.
  pose proof (mapFields_cases noteType card names Hq Ha) as C. rewrite Hf in C.
  destruct C as [[C _]|[k [v [_ [Hin Hb]]]]]; [exact C|]. exfalso. exact (Hv k v Hin Hb).
Qed.

(** On a mapping of two different keys where only the question is empty
    once trimmed, the error names the key of the question. *)
Lemma mapFields_blank_question noteType card names k1 k2 :
  question card <> [] -> answer card <> [] ->
  buildFields noteType card names = Ok (twoFields k1 k2 card) -> k1 <> k2 ->
  trim (question card) = [] -> trim (answerWithAnnotation card) <> [] ->
  mapFields noteType card names = Throw (FieldEmpty k1).
Proof.
  intros Hq Ha Hf Hne Tq Ta.
  pose proof (mapFields_cases noteType card names Hq Ha) as C. rewrite Hf in C.
  destruct C as [[_ C]|[k [v [C [Hin Hv]]]]].
  - exfalso. apply (C k1 (question card)); [|exact Tq].
    rewrite twoFields_distinct by exact Hne. now left.
  - apply twoFields_entries in Hin as [[-> _]|[_ ->]]; [exact C | contradiction].
Qed.

Lemma answerWithAnnotation_kept (card : AnkiCard) :
  headKept (answer card) -> trim (answerWithAnnotation card) <> [].
Proof. intro H. apply trim_nonempty. unfold answerWithAnnotation. now apply headKept_app. Qed.

Lemma trimmed_filled (s : jsstring) : s <> [] -> trimmed s -> trim s <> [].
Proof. intros Hne Ht. now rewrite Ht. Qed.

(** A card with both sides filled and trimmed has a note on every schema
    of two names or more. *)
Lemma noteOfCard_normal deck noteType names card :
  question card <> [] -> answer card <> [] -> normalCard card ->
  2 <= length names ->
  exists fields,
    mapFields noteType card names = Ok fields /\
    noteOfCard deck noteType names card
    = Ok (mkNote deck noteType fields
                 (match tags card with Some t => t | None => [] end) false).
Proof.
  intros Hq Ha [Tq [Ta _]] L.
  destruct (mapFields_filled noteType card names L Ha) as [fields Hf].
  - now apply trimmed_filled.
  - apply answerWithAnnotation_kept. now apply trimmed_kept.
  - exists fields. split; [exact Hf|]. unfold noteOfCard. now rewrite Hf.
Qed.

(* ================================================================== *)
(** * Properties of the selection dialog *)

Lemma editedTags_spaceFree (value : jsstring) : Forall spaceFree (Modal.editedTags value).
Proof.
  apply Forall_forall. intros t Ht. unfold Modal.editedTags in Ht.
  apply filter_In in Ht as [Ht Hne]. split; [now apply truthy_true|].
  apply in_map_iff in Ht as [x [<- Hx]].
  apply (free_occurs isSpace (trim x) x (trim_occurs x)).
  refine (split_with_free _ isSpace _ value x Hx).
  intros q c s Hc. now apply rep_matcher_taken.
Qed.

Lemma assign_length {A : Type} (arr : list A) :
  forall index v arr', Modal.assign arr index v = Some arr' -> length arr' = length arr.
Proof.
  induction arr as [|x arr IH]; intros [|i] v arr' H; cbn [Modal.assign] in H; try discriminate.
  - now injection H as <-.
  - destruct (Modal.assign arr i v) as [r|] eqn:E; [|discriminate].
    injection H as <-. simpl. f_equal. exact (IH i v r E).
Qed.

Lemma assign_some {A : Type} (arr : list A) :
  forall index v, index < length arr -> exists arr', Modal.assign arr index v = Some arr'.
Proof.
  induction arr as [|x arr IH]; intros [|i] v L; simpl in L; try lia; cbn [Modal.assign].
  - eauto.
  - destruct (IH i v) as [r ->]; [lia|]. cbn. eauto.
Qed.

Lemma update_length (cs cs' : list AnkiCard) (index : nat) (f : AnkiCard -> AnkiCard) :
  Modal.update cs index f = Some cs' -> length cs' = length cs.
Proof.
  unfold Modal.update. destruct (nth_error cs index); [|discriminate]. apply assign_length.
Qed.

Lemma update_some (cs : list AnkiCard) (index : nat) (f : AnkiCard -> AnkiCard) :
  index < length cs -> exists cs', Modal.update cs index f = Some cs'.
Proof.
  intro L. unfold Modal.update. destruct (nth_error cs index) eqn:E.
  - now apply assign_some.
  - apply nth_error_None in E. lia.
Qed.

Lemma open_wellSized parsed deck note : wellSized (Modal.open parsed deck note).
Proof. split; cbn; [apply length_map | reflexivity]. Qed.

Lemma handle_wellSized (e : Modal.event) (st st' : Modal.state) :
  wellSized st -> Modal.handle e st = Some st' ->
  wellSized st' /\ Modal.opened st' = Modal.opened st.
Proof.
  intros [H1 H2]. unfold wellSized.
  destruct e; cbn [Modal.handle];
    repeat match goal with
           | |- context [nth_error ?l ?i] => destruct (nth_error l i)
           | |- context [if ?b then _ else _] => destruct b
           end; try discriminate.
  - intro H. injection H as <-. cbn. rewrite length_map. auto.
  - destruct (Modal.assign (Modal.selectedCards st) index checked) as [sel|] eqn:E;
      [|discriminate].
    intro H. injection H as <-. cbn. apply assign_length in E. rewrite E. auto.
  - destruct (Modal.update (Modal.cards st) index (setQuestion value)) as [cs|] eqn:E;
      [|discriminate].
    intro H. injection H as <-. cbn. apply update_length in E. rewrite E. auto.
  - destruct (Modal.update (Modal.cards st) index (setAnswer value)) as [cs|] eqn:E;
      [|discriminate].
    intro H. injection H as <-. cbn. apply update_length in E. rewrite E. auto.
  - destruct (Modal.update (Modal.cards st) index (setAnnotation (Some value))) as [cs|] eqn:E;
      [|discriminate].
    intro H. injection H as <-. cbn. apply update_length in E. rewrite E. auto.
  - destruct (Modal.update (Modal.cards st) index (setTags (Modal.editedTags value)))
      as [cs|] eqn:E; [|discriminate].
    intro H. injection H as <-. cbn. apply update_length in E. rewrite E. auto.
  - intro H. injection H as <-. cbn. auto.
  - intro H. injection H as <-. cbn. auto.
Qed.

Lemma run_wellSized (es : list Modal.event) :
  forall st st', wellSized st -> Modal.run es st = Some st' ->
                 wellSized st' /\ Modal.opened st' = Modal.opened st.
Proof.
  induction es as [|e es IH]; intros st st' W; cbn [Modal.run].
  - intro H. injection H as <-. auto.
  - destruct (Modal.handle e st) as [st1|] eqn:E; [|discriminate].
    destruct (handle_wellSized e st st1 W E) as [W1 O1]. intro H.
    destruct (IH st1 st' W1 H) as [W' O']. split; [exact W' | congruence].
Qed.

(** The filter on indices keeps the cards whose flag is set. *)
Lemma selected_masked (cs : list AnkiCard) :
  forall pre sel,
    map snd (filter (fun ic => nth (fst ic) (pre ++ sel) false)
                    (combine (seq (length pre) (length cs)) cs))
    = masked cs sel.
Proof.
  induction cs as [|c cs IH]; intros pre sel; [reflexivity|].
  cbn [length seq combine filter fst].
  rewrite app_nth2 by lia. rewrite Nat.sub_diag.
  destruct sel as [|b sel].
  - cbn [nth masked]. specialize (IH (pre ++ [false]) []).
    rewrite length_app in IH. cbn [length] in IH. rewrite Nat.add_1_r in IH.
    replace ((pre ++ [false]) ++ []) with (pre ++ [false]) in IH by now rewrite app_nil_r.
    rewrite app_nil_r.
    transitivity (map snd (filter (fun ic => nth (fst ic) (pre ++ [false]) false)
                                  (combine (seq (S (length pre)) (length cs)) cs))).
    + f_equal. apply filter_ext_in. intros [i x] Hi. cbn [fst].
      apply in_combine_l, in_seq in Hi.
      rewrite nth_overflow by lia. rewrite nth_overflow; [reflexivity|].
      rewrite length_app. cbn [length]. lia.
    + rewrite IH. now destruct cs.
  - cbn [nth masked]. specialize (IH (pre ++ [b]) sel).
    rewrite length_app in IH. cbn [length] in IH. rewrite Nat.add_1_r in IH.
    rewrite <- app_assoc in IH. cbn [app] in IH.
    destruct b; cbn [map snd app]; now rewrite IH.
Qed.

Lemma selectedCardsList_masked (st : Modal.state) :
  Modal.selectedCardsList st = masked (Modal.cards st) (Modal.selectedCards st).
Proof. exact (selected_masked (Modal.cards st) [] (Modal.selectedCards st)). Qed.

Lemma masked_all (cs : list AnkiCard) (sel : list bool) :
  length sel = length cs -> masked cs (map (fun _ => true) sel) = cs.
Proof.
  revert sel. induction cs as [|c cs IH]; intros [|b sel] L; simpl in L; try lia;
    [reflexivity|]. cbn [map masked app]. f_equal. apply IH. lia.
Qed.

Lemma masked_none (cs : list AnkiCard) (sel : list bool) :
  masked cs (map (fun _ => false) sel) = [].
Proof.
  revert sel. induction cs as [|c cs IH]; intros [|b sel]; try reflexivity.
  cbn [map masked app]. apply IH.
Qed.

Lemma masked_in (cs : list AnkiCard) (sel : list bool) (c : AnkiCard) :
  In c (masked cs sel) -> In c cs.
Proof.
  revert sel. induction cs as [|x cs IH]; intros [|b sel]; try (intros []).
  cbn [masked]. intro H. apply in_app_or in H as [H|H].
  - destruct b; [|destruct H]. destruct H as [<-|[]]. now left.
  - right. exact (IH sel H).
Qed.

Lemma masked_length (cs : list AnkiCard) (sel : list bool) :
  length sel = length cs -> length (masked cs sel) = count_occ bool_dec sel true.
Proof.
  revert sel. induction cs as [|x cs IH]; intros [|b sel] L; simpl in L; try lia;
    [reflexivity|].
  cbn [masked]. rewrite length_app, IH by lia. destruct b; reflexivity.
Qed.

(* ================================================================== *)
(** * Properties of the request to the model *)

Lemma buildRequest_known (settings : Api.AnkifySettings) (text : jsstring) :
  knownModel (Api.apiModel settings) ->
  exists req,
    Api.buildRequest settings text = inr req /\
    Api.messages (Api.requestBody req)
    = [Api.mkMessage (str "user") (Api.customPrompt settings ++ text)] /\
    carriesKey req (Api.selectedApiKey settings).
Proof.
  unfold knownModel, Api.buildRequest, Api.selectedApiKey, carriesKey.
  intros [E|[E|E]]; rewrite E; cbn [streq str]; eexists; (split; [reflexivity|]);
    (split; [reflexivity|]).
  - left. reflexivity.
  - left. reflexivity.
  - right. reflexivity.
Qed.

Lemma selectedApiKey_unknown (settings : Api.AnkifySettings) :
  ~ knownModel (Api.apiModel settings) -> Api.selectedApiKey settings = [].
Proof.
  unfold knownModel, Api.selectedApiKey. intro H.
  destruct (streq (Api.apiModel settings) (str "deepseek")) eqn:E1;
    [apply streq_eq in E1; tauto|].
  destruct (streq (Api.apiModel settings) (str "openai")) eqn:E2;
    [apply streq_eq in E2; tauto|].
  destruct (streq (Api.apiModel settings) (str "claude")) eqn:E3;
    [apply streq_eq in E3; tauto|].
  reflexivity.
Qed.

Lemma providerName_unknown (m : jsstring) : ~ knownModel m -> Api.providerName m = str "Claude".
Proof.
  unfold knownModel, Api.providerName. intro H.
  destruct (streq m (str "deepseek")) eqn:E1; [apply streq_eq in E1; tauto|].
  destruct (streq m (str "openai")) eqn:E2; [apply streq_eq in E2; tauto|].
  reflexivity.
Qed.

Lemma knownModel_dec (m : jsstring) : knownModel m \/ ~ knownModel m.
Proof.
  unfold knownModel.
  destruct (list_eq_dec N.eq_dec m (str "deepseek")); [tauto|].
  destruct (list_eq_dec N.eq_dec m (str "openai")); [tauto|].
  destruct (list_eq_dec N.eq_dec m (str "claude")); tauto.
Qed.

(* ================================================================== *)
(** * The single-line pattern *)

Lemma exec_alt_iff ic r1 r2 st st' :
  In st' (exec ic (Alt r1 r2) st) <-> In st' (exec ic r1 st) \/ In st' (exec ic r2 st).
Proof. cbn [exec]. apply in_app_iff. Qed.

Lemma exec_eol_iff ic st st' :
  In st' (exec ic Eol st) <-> rest st = [] /\ st' = st.
Proof.
  cbn [exec]. destruct (rest st); simpl; split.
  - intros [<-|[]]. now split.
  - intros [_ ->]. now left.
  - intros [].
  - intros [E _]. discriminate E.
Qed.

Lemma exec_grp_iff ic n r st st' :
  In st' (exec ic (Grp n r) st) <->
  exists m, In m (exec ic r st) /\ st' = setCap n (firstn (idx m - idx st) (rest st)) m.
Proof.
  cbn [exec]. rewrite in_map_iff. split; intros [m [H1 H2]]; exists m; split; auto.
Qed.

(** A lazy or greedy run inside a group: the group holds the run. *)
Lemma exec_grp_rep ic n g k cs st st' :
  In st' (exec ic (Grp n (Rep g k cs)) st) <->
  exists a, rest st = a ++ rest st' /\ forallb cs a = true /\ k <= length a /\
            idx st' = idx st + length a /\ caps st' = (n, a) :: caps st.
Proof.
  rewrite exec_grp_iff. split.
  - intros [m [H ->]]. apply exec_rep_iff in H as [a [E [F [L [I C]]]]].
    exists a. cbn [setCap rest idx caps]. repeat split; try assumption.
    rewrite I, E, C. replace (idx st + length a - idx st) with (length a) by lia.
    now rewrite firstn_app, Nat.sub_diag, firstn_all, app_nil_r.
  - intros [a [E [F [L [I C]]]]].
    exists (MState (idx st') (rest st') (caps st)). split.
    + apply exec_rep_iff. exists a. cbn [rest idx caps]. repeat split; assumption.
    + destruct st' as [i' r' c']. cbn [rest idx caps] in *. unfold setCap.
      cbn [rest idx caps]. rewrite I, E, C.
      replace (idx st + length a - idx st) with (length a) by lia.
      now rewrite firstn_app, Nat.sub_diag, firstn_all, app_nil_r.
Qed.

Lemma qa_full :
  Patterns.qa =
  Seq (Seq (Chr 81%N) (Chr 58%N))
   (Seq (Rep true 0 isSpace)
    (Seq (Grp 1 (Rep false 0 dot))
     (Seq (Rep true 0 isSpace)
      (Seq (Seq (Chr 65%N) (Chr 58%N))
       (Seq (Rep true 0 isSpace)
        (Seq (Grp 2 (Rep false 0 dot))
         (Alt (Seq (Rep true 0 isSpace) (lit (str "annotation:")))
              (Alt Eol (Seq (Rep true 0 isSpace) (lit (str "tags:"))))))))))).
Proof. reflexivity. Qed.

(** ** Trimming what white space surrounds *)

Lemma dropWhile_app_all (p : char -> bool) (w s : jsstring) :
  forallb p w = true -> dropWhile p (w ++ s) = dropWhile p s.
Proof.
  induction w as [|c w IH]; [reflexivity|]. simpl.
  intro H. apply andb_true_iff in H as [-> H]. now apply IH.
Qed.

Lemma dropWhile_app_some (p : char -> bool) (s w : jsstring) :
  dropWhile p s <> [] -> dropWhile p (s ++ w) = dropWhile p s ++ w.
Proof.
  induction s as [|c s IH]; simpl; [congruence|].
  destruct (p c); [exact IH | reflexivity].
Qed.

Lemma trimStart_pad (w s : jsstring) :
  forallb isSpace w = true -> trimStart (w ++ s) = trimStart s.
Proof. apply dropWhile_app_all. Qed.

Lemma trimEnd_pad (s w : jsstring) :
  forallb isSpace w = true -> trimEnd (s ++ w) = trimEnd s.
Proof.
  intro H. unfold trimEnd. rewrite rev_app_distr.
  now rewrite dropWhile_app_all by now apply forallb_rev_true.
Qed.

Lemma trim_pad (w1 s w2 : jsstring) :
  forallb isSpace w1 = true -> forallb isSpace w2 = true ->
  trim (w1 ++ s ++ w2) = trim s.
Proof.
  intros H1 H2. unfold trim. rewrite (trimStart_pad _ _ H1). unfold trimStart.
  destruct (dropWhile isSpace s) as [|c t] eqn:E.
  - destruct (dropWhile_suffix isSpace s) as [a [Ea Fa]]. rewrite E, app_nil_r in Ea.
    subst a. rewrite dropWhile_app_all by exact Fa.
    rewrite (dropWhile_all _ _ H2). reflexivity.
  - rewrite dropWhile_app_some by (rewrite E; discriminate).
    rewrite E. now apply trimEnd_pad.
Qed.

(** ** The colons of an answered line *)

Lemma canonicalize_not_colon (c k : char) :
  canonicalize c = k -> (65 <= k)%N -> c <> 58%N.
Proof. intros H L ->. subst k. vm_compute in L. now apply L. Qed.

Lemma marker_unique (x y u v : jsstring) (a c : char) :
  ~ In 58%N x -> ~ In 58%N y -> a <> 58%N ->
  x ++ a :: 58%N :: y = u ++ c :: 58%N :: v -> u = x /\ c = a /\ v = y.
Proof.
  intros Hx Hy Ha E.
  assert (N1 : ~ In 58%N (x ++ [a])).
  { intro H. apply in_app_or in H as [H|[H|[]]]; [tauto | congruence]. }
  change (x ++ a :: 58%N :: y) with (x ++ [a] ++ 58%N :: y) in E.
  change (u ++ c :: 58%N :: v) with (u ++ [c] ++ 58%N :: v) in E.
  rewrite !app_assoc in E.
  destruct (cut_unique 58%N (x ++ [a]) y (u ++ [c]) v N1 Hy E) as [E1 E2].
  apply app_inj_tail in E1 as [-> ->]. auto.
Qed.

Lemma marker_cases (pre x y u v : jsstring) (q a c : char) :
  ~ In 58%N pre -> ~ In 58%N x -> ~ In 58%N y -> q <> 58%N -> a <> 58%N ->
  pre ++ q :: 58%N :: x ++ a :: 58%N :: y = u ++ c :: 58%N :: v ->
  (u = pre /\ c = q /\ v = x ++ a :: 58%N :: y) \/
  (u = pre ++ q :: 58%N :: x /\ c = a /\ v = y).
Proof.
  intros Hp Hx Hy Hq Ha E.
  assert (N1 : ~ In 58%N (pre ++ [q])).
  { intro H. apply in_app_or in H as [H|[H|[]]]; [tauto | congruence]. }
  change (pre ++ q :: 58%N :: x ++ a :: 58%N :: y)
    with (pre ++ [q] ++ 58%N :: x ++ a :: 58%N :: y) in E.
  change (u ++ c :: 58%N :: v) with (u ++ [c] ++ 58%N :: v) in E.
  rewrite !app_assoc in E.
  destruct (cut_cases 58%N (pre ++ [q]) N1 _ _ _ E) as [[E1 E2]|[u' [E1 E2]]].
  - left. apply app_inj_tail in E1 as [-> ->]. auto.
  - right.
    assert (N2 : ~ In 58%N (x ++ [a])).
    { intro H. apply in_app_or in H as [H|[H|[]]]; [tauto | congruence]. }
    change (x ++ a :: 58%N :: y) with (x ++ [a] ++ 58%N :: y) in E2.
    rewrite app_assoc in E2.
    destruct (cut_cases 58%N (x ++ [a]) N2 _ _ _ E2) as [[E3 E4]|[u'' [E3 E4]]].
    + subst u' v.
      assert (E5 : u ++ [c] = (pre ++ q :: 58%N :: x) ++ [a]).
      { rewrite E1, <- !app_assoc. reflexivity. }
      apply app_inj_tail in E5 as [-> ->]. auto.
    + exfalso. apply Hy. rewrite E4. apply in_or_app. right. now left.
Qed.

(** A literal that ends with a letter and a colon is matched, in either
    case, by a text that ends with that letter and a colon. *)
Lemma ciEqual_marker (m s : jsstring) (k : char) :
  ciEqual m (s ++ [k; 58%N]) ->
  exists m' c, m = m' ++ [c; 58%N] /\ canonicalize c = canonicalize k.
Proof.
  intro H. apply Forall2_app_inv_r in H as [m1 [m2 [H1 [H2 ->]]]].
  inversion H2 as [|c k' t t' Hc H3]; subst.
  inversion H3 as [|d k'' t2 t2' Hd H4]; subst.
  inversion H4; subst.
  exists m1, c. split; [|exact Hc]. do 3 f_equal.
  apply (canonicalize_fixed 58%N d); [left; reflexivity | exact Hd].
Qed.

Lemma ciEqual_has_colon (m s : jsstring) : ciEqual m s -> In 58%N s -> In 58%N m.
Proof.
  induction 1 as [|c d m s Hcd H IH]; [intros []|].
  intros [->|Hin]; [|right; now apply IH].
  left. apply (canonicalize_fixed 58%N c); [left; reflexivity | exact Hcd].
Qed.

Section AnsweredLine.
Variables (pre x y : jsstring) (q a : char).
Hypothesis Hq : canonicalize q = 81%N.
Hypothesis Ha : canonicalize a = 65%N.
Hypothesis Hpre : ~ In 58%N pre.
Hypothesis Hx : ~ In 58%N x.
Hypothesis Hy : ~ In 58%N y.

Lemma answered_q_colon : q <> 58%N.
Proof. apply (canonicalize_not_colon q 81%N Hq). discriminate. Qed.

Lemma answered_a_colon : a <> 58%N.
Proof. apply (canonicalize_not_colon a 65%N Ha). discriminate. Qed.

(** The letter before a colon of the line is that of a marker. *)
Lemma answered_letters (u v : jsstring) (c : char) :
  (markedLine pre q x a y) = u ++ c :: 58%N :: v -> canonicalize c = 81%N \/ canonicalize c = 65%N.
Proof.
  intro E.
  destruct (marker_cases pre x y u v q a c Hpre Hx Hy answered_q_colon answered_a_colon E)
    as [[_ [-> _]]|[_ [-> _]]]; auto.
Qed.

(** No pattern that opens with another marker matches in the line. *)
Lemma answered_no_field (r tail : regex) (s : jsstring) (k : char) :
  r = Seq (lit (s ++ [k; 58%N])) tail ->
  canonicalize k <> 81%N -> canonicalize k <> 65%N ->
  exec_match true r (markedLine pre q x a y) = None.
Proof.
  intros -> K1 K2. unfold exec_match.
  destruct (search true (Seq (lit (s ++ [k; 58%N])) tail) 0 (markedLine pre q x a y)) as [st'|] eqn:E;
    [|reflexivity].
  exfalso. apply search_some in E as [u [suf [E H]]].
  apply exec_seq_iff in H as [m [H _]].
  apply exec_lit_inv in H as [w [Ew Cw]]; [|now destruct s].
  cbn [rest] in Ew. apply ciEqual_marker in Cw as [w' [c [-> Cc]]].
  assert (E' : (markedLine pre q x a y) = (u ++ w') ++ c :: 58%N :: rest m).
  { rewrite E, Ew, <- !app_assoc. reflexivity. }
  apply answered_letters in E'. rewrite Cc in E'. tauto.
Qed.

(** Every way to match the single-line pattern in the line captures [x]
    and [y], up to the white space around them. *)
Lemma answered_captures (u suf : jsstring) (i : nat) (st' : mstate) :
  (markedLine pre q x a y) = u ++ suf ->
  In st' (exec true Patterns.qa (MState i suf [])) ->
  exists g1 g2, caps st' = [(2, g2); (1, g1)] /\ trim g1 = trim x /\ trim g2 = trim y.
Proof.
  intros E H. rewrite qa_full in H.
  apply exec_seq_iff in H as [m1 [H1 H]].
  apply exec_marker_iff in H1 as [d [t1 [E1 [Cd ->]]]]; [|reflexivity].
  cbn [rest idx caps] in E1. subst suf.
  apply exec_seq_iff in H as [m2 [H2 H]].
  apply exec_rep_iff in H2 as [w1 [E2 [F2 [_ [_ C2]]]]]. cbn [rest caps] in E2, C2.
  apply exec_seq_iff in H as [m3 [H3 H]].
  apply exec_grp_rep in H3 as [g1 [E3 [_ [_ [_ C3]]]]]. rewrite C2 in C3.
  apply exec_seq_iff in H as [m4 [H4 H]].
  apply exec_rep_iff in H4 as [w2 [E4 [F4 [_ [_ C4]]]]]. rewrite C3 in C4.
  apply exec_seq_iff in H as [m5 [H5 H]].
  apply exec_marker_iff in H5 as [d' [t5 [E5 [Cd' ->]]]]; [|reflexivity].
  apply exec_seq_iff in H as [m6 [H6 H]].
  apply exec_rep_iff in H6 as [w3 [E6 [F6 [_ [_ C6]]]]]. cbn [rest caps] in E6, C6.
  rewrite C4 in C6.
  apply exec_seq_iff in H as [m7 [H7 H]].
  apply exec_grp_rep in H7 as [g2 [E7 [_ [_ [_ C7]]]]]. rewrite C6 in C7.
  assert (T1 : t1 = (w1 ++ g1 ++ w2) ++ d' :: 58%N :: t5).
  { rewrite E2, E3, E4, E5, <- !app_assoc. reflexivity. }
  assert (T5 : t5 = w3 ++ g2 ++ rest m7).
  { rewrite E6, E7. reflexivity. }
  destruct (marker_cases pre x y u t1 q a d Hpre Hx Hy answered_q_colon answered_a_colon E)
    as [[_ [_ Et]]|[_ [_ Et]]].
  2:{ exfalso. apply Hy. rewrite <- Et, T1. apply in_or_app. right. right. now left. }
  rewrite T1 in Et. symmetry in Et.
  destruct (marker_unique x y _ _ a d' Hx Hy answered_a_colon Et) as [Ex [_ Ey]].
  assert (Field : forall lt : jsstring,
             In 58%N lt -> lt <> [] ->
             In st' (exec true (Seq (Rep true 0 isSpace) (lit lt)) m7) -> False).
  { intros lt Hin Hne H'. apply exec_seq_iff in H' as [m8 [H8 H']].
    apply exec_rep_iff in H8 as [w [E8 _]].
    apply (exec_lit_inv lt Hne) in H' as [w' [Ew Cw]].
    apply Hy. rewrite <- Ey, T5, E8, Ew.
    apply in_or_app. right. apply in_or_app. right. apply in_or_app. right.
    apply in_or_app. left. exact (ciEqual_has_colon w' lt Cw Hin). }
  assert (Tail : rest m7 = [] /\ caps st' = caps m7).
  { apply exec_alt_iff in H as [H|H]; [|apply exec_alt_iff in H as [H|H]].
    - exfalso. apply (Field (str "annotation:")); [|discriminate|exact H].
      apply in_or_app with (l := str "annotation"). right. now left.
    - apply exec_eol_iff in H as [H ->]. auto.
    - exfalso. apply (Field (str "tags:")); [|discriminate|exact H].
      apply in_or_app with (l := str "tags"). right. now left. }
  destruct Tail as [R C]. rewrite R, app_nil_r in T5.
  exists g1, g2. rewrite C, C7. split; [reflexivity|]. split.
  - rewrite <- Ex. symmetry. now apply trim_pad.
  - rewrite <- Ey, T5. symmetry.
    rewrite <- (app_nil_r g2) at 1. now apply trim_pad.
Qed.

(** The pattern matches in the line. *)
Lemma answered_match :
  singleLine x -> singleLine y ->
  exists g1 g2,
    exec_match true Patterns.qa (markedLine pre q x a y) = Some [(2, g2); (1, g1)] /\
    trim g1 = trim x /\ trim g2 = trim y.
Proof.
  intros Sx Sy.
  assert (S : exists st', In st' (exec true Patterns.qa
                  (MState (0 + length pre) (q :: 58%N :: x ++ a :: 58%N :: y) []))).
  { exists (MState (S (S (S (S (0 + length pre) + length x))) + length y) []
                   [(2, y); (1, x)]).
    rewrite qa_full.
    apply exec_seq_iff. eexists. split.
    { apply exec_marker_iff; [reflexivity|]. exists q, (x ++ a :: 58%N :: y).
      cbn [rest idx caps]. repeat split. exact Hq. }
    apply exec_seq_iff. eexists. split; [apply exec_rep_zero|].
    apply exec_seq_iff.
    exists (MState (S (S (0 + length pre)) + length x) (a :: 58%N :: y) [(1, x)]). split.
    { apply exec_grp_rep. exists x. cbn [rest idx caps]. repeat split; [exact Sx | lia]. }
    apply exec_seq_iff. eexists. split; [apply exec_rep_zero|].
    apply exec_seq_iff. eexists. split.
    { apply exec_marker_iff; [reflexivity|]. exists a, y.
      cbn [rest idx caps]. repeat split. exact Ha. }
    apply exec_seq_iff. eexists. split; [apply exec_rep_zero|].
    apply exec_seq_iff.
    exists (MState (S (S (S (S (0 + length pre) + length x))) + length y) []
                   [(2, y); (1, x)]). split.
    { apply exec_grp_rep. exists y. cbn [rest idx caps].
      rewrite app_nil_r. repeat split; [exact Sy | lia]. }
    apply exec_alt_iff. right. apply exec_alt_iff. left.
    apply exec_eol_iff. now split. }
  destruct S as [st' S].
  destruct (search_found true Patterns.qa pre 0 _ st' S) as [st'' F].
  destruct (search_some true Patterns.qa _ 0 st'' F) as [u [suf [E H]]].
  destruct (answered_captures u suf _ st'' E H) as [g1 [g2 [C [T1 T2]]]].
  exists g1, g2. unfold exec_match. unfold markedLine. rewrite F. cbn [option_map].
  now rewrite C.
Qed.

(** The body of the loop on such a line: one card, without annotation
    and without tags. *)
Lemma answered_fallback (cards : list AnkiCard) :
  singleLine x -> singleLine y ->
  fallbackLine cards (markedLine pre q x a y) = Ok (cards ++ [qaCard (trim x) (trim y)]).
Proof.
  intros Sx Sy. destruct (answered_match Sx Sy) as [g1 [g2 [E [T1 T2]]]].
  unfold fallbackLine. rewrite E.
  rewrite (answered_no_field Patterns.annotationField _ (str "annotatio") 110%N eq_refl)
    by discriminate.
  rewrite (answered_no_field Patterns.tagsField _ (str "tag") 115%N eq_refl)
    by discriminate.
  cbn [group Nat.eqb option_map orEmpty]. now rewrite T1, T2.
Qed.

End AnsweredLine.

(** ** Texts of answered lines *)

Lemma answered_line (cards : list AnkiCard) (line x y : jsstring) :
  answered line x y -> fallbackLine cards line = Ok (cards ++ [lineCard (x, y)]).
Proof.
  intros [pre [q [a [-> [Hq [Ha [Hp [Hx [Hy [_ [Sx Sy]]]]]]]]]]].
  exact (answered_fallback pre x y q a Hq Ha Hp Hx Hy cards Sx Sy).
Qed.

Lemma foldM_answered (lines : list jsstring) (pairs : list (jsstring * jsstring)) :
  Forall2 (fun l xy => answered l (fst xy) (snd xy)) lines pairs ->
  forall acc, foldM fallbackLine lines acc = Ok (acc ++ map lineCard pairs).
Proof.
  induction 1 as [|l [x y] lines pairs Hl H IH]; intro acc; cbn [foldM map].
  - now rewrite app_nil_r.
  - rewrite (answered_line acc l x y Hl). cbn [bind]. rewrite IH, <- app_assoc. reflexivity.
Qed.

Lemma canonicalize_LF (c k : char) : canonicalize c = k -> (65 <= k)%N -> c <> LF.
Proof. intros H L ->. subst k. vm_compute in L. now apply L. Qed.

Lemma answered_no_LF (line x y : jsstring) : answered line x y -> ~ In LF line.
Proof.
  intros [pre [q [a [-> [Hq [Ha [_ [_ [_ [Lp [Sx Sy]]]]]]]]]]] H.
  unfold markedLine in H.
  apply in_app_or in H as [H|[H|[H|H]]]; [tauto| | |].
  - exact (canonicalize_LF q 81%N Hq ltac:(discriminate) H).
  - discriminate H.
  - apply in_app_or in H as [H|[H|[H|H]]].
    + exact (singleLine_no_LF x Sx H).
    + exact (canonicalize_LF a 65%N Ha ltac:(discriminate) H).
    + discriminate H.
    + exact (singleLine_no_LF y Sy H).
Qed.

Lemma answered_colon (line x y : jsstring) : answered line x y -> In 58%N line.
Proof.
  intros [pre [q [a [-> _]]]]. unfold markedLine.
  apply in_or_app. right. right. now left.
Qed.

(** An answered line does not open with a marker [A:]. *)
Lemma answered_not_answer (line x y : jsstring) (more : list jsstring)
      (c : char) (post : jsstring) :
  answered line x y -> joinLines (line :: more) = c :: 58%N :: post ->
  canonicalize c = 65%N -> False.
Proof.
  intros [pre [q [a [-> [Hq [_ [Hp _]]]]]]] E Cc.
  assert (X : exists tail, joinLines (markedLine pre q x a y :: more)
                           = pre ++ q :: 58%N :: tail).
  { unfold markedLine. destruct more as [|m more]; cbn [joinLines join];
      rewrite <- ?app_assoc; cbn [app]; eexists; reflexivity. }
  destruct X as [tail X]. rewrite X in E.
  destruct pre as [|p1 [|p2 pre]]; cbn [app] in E.
  - injection E as -> _. rewrite Hq in Cc. discriminate Cc.
  - injection E as _ E _. revert E. apply (canonicalize_not_colon q 81%N Hq). discriminate.
  - injection E as _ E _. apply Hp. right. now left.
Qed.

Lemma answered_not_multiLine (lines : list jsstring) (pairs : list (jsstring * jsstring)) :
  Forall2 (fun l xy => answered l (fst xy) (snd xy)) lines pairs ->
  isMultiLineFormat (joinLines lines) = false.
Proof.
  intro H.
  assert (A : forall l, In l lines -> exists x y, answered l x y).
  { intros l Hl. clear - H Hl. induction H as [|l0 [x y] ls ps H0 H IH]; [destruct Hl|].
    destruct Hl as [<-|Hl]; [now exists x, y | now apply IH]. }
  destruct (isMultiLineFormat (joinLines lines)) eqn:E; [|reflexivity].
  exfalso. apply isMultiLineFormat_iff in E.
  destruct E as [pre [q [mid [a [post [E [_ [Ca _]]]]]]]].
  assert (E' : joinLines lines = (pre ++ q :: 58%N :: mid) ++ LF :: a :: 58%N :: post).
  { rewrite E, <- app_assoc. reflexivity. }
  apply lines_after_LF in E'.
  - destruct E' as [l0 [ls1 [l [ls2 [El Es]]]]].
    destruct (A l) as [x [y Hl]]; [rewrite El; apply in_or_app; right; now left|].
    exact (answered_not_answer l x y ls2 a post Hl (eq_sym Es) Ca).
  - apply Forall_forall. intros l Hl. destruct (A l Hl) as [x [y Hxy]].
    exact (answered_no_LF l x y Hxy).
Qed.

(** Answered lines, one per line: one card per line, in order. *)
Lemma parse_answered (lines : list jsstring) (pairs : list (jsstring * jsstring)) :
  Forall2 (fun l xy => answered l (fst xy) (snd xy)) lines pairs ->
  parseAnkiCards (joinLines lines) = Ok (map lineCard pairs).
Proof.
  intro H. unfold parseAnkiCards. rewrite (answered_not_multiLine lines pairs H).
  assert (A : forall l, In l lines -> exists x y, answered l x y).
  { intros l Hl. clear - H Hl. induction H as [|l0 [x y] ls ps H0 H IH]; [destruct Hl|].
    destruct Hl as [<-|Hl]; [now exists x, y | now apply IH]. }
  destruct lines as [|l0 lines].
  { inversion H; subst. reflexivity. }
  assert (Hlines : nonBlankLines (joinLines (l0 :: lines)) = l0 :: lines).
  { unfold nonBlankLines. rewrite split_lines; [| |discriminate].
    - apply forallb_filter_id. apply forallb_forall. intros l Hl.
      destruct (A l Hl) as [x [y Hxy]].
      apply colon_not_blank. exact (answered_colon l x y Hxy).
    - apply Forall_forall. intros l Hl. destruct (A l Hl) as [x [y Hxy]].
      exact (answered_no_LF l x y Hxy). }
  rewrite Hlines. cbn [length Nat.eqb elem nth_error bind].
  destruct (A l0 (or_introl eq_refl)) as [x [y Hxy]].
  rewrite (colon_not_header l0 (answered_colon l0 x y Hxy)).
  exact (foldM_answered (l0 :: lines) pairs H []).
Qed.

(* ================================================================== *)
(** * Further properties, by function *)

(** ** [parseAnkiCards] *)

(** X1. Whatever the branch, every card that [parseAnkiCards] returns has
    a question and an answer that [trim] leaves alone, an annotation, if
    any, that [trim] leaves alone, and tags, if any, that are not empty
    and that [trim] leaves alone. *)
Theorem parsed_cards_are_trimmed (text : jsstring) (cards : list AnkiCard) :
  parseAnkiCards text = Ok cards ->
  forall c, In c cards ->
    trim (question c) = question c /\ trim (answer c) = answer c /\
    (forall n, annotation c = Some n -> trim n = n) /\
    (forall ts t, tags c = Some ts -> In t ts -> t <> [] /\ trim t = t).
Proof.
  intros H c Hc. apply parse_normal in H. rewrite Forall_forall in H.
  destruct (H c Hc) as [Hq [Ha [Hn Ht]]]. repeat split; try assumption.
  - specialize (Ht ts H0). rewrite Forall_forall in Ht. now destruct (Ht t H1).
  - specialize (Ht ts H0). rewrite Forall_forall in Ht. now destruct (Ht t H1).
Qed.

Lemma parsed_cards_are_trimmed_witness :
  parseAnkiCards (str "  Q:   x  A:  y   annotation:  n   tags:  # a b #c ##  ")
  = Ok [mkCard (str "x") (str "y") (Some (str "n")) (Some [str "a b"; str "c"])]
  /\ trim (str "x") = str "x" /\ trim (str "y") = str "y"
  /\ trim (str "a b") = str "a b".
Proof.
  assert (E : parseAnkiCards (str "  Q:   x  A:  y   annotation:  n   tags:  # a b #c ##  ")
              = Ok [mkCard (str "x") (str "y") (Some (str "n"))
                           (Some [str "a b"; str "c"])]).
  { vm_compute. reflexivity. }
  destruct (parsed_cards_are_trimmed _ _ E _ (or_introl eq_refl)) as [Hq [Ha [_ Ht]]].
  split; [exact E|]. split; [exact Hq|]. split; [exact Ha|].
  exact (proj2 (Ht _ (str "a b") eq_refl (or_introl eq_refl))).
Defined.

(** X2. A text of white space only, the empty text included, has no card. *)
Theorem blank_text_has_no_card (text : jsstring) :
  forallb isSpace text = true -> parseAnkiCards text = Ok [].
Proof.
  intro H. unfold parseAnkiCards.
  rewrite (blank_not_multiLine text H), (nonBlankLines_blank text H). reflexivity.
Qed.

Lemma blank_text_has_no_card_witness :
  parseAnkiCards ([32; 10; 9; 13; 10; 160; 12288]%N) = Ok [].
Proof. apply blank_text_has_no_card. vm_compute. reflexivity. Defined.

(** X3. Outside the multi-line branch there is at most one card per
    non-blank line, and in the table branch the header line gives none:
    the cards are fewer than the non-blank lines. *)
Theorem at_most_one_card_per_line (text : jsstring) (cards : list AnkiCard) :
  isMultiLineFormat text = false ->
  parseAnkiCards text = Ok cards ->
  length cards <= length (nonBlankLines text) /\
  (forall l0, hd_error (nonBlankLines text) = Some l0 ->
              isTableFormat (trim l0) = true ->
              length cards < length (nonBlankLines text)).
Proof.
  intros Hm. unfold parseAnkiCards. rewrite Hm.
  destruct (nonBlankLines text) as [|l0 ls] eqn:El.
  { intro H. injection H as <-. split; [simpl; lia | discriminate]. }
  cbn [length Nat.eqb elem nth_error bind].
  destruct (isTableFormat (trim l0)) eqn:Et; intro H.
  - apply (foldM_length (tableRow (l0 :: ls))) in H.
    + rewrite length_seq in H. simpl in H. split; [simpl; lia|]. intros _ _ _. simpl. lia.
    + intros b i b'. apply tableRow_length.
  - apply (foldM_length fallbackLine) in H.
    + split; [exact H|]. intros l E. injection E as <-. congruence.
    + intros b l b'. apply fallbackLine_length.
Qed.

Lemma at_most_one_card_per_line_witness :
  length [mkCard (str "a") (str "b") None None]
  <= length (nonBlankLines (str "a:::b" ++ [LF; LF] ++ str "nothing here")).
Proof.
  apply (at_most_one_card_per_line
           (str "a:::b" ++ [LF; LF] ++ str "nothing here")
           [mkCard (str "a") (str "b") None None]);
    vm_compute; reflexivity.
Defined.

(** ** Blocks behind gaps of white space *)

Lemma hd_error_app_some {A : Type} (l1 l2 : list A) (x : A) :
  hd_error l1 = Some x -> hd_error (l1 ++ l2) = Some x.
Proof. destruct l1; [discriminate | intro H; exact H]. Qed.

(** After the line feed that opens the separator, the white space is
    taken as far as a line feed can still follow: up to the last line
    feed before the next line. *)
Lemma gap_first_success (i : nat) (c : char) (s w : jsstring) :
  isSpace c = false -> forallb isSpace w = true ->
  forall k,
    hd_error
      (flat_map (exec false (Rep true 1 Patterns.isLF))
         (map (fun kt => MState (i + fst kt) (snd kt) [])
              (rev (runs isSpace k (w ++ LF :: c :: s)))))
    = Some (MState (i + (k + length w) + 1) (c :: s) []).
Proof.
  intros Hc. induction w as [|d w IH]; intros Hw k.
  - cbn [app length]. rewrite (runs_step isSpace k LF (c :: s) eq_refl).
    rewrite (runs_stop isSpace (S k) c s Hc).
    cbn [rev app map fst snd flat_map exec rest idx caps].
    rewrite (runs_stop Patterns.isLF 0 c s (isSpace_isLF c Hc)).
    rewrite (runs_step Patterns.isLF 0 LF (c :: s) eq_refl).
    rewrite (runs_stop Patterns.isLF 1 c s (isSpace_isLF c Hc)).
    cbn [skipn ordered rev app map fst snd hd_error].
    do 2 f_equal. lia.
  - cbn [forallb] in Hw. apply andb_true_iff in Hw as [Hd Hw].
    cbn [app length]. rewrite (runs_step isSpace k d _ Hd).
    cbn [rev]. rewrite map_app, flat_map_app.
    rewrite (hd_error_app_some _ _ _ (IH Hw (S k))). do 2 f_equal. lia.
Qed.

Lemma blank_matcher_gap (c : char) (q : nat) (s w : jsstring) :
  isSpace c = false -> forallb isSpace w = true ->
  split_matcher false Patterns.blankLines q (LF :: w ++ LF :: c :: s)
  = Some (S (S (length w))).
Proof.
  intros Hc Hw. unfold split_matcher, match_at.
  change (exec false Patterns.blankLines (MState q (LF :: w ++ LF :: c :: s) []))
    with (flat_map (exec false (Rep true 1 Patterns.isLF))
            (map (fun kt => MState (S q + fst kt) (snd kt) [])
                 (rev (runs isSpace 0 (w ++ LF :: c :: s)))) ++ []).
  rewrite app_nil_r.
  rewrite (gap_first_success (S q) c s w Hc Hw 0). cbn [idx]. f_equal. lia.
Qed.

Section SkipFacts.
Variable matcher : nat -> jsstring -> option nat.

(** What a match has taken is passed over. *)
Lemma split_loop_skip (u : jsstring) :
  forall piece q rest,
    split_loop matcher (length u) piece q (u ++ rest)
    = split_loop matcher 0 piece (q + length u) rest.
Proof.
  induction u as [|c u IH]; intros piece q rest; cbn [length app].
  - now rewrite Nat.add_0_r.
  - cbn [split_loop]. rewrite IH. f_equal. lia.
Qed.
End SkipFacts.

Lemma blank_step_gap (piece : jsstring) (q : nat) (w rest : jsstring) :
  headKept rest -> forallb isSpace w = true ->
  split_loop (split_matcher false Patterns.blankLines) 0 piece q (LF :: w ++ LF :: rest)
  = rev piece
    :: split_loop (split_matcher false Patterns.blankLines) 0 [] (S q + S (length w)) rest.
Proof.
  intros K Hw. destruct (headKept_not_LF _ K) as [c [t [-> Hc]]].
  cbn [split_loop]. rewrite (blank_matcher_gap c q t w Hc Hw).
  f_equal.
  change (w ++ LF :: c :: t) with (w ++ [LF] ++ c :: t). rewrite app_assoc.
  replace (S (length w)) with (length (w ++ [LF])) by (rewrite length_app; simpl; lia).
  apply split_loop_skip.
Qed.

Lemma headKept_spacedBlocks (b : list jsstring) (more : list (jsstring * list jsstring)) :
  b <> [] -> Forall cleanLine b -> headKept (spacedBlocks b more).
Proof. intros Hne Hb. apply headKept_app. now apply headKept_joinLines. Qed.

Lemma spacedBlocks_cons (b : list jsstring) (w : jsstring) (b1 : list jsstring)
      (more : list (jsstring * list jsstring)) :
  spacedBlocks b ((w, b1) :: more) = joinLines b ++ LF :: w ++ LF :: spacedBlocks b1 more.
Proof.
  unfold spacedBlocks. cbn [flat_map gapBlock fst snd app].
  rewrite <- !app_assoc. reflexivity.
Qed.

Lemma split_loop_spaced (more : list (jsstring * list jsstring)) :
  Forall gapOk more ->
  forall b piece q,
    b <> [] -> Forall cleanLine b ->
    split_loop (split_matcher false Patterns.blankLines) 0 piece q (spacedBlocks b more)
    = (rev piece ++ joinLines b) :: map (fun wb => joinLines (snd wb)) more.
Proof.
  induction 1 as [|[w b1] more [Hw [Hne1 Hb1]] Hmore IH]; intros b piece q Hne Hb.
  - unfold spacedBlocks. cbn [flat_map map].
    rewrite split_loop_block by assumption. cbn [split_loop].
    rewrite rev_app_distr, rev_involutive. reflexivity.
  - cbn [fst snd] in *. rewrite spacedBlocks_cons.
    rewrite split_loop_block by assumption.
    rewrite blank_step_gap by (auto using headKept_spacedBlocks).
    rewrite (IH b1 [] _ Hne1 Hb1).
    cbn [map snd rev app]. rewrite rev_app_distr, rev_involutive. reflexivity.
Qed.

Lemma cardBlocks_spaced (b : list jsstring) (more : list (jsstring * list jsstring)) :
  b <> [] -> Forall cleanLine b -> Forall gapOk more ->
  cardBlocks (spacedBlocks b more) = map joinLines (b :: map snd more).
Proof.
  intros Hne Hb Hmore. unfold cardBlocks, split_re.
  rewrite split_with_loop by reflexivity.
  rewrite (split_loop_spaced more Hmore b [] 0 Hne Hb). cbn [rev app map].
  rewrite map_map.
  apply forallb_filter_id. apply forallb_forall. intros s [<-|Hs].
  - apply truthy_true, trim_nonempty, headKept_joinLines; assumption.
  - apply in_map_iff in Hs as [wb [<- Hwb]].
    rewrite Forall_forall in Hmore. destruct (Hmore wb Hwb) as [_ [Hn Hc]].
    apply truthy_true, trim_nonempty, headKept_joinLines; assumption.
Qed.

Lemma fold_pushBlock_clean (bs : list (list jsstring)) :
  wellFormedBlocks bs ->
  forall cards,
    fold_left pushBlock (map joinLines bs) cards = fold_left pushLines bs cards.
Proof.
  induction 1 as [|b bs [Hne Hb] _ IH]; intro cards; [reflexivity|].
  cbn [map fold_left]. rewrite pushBlock_clean by assumption. apply IH.
Qed.

Lemma plain_qaBlock (x y : jsstring) :
  plainSide x -> plainSide y -> qaBlock x y <> [] /\ Forall cleanLine (qaBlock x y).
Proof.
  intros [Hx [Tx Sx]] [Hy [Ty Sy]].
  rewrite <- (app_nil_r (qaBlock x y)). now apply wellFormed_qaBlock.
Qed.

Lemma fold_pushLines_later (more : list (jsstring * (jsstring * jsstring))) :
  Forall laterOk more ->
  forall cards,
    fold_left pushLines (map snd (map laterBlock more)) cards
    = cards ++ map laterCard more.
Proof.
  induction 1 as [|m more [_ [[Hx [Tx _]] [Hy [Ty _]]]] _ IH]; intro cards; cbn [map fold_left].
  - now rewrite app_nil_r.
  - cbn [laterBlock snd]. rewrite pushLines_qaBlock by assumption.
    rewrite IH, <- app_assoc. reflexivity.
Qed.

(** Question and answer blocks behind gaps of white space: the blocks and
    the cards. *)
Lemma parse_spaced (x y : jsstring) (more : list (jsstring * (jsstring * jsstring))) :
  plainSide x -> plainSide y -> Forall laterOk more ->
  cardBlocks (spacedBlocks (qaBlock x y) (map laterBlock more))
  = map joinLines (qaBlock x y :: map snd (map laterBlock more))
  /\ parseAnkiCards (spacedBlocks (qaBlock x y) (map laterBlock more))
     = Ok (qaCard x y :: map laterCard more).
Proof.
  intros Px Py Hmore.
  destruct (plain_qaBlock x y Px Py) as [Hne Hb].
  assert (G : Forall gapOk (map laterBlock more)).
  { apply Forall_forall. intros wb Hwb. apply in_map_iff in Hwb as [m [<- Hm]].
    rewrite Forall_forall in Hmore. destruct (Hmore m Hm) as [Hw [P1 P2]].
    destruct (plain_qaBlock _ _ P1 P2) as [N C]. repeat split; assumption. }
  pose proof (cardBlocks_spaced _ _ Hne Hb G) as E. split; [exact E|].
  assert (M : isMultiLineFormat (spacedBlocks (qaBlock x y) (map laterBlock more)) = true).
  { unfold spacedBlocks, joinLines, qaBlock. cbn [join].
    rewrite <- !app_assoc. destruct Px as [_ [_ Sx]].
    exact (detect_question_answer x _ Sx). }
  unfold parseAnkiCards. rewrite M. unfold parseMultiLine. rewrite E.
  rewrite fold_pushBlock_clean.
  - cbn [fold_left]. destruct Px as [Hx [Tx _]], Py as [Hy [Ty _]].
    rewrite pushLines_qaBlock by assumption.
    now rewrite (fold_pushLines_later more Hmore).
  - constructor; [now split|]. apply Forall_forall. intros b Hin.
    apply in_map_iff in Hin as [wb [<- Hwb]]. rewrite Forall_forall in G.
    now destruct (G wb Hwb) as [_ HG].
Qed.

(** X4. Blocks of a question line [Q: x] and an answer line [A: y], with
    [x] and [y] not empty, without white space at either end and without
    line terminator, each block after the first behind a line feed, any
    white space and a line feed: whatever the white space of the gaps
    (none, blanks, tabs, carriage returns, further line feeds), the text
    is split into exactly these blocks and gives exactly one card per
    block, with question [x] and answer [y], in the order of the
    blocks. *)
Theorem blocks_between_blank_lines (x y : jsstring)
        (more : list (jsstring * (jsstring * jsstring))) :
  plainSide x -> plainSide y -> Forall laterOk more ->
  cardBlocks (spacedBlocks (qaBlock x y) (map laterBlock more))
  = map joinLines (qaBlock x y :: map snd (map laterBlock more))
  /\ parseAnkiCards (spacedBlocks (qaBlock x y) (map laterBlock more))
     = Ok (qaCard x y :: map laterCard more).
Proof. exact (parse_spaced x y more). Qed.

Lemma blocks_between_blank_lines_witness :
  parseAnkiCards (str "Q: 2 + 2" ++ [LF] ++ str "A: 4" ++ [LF; 32; TAB; LF; CR; LF; LF]%N
                  ++ str "Q: capital?" ++ [LF] ++ str "A: Paris" ++ [LF; LF]
                  ++ str "Q: last" ++ [LF] ++ str "A: one")
  = Ok [qaCard (str "2 + 2") (str "4"); qaCard (str "capital?") (str "Paris");
        qaCard (str "last") (str "one")].
Proof.
  apply (blocks_between_blank_lines (str "2 + 2") (str "4")
           [([32; TAB; LF; CR; LF]%N, (str "capital?", str "Paris"));
            ([], (str "last", str "one"))]).
  - repeat split; try discriminate; vm_compute; reflexivity.
  - repeat split; try discriminate; vm_compute; reflexivity.
  - repeat constructor; try discriminate; vm_compute; reflexivity.
Defined.

(** X5. The detection never passes on a text in which a carriage return
    stands before every line feed: the pattern wants a line feed that
    follows the question line directly, and [.] does not take the
    carriage return. *)
Theorem crlf_text_is_not_multiLine (text : jsstring) :
  (forall u v, text = u ++ LF :: v -> exists u', u = u' ++ [CR]) ->
  isMultiLineFormat text = false /\
  forall cards, parseAnkiCards text = Ok cards ->
                length cards <= length (nonBlankLines text).
Proof.
  intro H. pose proof (no_bare_LF_not_multiLine text H) as Hm. split; [exact Hm|].
  intros cards Hc. unfold parseAnkiCards in Hc. rewrite Hm in Hc.
  destruct (nonBlankLines text) as [|l0 ls] eqn:El.
  { injection Hc as <-. simpl. lia. }
  cbn [length Nat.eqb elem nth_error bind] in Hc.
  destruct (isTableFormat (trim l0)).
  - apply (foldM_length (tableRow (l0 :: ls))) in Hc.
    + rewrite length_seq in Hc. simpl in *. lia.
    + intros b i b'. apply tableRow_length.
  - apply (foldM_length fallbackLine) in Hc; [exact Hc|].
    intros b l b'. apply fallbackLine_length.
Qed.

Lemma crlf_text_is_not_multiLine_witness :
  isMultiLineFormat (str "Q: x" ++ [CR; LF] ++ str "A: y") = false.
Proof.
  apply (crlf_text_is_not_multiLine (str "Q: x" ++ [CR; LF] ++ str "A: y")).
  intros u v E.
  destruct (cut_unique LF (str "Q: x" ++ [CR]) (str "A: y") u v) as [-> _].
  - simpl. unfold LF, CR. intuition discriminate.
  - simpl. unfold LF. intuition discriminate.
  - exact E.
  - now exists (str "Q: x").
Defined.

(** X6. A block of a question line and an answer line whose line break is
    a carriage return and a line feed gives no card at all, for every
    question and answer without colon and line feed: the text is not taken
    for blocks, and none of its two lines matches on its own. *)
Theorem crlf_block_is_lost (x y : jsstring) :
  ~ In 58%N x -> ~ In 58%N y -> ~ In LF x -> ~ In LF y ->
  parseAnkiCards (str "Q: " ++ x ++ [CR; LF] ++ str "A: " ++ y) = Ok [] /\
  isMultiLineFormat (str "Q: " ++ x ++ [CR; LF] ++ str "A: " ++ y) = false.
Proof.
  intros Cx Cy Lx Ly. split; [now apply parse_crlf_block|].
  now apply crlf_block_not_multiLine.
Qed.

Lemma crlf_block_is_lost_witness :
  parseAnkiCards (str "Q: " ++ str "2 + 2" ++ [CR; LF] ++ str "A: " ++ str "4") = Ok [].
Proof.
  apply (crlf_block_is_lost (str "2 + 2") (str "4"));
    simpl; unfold LF; intuition discriminate.
Defined.

(** X7. A line [q:::a], with no colon and no line feed in [q] and in [a],
    gives exactly the card with question [q.trim()] and answer
    [a.trim()], without annotation and without tags. *)
Theorem delimiter_line_gives_card (q a : jsstring) :
  ~ In 58%N q -> ~ In 58%N a -> ~ In LF q -> ~ In LF a ->
  parseAnkiCards (q ++ str ":::" ++ a) = Ok [mkCard (trim q) (trim a) None None] /\
  isMultiLineFormat (q ++ str ":::" ++ a) = false /\
  split_str (str ":::") (q ++ str ":::" ++ a) = [q; a].
Proof.
  intros Hq Ha Lq La. split; [now apply parse_delimited|]. split.
  - destruct (isMultiLineFormat (q ++ str ":::" ++ a)) eqn:E; [|reflexivity]. exfalso.
    apply (not_markerPair_delimited q a Hq Ha), questionThenAnswer_markerPair.
    now apply isMultiLineFormat_iff.
  - now apply split_delimiter.
Qed.

Lemma delimiter_line_gives_card_witness :
  parseAnkiCards (str "capital of France " ++ str ":::" ++ str " Paris")
  = Ok [mkCard (trim (str "capital of France ")) (trim (str " Paris")) None None].
Proof.
  apply (delimiter_line_gives_card (str "capital of France ") (str " Paris"));
    simpl; unfold LF; intuition discriminate.
Defined.

(** X8. A line without line feed that is a table header once trimmed,
    followed, line after line, by rows of two or more cells separated by
    single tabs, where every cell is not empty, has no white space at
    either end, no tab and no line feed, and where no row opens with a
    marker [A:] in either case (after a row that opens with [Q:] such a
    row would make the text a multi-line one): the text is not taken for
    blocks and gives one card per row, in the order of the rows, with
    question and answer from the first two cells, the annotation from the
    third cell and the tags from the fourth when the row has them. *)
Theorem table_rows_give_cards (h : jsstring) (rows : list (list jsstring)) :
  tableHeaderLine (trim h) -> ~ In LF h -> Forall validRow rows ->
  parseAnkiCards (joinLines (h :: map rowLine rows)) = Ok (map rowCard rows) /\
  isMultiLineFormat (joinLines (h :: map rowLine rows)) = false.
Proof.
  intros Hh Lh Hr. split; [now apply parse_table | now apply table_not_multiLine].
Qed.

Lemma table_rows_give_cards_witness :
  parseAnkiCards
    (joinLines ((str "q  a" ++ [TAB] ++ str "Annotation TAGS")
                :: map rowLine [[str "foo"; str "bar"; str "note"; str "#x #y"];
                                [str "2 + 2"; str "4: four"]]))
  = Ok (map rowCard [[str "foo"; str "bar"; str "note"; str "#x #y"];
                     [str "2 + 2"; str "4: four"]]).
Proof.
  apply (table_rows_give_cards (str "q  a" ++ [TAB] ++ str "Annotation TAGS")
           [[str "foo"; str "bar"; str "note"; str "#x #y"]; [str "2 + 2"; str "4: four"]]).
  - apply isTableFormat_sound. vm_compute. reflexivity.
  - simpl. unfold LF, TAB. intuition discriminate.
  - repeat constructor; try discriminate; try (simpl; lia);
      try (simpl; unfold LF, TAB; intuition discriminate);
      intros [a [t [E _]]]; discriminate E.
Defined.

(** X9. A tag that [parseTags] returns is never empty, has nothing to
    trim and has no [#]; when the text has no [#], it has no white space
    and no comma either, and it is a part of the text. *)
Theorem parsed_tags_are_clean (tagsText t : jsstring) :
  In t (parseTags tagsText) ->
  t <> [] /\ trim t = t /\ ~ In 35%N t /\
  (includes (str "#") tagsText = false ->
   free Patterns.spaceOrComma t /\ occurs t tagsText).
Proof.
  intro H. pose proof (parseTags_clean tagsText) as C. rewrite Forall_forall in C.
  destruct (C t H) as [Hne Ht]. split; [exact Hne|]. split; [exact Ht|].
  unfold parseTags in H. destruct (includes (str "#") tagsText) eqn:E.
  - split; [|discriminate]. apply free_not_in. now apply hashTags_free in H.
  - split.
    + apply free_not_in. apply (free_occurs isHash t tagsText).
      * now apply plainTags_occurs.
      * now apply not_includes_free.
    + intros _. split; [now apply (plainTags_free tagsText) | now apply plainTags_occurs].
Qed.

Lemma parsed_tags_are_clean_witness :
  str "b" <> [] /\ trim (str "b") = str "b" /\ ~ In 35%N (str "b") /\
  (includes (str "#") (str " a,, b  c ") = false ->
   free Patterns.spaceOrComma (str "b") /\ occurs (str "b") (str " a,, b  c ")).
Proof.
  apply (parsed_tags_are_clean (str " a,, b  c ") (str "b")).
  vm_compute. right. left. reflexivity.
Defined.

(** X10. The single-line form of the last branch: in a text whose lines
    have each one marker [Q:] and then one marker [A:], in either case,
    and no other colon, every line gives one card, in the order of the
    lines: its question is what stands between the markers and its
    answer what follows them, both trimmed; it has no annotation and no
    tags. Anything may stand before the marker [Q:]. *)
Theorem answered_lines_give_cards (lines : list jsstring)
        (pairs : list (jsstring * jsstring)) :
  Forall2 (fun l xy => answered l (fst xy) (snd xy)) lines pairs ->
  parseAnkiCards (joinLines lines) = Ok (map lineCard pairs).
Proof. exact (parse_answered lines pairs). Qed.

Lemma answered_lines_give_cards_witness :
  parseAnkiCards (joinLines [str "1. Q: rocq  A: a prover"; str "q:two a: 2 "])
  = Ok [qaCard (str "rocq") (str "a prover"); qaCard (str "two") (str "2")].
Proof.
  apply (answered_lines_give_cards
           [str "1. Q: rocq  A: a prover"; str "q:two a: 2 "]
           [(str " rocq  ", str " a prover"); (str "two ", str " 2 ")]).
  constructor; [|constructor; [|constructor]].
  - exists (str "1. "), 81%N, 65%N. cbn [fst snd].
    split; [reflexivity|]. split; [reflexivity|]. split; [reflexivity|].
    repeat split; try reflexivity; vm_compute; intuition discriminate.
  - exists [], 113%N, 97%N. cbn [fst snd].
    split; [reflexivity|]. split; [reflexivity|]. split; [reflexivity|].
    repeat split; try reflexivity; vm_compute; intuition discriminate.
Defined.

(** ** The tags input of the dialog *)

(** X11. Tags that are not empty and have no white space come back
    unchanged from the tags input: joined with spaces, then split by the
    change handler. The tags that the comma and white space style of
    [parseTags] gives are such tags; and whatever is typed, the handler
    leaves only tags that are not empty and have no white space. *)
Theorem tags_input_round_trip :
  (forall ts, Forall spaceFree ts -> Modal.editedTags (Modal.tagsInputValue ts) = ts)
  /\ (forall tagsText,
        includes (str "#") tagsText = false ->
        Modal.editedTags (Modal.tagsInputValue (parseTags tagsText)) = parseTags tagsText)
  /\ (forall value, Forall spaceFree (Modal.editedTags value)).
Proof.
  split; [exact editedTags_input|]. split.
  - intros tagsText H. unfold parseTags. rewrite H.
    apply editedTags_input, plainTags_spaceFree.
  - exact editedTags_spaceFree.
Qed.

Lemma tags_input_round_trip_witness :
  Modal.editedTags (Modal.tagsInputValue [str "rocq"; str "proof"; str "a,b"])
  = [str "rocq"; str "proof"; str "a,b"]
  /\ Modal.editedTags (Modal.tagsInputValue (parseTags (str " x, y  z ")))
     = parseTags (str " x, y  z ").
Proof.
  destruct tags_input_round_trip as [H1 [H2 _]]. split.
  - apply H1. repeat constructor; discriminate.
  - apply H2. vm_compute. reflexivity.
Defined.

(** ** The field mapping and the note *)

(** X12. A mapping that [mapFields] returns has one or two entries; each
    key is a field name of the schema, no value is empty once trimmed, and
    the answer with its annotation is the value of an entry. *)
Theorem mapping_is_within_schema noteType card names fields :
  mapFields noteType card names = Ok fields ->
  1 <= length fields <= 2 /\
  (forall k v, In (k, v) fields -> In k names /\ trim v <> []) /\
  (exists k, In (k, answerWithAnnotation card) fields).
Proof.
  intro H. apply mapFields_sound in H as [Hb Hv].
  apply buildFields_keys in Hb as [k1 [k2 [H1 [H2 ->]]]].
  split; [apply twoFields_length|]. split.
  - intros k v Hin. split; [|exact (Hv k v Hin)].
    apply twoFields_entries in Hin as [[-> _]|[-> _]]; assumption.
  - exists k2. destruct (list_eq_dec N.eq_dec k1 k2) as [->|Hne].
    + rewrite twoFields_same. now left.
    + rewrite twoFields_distinct by exact Hne. right. now left.
Qed.

Lemma mapping_is_within_schema_witness :
  1 <= length [(str "Text", str "Q"); (str "Extra", str "A")] <= 2 /\
  (forall k v, In (k, v) [(str "Text", str "Q"); (str "Extra", str "A")] ->
               In k [str "Extra"; str "Note"; str "Text"] /\ trim v <> []) /\
  (exists k, In (k, answerWithAnnotation (qaCard (str "Q") (str "A")))
                [(str "Text", str "Q"); (str "Extra", str "A")]).
Proof.
  apply (mapping_is_within_schema (str "Cloze") (qaCard (str "Q") (str "A"))
           [str "Extra"; str "Note"; str "Text"]).
  vm_compute. reflexivity.
Defined.

(** X13. The ladder below the first template, for a card whose answer
    is not empty and whose question and whose answer with its annotation
    are not empty once trimmed: a schema with the two localized names and
    without [Front] and [Back] together is filled under the localized
    names; one with [Text] and [Extra] and neither earlier template under
    [Text] and [Extra]; and a schema with no template, whose first two
    names differ, under these two names, whatever they are. *)
Theorem ladder_below_first_template noteType card names :
  answer card <> [] ->
  trim (question card) <> [] -> trim (answerWithAnnotation card) <> [] ->
  (~ hasTemplate names (str "Front") (str "Back") ->
   hasTemplate names zhFront zhBack ->
   mapFields noteType card names
   = Ok [(zhFront, question card); (zhBack, answerWithAnnotation card)])
  /\ (~ hasTemplate names (str "Front") (str "Back") ->
      ~ hasTemplate names zhFront zhBack ->
      hasTemplate names (str "Text") (str "Extra") ->
      mapFields noteType card names
      = Ok [(str "Text", question card); (str "Extra", answerWithAnnotation card)])
  /\ (forall f0 f1 more,
        noTemplate names -> names = f0 :: f1 :: more -> f0 <> f1 ->
        mapFields noteType card names
        = Ok [(f0, question card); (f1, answerWithAnnotation card)]).
Proof.
  intros Hn Tq Ta.
  assert (Hq : question card <> []) by (intro E; apply Tq; now rewrite E).
  assert (V : forall k1 k2 k v : jsstring,
             In (k, v) [(k1, question card); (k2, answerWithAnnotation card)] ->
             trim v <> []).
  { intros k1 k2 k v [E|[E|[]]]; injection E as _ <-; assumption. }
  split; [|split].
  - intros N1 T2. apply mapFields_built; [exact Hq | exact Hn | | apply V].
    unfold buildFields. rewrite (no_template_test _ _ _ N1).
    rewrite (proj2 (hasTemplate_test _ _ _) T2). reflexivity.
  - intros N1 N2 T3. apply mapFields_built; [exact Hq | exact Hn | | apply V].
    unfold buildFields.
    rewrite (no_template_test _ _ _ N1), (no_template_test _ _ _ N2).
    rewrite (proj2 (hasTemplate_test _ _ _) T3). reflexivity.
  - intros f0 f1 more [N1 [N2 N3]] E Hne.
    apply mapFields_built; [exact Hq | exact Hn | | apply V].
    unfold buildFields.
    rewrite (no_template_test _ _ _ N1), (no_template_test _ _ _ N2),
      (no_template_test _ _ _ N3).
    rewrite E. now rewrite twoFields_distinct.
Qed.

Lemma ladder_below_first_template_witness :
  mapFields (str "Basic") (qaCard (str "Q") (str "A")) [str "Back"; zhBack; zhFront]
  = Ok [(zhFront, str "Q"); (zhBack, str "A")]
  /\ mapFields (str "Cloze") (qaCard (str "Q") (str "A")) [str "Extra"; str "Text"]
     = Ok [(str "Text", str "Q"); (str "Extra", str "A")]
  /\ mapFields (str "Mine") (qaCard (str "Q") (str "A")) [str "Recto"; str "Verso"; str "Front"]
     = Ok [(str "Recto", str "Q"); (str "Verso", str "A")].
Proof.
  split; [|split].
  - apply (proj1 (ladder_below_first_template (str "Basic") (qaCard (str "Q") (str "A"))
                    [str "Back"; zhBack; zhFront] ltac:(discriminate)
                    ltac:(vm_compute; discriminate) ltac:(vm_compute; discriminate))).
    + intros [H _]. simpl in H. intuition discriminate.
    + split; simpl; auto.
  - apply (proj1 (proj2 (ladder_below_first_template (str "Cloze") (qaCard (str "Q") (str "A"))
                    [str "Extra"; str "Text"] ltac:(discriminate)
                    ltac:(vm_compute; discriminate) ltac:(vm_compute; discriminate)))).
    + intros [H _]. simpl in H. intuition discriminate.
    + intros [H _]. simpl in H. intuition discriminate.
    + split; simpl; auto.
  - apply (proj2 (proj2 (ladder_below_first_template (str "Mine") (qaCard (str "Q") (str "A"))
                    [str "Recto"; str "Verso"; str "Front"] ltac:(discriminate)
                    ltac:(vm_compute; discriminate) ltac:(vm_compute; discriminate)))
                 (str "Recto") (str "Verso") [str "Front"]).
    + repeat split; intros [H1 H2]; simpl in H1, H2; intuition discriminate.
    + reflexivity.
    + discriminate.
Defined.

(** X14. When a schema with no template names its first two fields
    alike, the mapping of a card with a question and an answer has that
    one field, and it holds the answer with its annotation: the question
    is not sent and, past the check that it is not empty, it is not
    looked at, so that a question of white space only passes. With two
    different first names and no template the same card is refused, and
    the error names the first of the two. *)
Theorem same_name_twice_drops_question noteType card k more :
  noTemplate (k :: k :: more) ->
  question card <> [] -> answer card <> [] ->
  trim (answerWithAnnotation card) <> [] ->
  mapFields noteType card (k :: k :: more) = Ok [(k, answerWithAnnotation card)]
  /\ (forall f0 f1 others,
        noTemplate (f0 :: f1 :: others) -> f0 <> f1 ->
        trim (question card) = [] ->
        mapFields noteType card (f0 :: f1 :: others) = Throw (FieldEmpty f0)).
Proof.
  intros [N1 [N2 N3]] Hq Ha Ta. split.
  - apply mapFields_built; [exact Hq | exact Ha | |].
    + unfold buildFields.
      rewrite (no_template_test _ _ _ N1), (no_template_test _ _ _ N2),
        (no_template_test _ _ _ N3).
      now rewrite twoFields_same.
    + intros k' v [E|[]]. now injection E as _ <-.
  - intros f0 f1 others [M1 [M2 M3]] Hne Tq.
    apply (mapFields_blank_question noteType card (f0 :: f1 :: others) f0 f1);
      try assumption.
    unfold buildFields.
    rewrite (no_template_test _ _ _ M1), (no_template_test _ _ _ M2),
      (no_template_test _ _ _ M3). reflexivity.
Qed.

Lemma same_name_twice_drops_question_witness :
  mapFields (str "Odd") (qaCard (str "  ") (str "A")) [str "Side"; str "Side"]
  = Ok [(str "Side", answerWithAnnotation (qaCard (str "  ") (str "A")))]
  /\ mapFields (str "Odd") (qaCard (str "  ") (str "A")) [str "Recto"; str "Verso"]
     = Throw (FieldEmpty (str "Recto")).
Proof.
  assert (N : forall a b : jsstring,
             a = str "Side" /\ b = str "Side" \/ a = str "Recto" /\ b = str "Verso" ->
             noTemplate [a; b]).
  { intros a b [[-> ->]|[-> ->]];
      repeat split; intros [H1 H2]; simpl in H1, H2; intuition discriminate. }
  destruct (same_name_twice_drops_question (str "Odd") (qaCard (str "  ") (str "A"))
              (str "Side") [] (N _ _ (or_introl (conj eq_refl eq_refl)))
              ltac:(discriminate) ltac:(discriminate)
              ltac:(vm_compute; discriminate)) as [H1 H2].
  split; [exact H1|].
  apply (H2 (str "Recto") (str "Verso") []).
  - exact (N _ _ (or_intror (conj eq_refl eq_refl))).
  - discriminate.
  - reflexivity.
Defined.

(** X15. Parsing, then mapping: a card that [parseAnkiCards] returned and
    that has a question and an answer has a note on every schema of two
    field names or more, made of the mapping of [mapFields], the tags of
    the card (none when it has none) and no duplicates allowed. In the
    multi-line branch this holds for every card returned. *)
Theorem parsed_cards_have_notes (text : jsstring) (cards : list AnkiCard) :
  parseAnkiCards text = Ok cards ->
  (forall card deck noteType names,
      In card cards -> question card <> [] -> answer card <> [] ->
      2 <= length names ->
      exists fields,
        mapFields noteType card names = Ok fields /\
        noteOfCard deck noteType names card
        = Ok (mkNote deck noteType fields
                     (match tags card with Some t => t | None => [] end) false))
  /\ (isMultiLineFormat text = true ->
      forall card deck noteType names,
        In card cards -> 2 <= length names ->
        exists note, noteOfCard deck noteType names card = Ok note).
Proof.
  intro H. pose proof (parse_normal text cards H) as N. rewrite Forall_forall in N.
  split.
  - intros card deck noteType names Hin Hq Ha L.
    now apply noteOfCard_normal; auto.
  - intros Hm card deck noteType names Hin L.
    assert (C : Forall complete cards).
    { unfold parseAnkiCards in H. rewrite Hm in H. injection H as <-.
      apply parseMultiLine_complete. }
    rewrite Forall_forall in C. destruct (C card Hin) as [Hq Ha].
    destruct (noteOfCard_normal deck noteType names card Hq Ha (N card Hin) L)
      as [fields [_ E]]. eauto.
Qed.

Lemma parsed_cards_have_notes_witness :
  exists note,
    noteOfCard (str "Default") (str "Basic") [str "Front"; str "Back"]
               (mkCard (str "x") (str "y") None (Some [str "t"]))
    = Ok note.
Proof.
  apply (proj2 (parsed_cards_have_notes
                  (str "Q: x" ++ [LF] ++ str "A: y" ++ [LF] ++ str "tags: t")
                  [mkCard (str "x") (str "y") None (Some [str "t"])]
                  ltac:(vm_compute; reflexivity))
               ltac:(vm_compute; reflexivity)).
  - now left.
  - simpl. lia.
Defined.

(** ** The selection dialog *)

(** X16. Whatever happens in the dialog, it keeps one flag per card and as
    many cards as [parseAnkiCards] gave; so every check box and every
    question or answer input that was created finds its flag or its card:
    the handler of a control of a card never misses. *)
Theorem dialog_keeps_its_size parsed deck note (es : list Modal.event) (st : Modal.state) :
  Modal.run es (Modal.open parsed deck note) = Some st ->
  length (Modal.selectedCards st) = length parsed /\
  length (Modal.cards st) = length parsed /\
  (forall index, index < length parsed ->
     forall checked value,
       (exists st', Modal.handle (Modal.CheckCard index checked) st = Some st') /\
       (exists st', Modal.handle (Modal.EditQuestion index value) st = Some st') /\
       (exists st', Modal.handle (Modal.EditAnswer index value) st = Some st')).
Proof.
  intro H.
  destruct (run_wellSized es _ st (open_wellSized parsed deck note) H) as [[W1 W2] O].
  cbn [Modal.open Modal.opened] in O. rewrite O in W2.
  split; [congruence|]. split; [exact W2|].
  intros index L checked value. cbn [Modal.handle]. rewrite O.
  destruct (nth_error parsed index) eqn:E; [|apply nth_error_None in E; lia].
  split; [|split].
  - destruct (assign_some (Modal.selectedCards st) index checked) as [sel ->]; [lia|].
    cbn. eauto.
  - destruct (update_some (Modal.cards st) index (setQuestion value)) as [cs ->]; [lia|].
    cbn. eauto.
  - destruct (update_some (Modal.cards st) index (setAnswer value)) as [cs ->]; [lia|].
    cbn. eauto.
Qed.

Lemma dialog_keeps_its_size_witness :
  exists st,
    Modal.run [Modal.CheckCard 1 false; Modal.SelectAll true; Modal.EditQuestion 0 (str "why?")]
              (Modal.open [qaCard (str "a") (str "b"); qaCard (str "c") (str "d")]
                          (str "Default") (str "Basic")) = Some st
    /\ length (Modal.selectedCards st) = 2 /\ length (Modal.cards st) = 2.
Proof.
  eexists. split; [vm_compute; reflexivity|].
  match goal with
  | |- length (Modal.selectedCards ?s) = _ /\ _ =>
      destruct (dialog_keeps_its_size
                  [qaCard (str "a") (str "b"); qaCard (str "c") (str "d")]
                  (str "Default") (str "Basic")
                  [Modal.CheckCard 1 false; Modal.SelectAll true;
                   Modal.EditQuestion 0 (str "why?")] s
                  ltac:(vm_compute; reflexivity)) as [H1 [H2 _]]
  end.
  split; [exact H1 | exact H2].
Defined.

Lemma masked_open (cs : list AnkiCard) : masked cs (map (fun _ => true) cs) = cs.
Proof. induction cs as [|c cs IH]; [reflexivity|]. cbn [map masked app]. now rewrite IH. Qed.

(** X17. What the add button submits is the cards whose flag is set, in
    the order of the cards. A dialog that has just opened on one card or
    more submits every card, with the default deck and note type; after
    any handled events, unchecking everything makes the click show the
    notice and submit nothing, and checking everything makes it submit
    every card as it then is. A dialog opened without cards has no such
    button and no such check box. *)
Theorem click_submits_selected_cards parsed deck note :
  (parsed <> [] ->
   Modal.clickAdd (Modal.open parsed deck note) = Some (Modal.AddNotes parsed deck note))
  /\ (parsed = [] ->
      Modal.clickAdd (Modal.open parsed deck note) = None /\
      forall checked, Modal.handle (Modal.SelectAll checked) (Modal.open parsed deck note) = None)
  /\ (forall es st,
        Modal.run es (Modal.open parsed deck note) = Some st ->
        Modal.selectedCardsList st = masked (Modal.cards st) (Modal.selectedCards st) /\
        (forall c, In c (Modal.selectedCardsList st) -> In c (Modal.cards st)) /\
        length (Modal.selectedCardsList st)
        = count_occ bool_dec (Modal.selectedCards st) true /\
        (forall st', Modal.handle (Modal.SelectAll false) st = Some st' ->
                     Modal.clickAdd st' = Some Modal.NoticeSelectCard) /\
        (forall st', Modal.handle (Modal.SelectAll true) st = Some st' ->
                     Modal.clickAdd st'
                     = Some (Modal.AddNotes (Modal.cards st) (Modal.deckName st)
                                            (Modal.noteType st)))).
Proof.
  split; [|split].
  - intro Hne. unfold Modal.clickAdd. rewrite selectedCardsList_masked.
    cbn [Modal.open Modal.cards Modal.selectedCards Modal.deckName Modal.noteType].
    rewrite masked_open.
    destruct parsed; [congruence | reflexivity].
  - intros ->. split; reflexivity.
  - intros es st H.
    destruct (run_wellSized es _ st (open_wellSized parsed deck note) H) as [[W1 W2] O].
    cbn [Modal.open Modal.opened] in O.
    split; [apply selectedCardsList_masked|]. split; [|split; [|split]].
    + intros c Hc. rewrite selectedCardsList_masked in Hc. exact (masked_in _ _ c Hc).
    + rewrite selectedCardsList_masked. now apply masked_length.
    + intros st' E. cbn [Modal.handle] in E.
      destruct (Modal.loaded st) eqn:L; [|discriminate E]. injection E as <-.
      unfold Modal.clickAdd.
      change (Modal.loaded (Modal.mkState (Modal.cards st)
                (map (fun _ => false) (Modal.selectedCards st))
                (Modal.deckName st) (Modal.noteType st) (Modal.opened st)))
        with (Modal.loaded st).
      rewrite L, selectedCardsList_masked.
      cbn [Modal.cards Modal.selectedCards]. now rewrite masked_none.
    + intros st' E. cbn [Modal.handle] in E.
      destruct (Modal.loaded st) eqn:L; [|discriminate E]. injection E as <-.
      unfold Modal.clickAdd.
      change (Modal.loaded (Modal.mkState (Modal.cards st)
                (map (fun _ => true) (Modal.selectedCards st))
                (Modal.deckName st) (Modal.noteType st) (Modal.opened st)))
        with (Modal.loaded st).
      rewrite L, selectedCardsList_masked.
      cbn [Modal.cards Modal.selectedCards Modal.deckName Modal.noteType].
      rewrite masked_all by exact W1.
      unfold Modal.loaded in L. rewrite <- W2 in L.
      destruct (Modal.cards st); [discriminate L | reflexivity].
Qed.

Lemma click_submits_selected_cards_witness :
  Modal.clickAdd (Modal.open [qaCard (str "a") (str "b")] (str "Default") (str "Basic"))
  = Some (Modal.AddNotes [qaCard (str "a") (str "b")] (str "Default") (str "Basic")).
Proof.
  apply (proj1 (click_submits_selected_cards [qaCard (str "a") (str "b")]
                  (str "Default") (str "Basic"))).
  discriminate.
Defined.

(** ** The request to the model *)

(** X18. [processContent] calls the model only with a selection and a key
    that are not empty, and then the model is one that [callModelAPI]
    knows: the construction of the request does not fail, the one message
    of the request is the prompt followed by the selection, and the
    request carries the key of the selected model. With a selection and
    a model that is none of the three, it stops at the notice that asks
    for the key, and names Claude there, whatever keys are set. *)
Theorem request_needs_selection_and_key (settings : Api.AnkifySettings) (text : jsstring) :
  (forall e, Api.processContent settings text <> Api.NoticeFailed e)
  /\ (forall req,
        Api.processContent settings text = Api.Fetch req ->
        text <> [] /\ Api.selectedApiKey settings <> [] /\
        knownModel (Api.apiModel settings) /\
        Api.buildRequest settings text = inr req /\
        Api.messages (Api.requestBody req)
        = [Api.mkMessage (str "user") (Api.customPrompt settings ++ text)] /\
        carriesKey req (Api.selectedApiKey settings))
  /\ (text <> [] -> ~ knownModel (Api.apiModel settings) ->
      Api.processContent settings text = Api.NoticeSetApiKey (str "Claude")).
Proof.
  unfold Api.processContent.
  destruct (truthy text) eqn:Et; cbn [negb].
  2:{ apply truthy_false in Et. split; [discriminate|]. split; [discriminate|]. congruence. }
  apply truthy_true in Et.
  destruct (knownModel_dec (Api.apiModel settings)) as [K|K].
  - destruct (buildRequest_known settings text K) as [req [Eb [Em Ek]]]. rewrite Eb.
    destruct (truthy (Api.selectedApiKey settings)) eqn:Ekey; cbn [negb].
    + apply truthy_true in Ekey. split; [discriminate|]. split; [|tauto].
      intros r E. injection E as <-. auto 10.
    + split; [discriminate|]. split; [discriminate | tauto].
  - rewrite (selectedApiKey_unknown settings K). cbn [truthy negb].
    split; [discriminate|]. split; [discriminate|].
    intros _ _. now rewrite (providerName_unknown _ K).
Qed.

Lemma request_needs_selection_and_key_witness :
  Api.processContent
    (Api.mkSettings (str "gemini") (str "k1") (str "k2") (str "k3") (str "Make cards: ")
                    false (str "http://127.0.0.1:8765") (str "Default") (str "Basic"))
    (str "some notes")
  = Api.NoticeSetApiKey (str "Claude").
Proof.
  apply (proj2 (proj2 (request_needs_selection_and_key
           (Api.mkSettings (str "gemini") (str "k1") (str "k2") (str "k3") (str "Make cards: ")
                           false (str "http://127.0.0.1:8765") (str "Default") (str "Basic"))
           (str "some notes")))).
  - discriminate.
  - intros [H|[H|H]]; discriminate H.
Defined.
